(** * util.third_cryptography: AES-CBC/PKCS7 and RSA helpers

    A shallow embedding of [src/util/third_cryptography.py].  The module is a
    thin layer over the [cryptography] package: it fixes the mode, the
    padding and the hash parameters and forwards to the package.  The
    embedding keeps that split.

    - The classes [AES], [RSAPrivate] and [RSAPublic] are translated
      statement by statement; [AES] a second time on an explicit object
      store, where its contexts are mutable objects.
    - What the classes call in [cryptography] is written out as the package
      computes it: the PKCS7 padding contexts, the CBC cipher contexts, the
      argument checks of the constructors, RSAES-OAEP and RSASSA-PSS.
    - What the package obtains from its backend is a field of a backend
      record: for AES the block function and its inverse, for RSA the hash
      functions, key generation and the codecs of the key formats.  What the
      proofs need from them is stated as hypotheses.  The block cipher of
      FIPS 197 is given as a backend and meets its hypotheses; a small
      executable RSA backend meets the others. *)

From Stdlib Require Import List Arith Bool ZArith Lia ZifyNat Zpow_facts Btauto.
From Stdlib Require Import Zdivisibility.
From Stdlib Require ZmodInv.
From Stdlib Require Import Init.Byte Strings.Byte.
Import ListNotations.

Set Implicit Arguments.

(** ** Python values *)

Definition bytes := list byte.

Definition bytes_eqb (a b : bytes) : bool :=
  if list_eq_dec Byte.byte_eq_dec a b then true else false.

(** [bytes([n])] for [0 <= n <= 255]; the padding code below only calls it
    with [1 <= n <= 255]. *)
Definition byte_of_nat (n : nat) : byte :=
  match Byte.of_nat n with
  | Some b => b
  | None => x00
  end.

(** Every byte value, in order. *)
Definition all_bytes : list byte := map byte_of_nat (seq 0 256).

Definition xor_byte (a b : byte) : byte :=
  let '(a0, (a1, (a2, (a3, (a4, (a5, (a6, a7))))))) := Byte.to_bits a in
  let '(b0, (b1, (b2, (b3, (b4, (b5, (b6, b7))))))) := Byte.to_bits b in
  Byte.of_bits
    (xorb a0 b0, (xorb a1 b1, (xorb a2 b2, (xorb a3 b3,
    (xorb a4 b4, (xorb a5 b5, (xorb a6 b6, xorb a7 b7))))))).

Definition xor_bytes (a b : bytes) : bytes :=
  map (fun p => xor_byte (fst p) (snd p)) (combine a b).

Definition and_byte (a b : byte) : byte :=
  let '(a0, (a1, (a2, (a3, (a4, (a5, (a6, a7))))))) := Byte.to_bits a in
  let '(b0, (b1, (b2, (b3, (b4, (b5, (b6, b7))))))) := Byte.to_bits b in
  Byte.of_bits
    (andb a0 b0, (andb a1 b1, (andb a2 b2, (andb a3 b3,
    (andb a4 b4, (andb a5 b5, (andb a6 b6, andb a7 b7))))))).

Definition byte_to_Z (b : byte) : Z := Z.of_nat (Byte.to_nat b).
Definition byte_of_Z (z : Z) : byte := byte_of_nat (Z.to_nat z).

Fixpoint to_bytes_le (len : nat) (x : Z) : bytes :=
  match len with
  | 0 => []
  | S len' => byte_of_Z (x mod 256) :: to_bytes_le len' (x / 256)
  end.

Fixpoint from_bytes_le (b : bytes) : Z :=
  match b with
  | [] => 0
  | x :: rest => byte_to_Z x + 256 * from_bytes_le rest
  end.

(** [int.to_bytes(length, "big")] and [int.from_bytes(data, "big")]. *)
Definition int_to_bytes (x : Z) (len : nat) : bytes := rev (to_bytes_le len x).
Definition int_from_bytes (b : bytes) : Z := from_bytes_le (rev b).

(** ** Exceptions

    [foreign_exc] lists the exception classes that reach this module from
    outside (builtins and [cryptography.exceptions]); [exc] adds the two
    classes the module defines itself.  Code outside the module cannot raise
    the module's own classes, which the types record. *)

Inductive foreign_exc : Type :=
| Exception
| ValueError
| TypeError
| InvalidSignature
| UnsupportedAlgorithm
| AlreadyFinalized.

Inductive exc : Type :=
| Foreign (e : foreign_exc)
| CryptoException
| SizeException.

Definition foreign_exc_eqb (a b : foreign_exc) : bool :=
  match a, b with
  | Exception, Exception
  | ValueError, ValueError
  | TypeError, TypeError
  | InvalidSignature, InvalidSignature
  | UnsupportedAlgorithm, UnsupportedAlgorithm
  | AlreadyFinalized, AlreadyFinalized => true
  | _, _ => false
  end.

Definition exc_eqb (a b : exc) : bool :=
  match a, b with
  | Foreign x, Foreign y => foreign_exc_eqb x y
  | CryptoException, CryptoException => true
  | SizeException, SizeException => true
  | _, _ => false
  end.

(** Method resolution order of each class, up to [Exception]. *)
Definition mro (c : exc) : list exc :=
  match c with
  | Foreign Exception => [Foreign Exception]
  | Foreign e => [Foreign e; Foreign Exception]
  | CryptoException => [CryptoException; Foreign Exception]
  | SizeException => [SizeException; CryptoException; Foreign Exception]
  end.

Definition issubclass (c d : exc) : bool := existsb (exc_eqb d) (mro c).

(** ** Results *)

Inductive result (E A : Type) : Type :=
| Ok (a : A)
| Raise (e : E).

Arguments Ok {E A} a.
Arguments Raise {E A} e.

Definition bind {E A B} (r : result E A) (k : A -> result E B) : result E B :=
  match r with
  | Ok a => k a
  | Raise e => Raise e
  end.

Notation "x <- r ;; k" := (bind r (fun x => k))
  (at level 61, r at next level, right associativity).

(** An exception of the package passes through the module unchanged. *)
Definition propagate {A} (r : result foreign_exc A) : result exc A :=
  match r with
  | Ok a => Ok a
  | Raise e => Raise (Foreign e)
  end.

(** ** The operating system's random source

    An entropy state is the stream of bytes still to be handed out. *)

Definition entropy := nat -> byte.

(** ** Stateful computations

    A computation over a state [S] (the random source, or the object store
    further down) that returns or raises. *)

Definition stateful (S E A : Type) : Type := S -> result E A * S.

Definition sret {S E A} (a : A) : stateful S E A := fun s => (Ok a, s).

Definition sbind {S E A B} (m : stateful S E A) (k : A -> stateful S E B)
  : stateful S E B :=
  fun s =>
    match m s with
    | (Ok a, s') => k a s'
    | (Raise e, s') => (Raise e, s')
    end.

Notation "x <~ m ;; k" := (sbind m (fun x => k))
  (at level 61, m at next level, right associativity).

Definition slift {S E A} (r : result E A) : stateful S E A := fun s => (r, s).

Definition spropagate {S A} (m : stateful S foreign_exc A) : stateful S exc A :=
  fun s => let (r, s') := m s in (propagate r, s').

(** A computation that may draw random bytes. *)
Definition rand (E A : Type) : Type := stateful entropy E A.

Module os.

(** [os.urandom(size)]: the next [size] bytes of the source. *)
Definition urandom (size : nat) : rand foreign_exc bytes :=
  fun rng => (Ok (map rng (seq 0 size)), fun i => rng (size + i)).

End os.

Module secrets.

(** [secrets.token_bytes(nbytes)]; a negative count is a [ValueError]. *)
Definition token_bytes (nbytes : Z) : rand foreign_exc bytes :=
  if (nbytes <? 0)%Z then slift (Raise ValueError)
  else os.urandom (Z.to_nat nbytes).

End secrets.

(** ** cryptography.hazmat.primitives.padding *)

Module padding.

Record PKCS7 := { block_size : nat }.

(** [PKCS7(block_size)], the size in bits. *)
Definition new_PKCS7 (bits : nat) : result foreign_exc PKCS7 :=
  if negb (bits <=? 2040) then Raise ValueError
  else if negb (bits mod 8 =? 0) then Raise ValueError
  else Ok {| block_size := bits |}.

(** A padding or unpadding context: the block size in bits and the bytes
    received but not yet returned. *)
Record PaddingContext := { ctx_block_size : nat; buffer : bytes }.

Definition padder (p : PKCS7) : PaddingContext :=
  {| ctx_block_size := block_size p; buffer := [] |}.

Definition unpadder (p : PKCS7) : PaddingContext :=
  {| ctx_block_size := block_size p; buffer := [] |}.

(** [padder.update(data)]: returns the whole blocks, keeps the rest. *)
Definition padder_update (c : PaddingContext) (data : bytes)
  : PaddingContext * bytes :=
  let buf := buffer c ++ data in
  let bs := ctx_block_size c / 8 in
  let finished_blocks := length buf / bs in
  ({| ctx_block_size := ctx_block_size c;
      buffer := skipn (finished_blocks * bs) buf |},
   firstn (finished_blocks * bs) buf).

(** [padder.finalize()]. *)
Definition padder_finalize (c : PaddingContext) : bytes :=
  let pad_size := ctx_block_size c / 8 - length (buffer c) in
  buffer c ++ repeat (byte_of_nat pad_size) pad_size.

(** [unpadder.update(data)]: like the padder, but the last whole block is
    held back. *)
Definition unpadder_update (c : PaddingContext) (data : bytes)
  : PaddingContext * bytes :=
  let buf := buffer c ++ data in
  let bs := ctx_block_size c / 8 in
  let finished_blocks := Nat.max (length buf / bs - 1) 0 in
  ({| ctx_block_size := ctx_block_size c;
      buffer := skipn (finished_blocks * bs) buf |},
   firstn (finished_blocks * bs) buf).

(** The padding check on a full block: the last byte [n] is in
    [1 .. block_len] and the last [n] bytes all equal [n]. *)
Definition check_pkcs7_padding (data : bytes) (block_len : nat) : bool :=
  let pad := last data x00 in
  let pad_size := Byte.to_nat pad in
  (0 <? pad_size) && (pad_size <=? block_len)
  && forallb (Byte.eqb pad) (skipn (block_len - pad_size) data).

(** [unpadder.finalize()]. *)
Definition unpadder_finalize (c : PaddingContext) : result foreign_exc bytes :=
  let bs := ctx_block_size c / 8 in
  if negb (length (buffer c) =? bs) then Raise ValueError
  else if negb (check_pkcs7_padding (buffer c) bs) then Raise ValueError
  else
    let pad_size := Byte.to_nat (last (buffer c) x00) in
    Ok (firstn (length (buffer c) - pad_size) (buffer c)).

End padding.

(** ** cryptography.hazmat.primitives.ciphers *)

(** What the package takes from its backend for AES: the block function and
    its inverse, on a key and one 16-byte block. *)
Record CipherBackend := {
  aes_encrypt_block : bytes -> bytes -> bytes;
  aes_decrypt_block : bytes -> bytes -> bytes
}.

Module ciphers.

Record AES := { key : bytes }.
Record CBC := { initialization_vector : bytes }.

Definition AES_block_size : nat := 128.

(** [algorithms.AES(key)]. *)
Definition new_AES (k : bytes) : result foreign_exc AES :=
  if existsb (Nat.eqb (length k * 8)) [128; 192; 256; 512]
  then Ok {| key := k |}
  else Raise ValueError.

(** [modes.CBC(iv)]. *)
Definition new_CBC (iv : bytes) : CBC := {| initialization_vector := iv |}.

Record Cipher := { algorithm : AES; mode : CBC; backend : CipherBackend }.

(** [Cipher(algorithm, mode, backend)]: the mode checks the IV against the
    block size of the algorithm. *)
Definition new_Cipher (a : AES) (m : CBC) (b : CipherBackend)
  : result foreign_exc Cipher :=
  if length (initialization_vector m) * 8 =? AES_block_size
  then Ok {| algorithm := a; mode := m; backend := b |}
  else Raise ValueError.

(** A cipher context: direction, the chaining block and the bytes received
    that do not yet fill a block.  The package switches the backend's own
    padding off. *)
Record CipherContext := {
  ctx_cipher : Cipher;
  encrypting : bool;
  chain : bytes;
  pending : bytes
}.

Definition encryptor (c : Cipher) : CipherContext :=
  {| ctx_cipher := c; encrypting := true;
     chain := initialization_vector (mode c); pending := [] |}.

Definition decryptor (c : Cipher) : CipherContext :=
  {| ctx_cipher := c; encrypting := false;
     chain := initialization_vector (mode c); pending := [] |}.

(** One CBC step on a 16-byte block: the output block and the next
    chaining block. *)
Definition cbc_block (c : Cipher) (enc : bool) (prev blk : bytes)
  : bytes * bytes :=
  if enc then
    let out := aes_encrypt_block (backend c) (key (algorithm c))
                                 (xor_bytes blk prev) in
    (out, out)
  else
    (xor_bytes (aes_decrypt_block (backend c) (key (algorithm c)) blk) prev,
     blk).

(** [n] CBC steps over the first [n] blocks of [data]. *)
Fixpoint cbc_blocks (c : Cipher) (enc : bool) (n : nat) (prev data : bytes)
  : bytes * bytes :=
  match n with
  | 0 => (prev, [])
  | S n' =>
      let (out, next) := cbc_block c enc prev (firstn 16 data) in
      let (final, outs) := cbc_blocks c enc n' next (skipn 16 data) in
      (final, out ++ outs)
  end.

(** [context.update(data)]: processes the whole blocks available. *)
Definition update (x : CipherContext) (data : bytes) : CipherContext * bytes :=
  let buf := pending x ++ data in
  let n := length buf / 16 in
  let (final, out) :=
    cbc_blocks (ctx_cipher x) (encrypting x) n (chain x) (firstn (n * 16) buf) in
  ({| ctx_cipher := ctx_cipher x; encrypting := encrypting x;
      chain := final; pending := skipn (n * 16) buf |},
   out).

(** [context.finalize()]: with padding off, leftover bytes are an error. *)
Definition finalize (x : CipherContext) : result foreign_exc bytes :=
  match pending x with
  | [] => Ok []
  | _ :: _ => Raise ValueError
  end.

End ciphers.

(** ** The AES block cipher

    FIPS 197, which is what the package's backend computes for
    [algorithms.AES]; an instance of [CipherBackend]. *)

Module FIPS197.

(** Multiplication by [x] in GF(2^8) modulo [x^8 + x^4 + x^3 + x + 1]. *)
Definition xtime (a : byte) : byte :=
  let '(a0, (a1, (a2, (a3, (a4, (a5, (a6, a7))))))) := Byte.to_bits a in
  Byte.of_bits
    (a7, (xorb a0 a7, (a1, (xorb a2 a7, (xorb a3 a7, (a4, (a5, a6))))))).

(** Multiplication in GF(2^8): [b] is taken bit by bit, low bit first. *)
Definition gmul (a b : byte) : byte :=
  let '(b0, (b1, (b2, (b3, (b4, (b5, (b6, b7))))))) := Byte.to_bits b in
  let pick (bit : bool) (x : byte) := if bit then x else x00 in
  let a1 := xtime a in
  let a2 := xtime a1 in
  let a3 := xtime a2 in
  let a4 := xtime a3 in
  let a5 := xtime a4 in
  let a6 := xtime a5 in
  let a7 := xtime a6 in
  xor_byte (pick b0 a)
    (xor_byte (pick b1 a1)
       (xor_byte (pick b2 a2)
          (xor_byte (pick b3 a3)
             (xor_byte (pick b4 a4)
                (xor_byte (pick b5 a5)
                   (xor_byte (pick b6 a6) (pick b7 a7))))))).

(** The multiplicative inverse, [a^254]; 0 goes to 0. *)
Definition ginv (a : byte) : byte :=
  let a2 := gmul a a in
  let a4 := gmul a2 a2 in
  let a8 := gmul a4 a4 in
  let a16 := gmul a8 a8 in
  let a32 := gmul a16 a16 in
  let a64 := gmul a32 a32 in
  let a128 := gmul a64 a64 in
  gmul a2 (gmul a4 (gmul a8 (gmul a16 (gmul a32 (gmul a64 a128))))).

(** The affine map of the S-box. *)
Definition affine (a : byte) : byte :=
  let '(a0, (a1, (a2, (a3, (a4, (a5, (a6, a7))))))) := Byte.to_bits a in
  let f (x y z u v : bool) := xorb x (xorb y (xorb z (xorb u v))) in
  xor_byte x63
    (Byte.of_bits
       (f a0 a4 a5 a6 a7, (f a1 a5 a6 a7 a0, (f a2 a6 a7 a0 a1,
       (f a3 a7 a0 a1 a2, (f a4 a0 a1 a2 a3, (f a5 a1 a2 a3 a4,
       (f a6 a2 a3 a4 a5, f a7 a3 a4 a5 a6)))))))).

Definition sbox_table : list byte :=
  Eval vm_compute in map (fun a => affine (ginv a)) all_bytes.

Definition sbox (a : byte) : byte := nth (Byte.to_nat a) sbox_table x00.

Definition inv_sbox_table : list byte :=
  Eval vm_compute in
    map (fun y => match find (fun a => Byte.eqb (sbox a) y) all_bytes with
                  | Some a => a
                  | None => x00
                  end) all_bytes.

Definition inv_sbox (a : byte) : byte := nth (Byte.to_nat a) inv_sbox_table x00.

Definition sub_bytes (s : bytes) : bytes := map sbox s.
Definition inv_sub_bytes (s : bytes) : bytes := map inv_sbox s.

(** The state is kept as the 16 bytes of the block, column after column. *)
Definition shift_rows (s : bytes) : bytes :=
  map (fun i => nth i s x00) [0; 5; 10; 15; 4; 9; 14; 3; 8; 13; 2; 7; 12; 1; 6; 11].

Definition inv_shift_rows (s : bytes) : bytes :=
  map (fun i => nth i s x00) [0; 13; 10; 7; 4; 1; 14; 11; 8; 5; 2; 15; 12; 9; 6; 3].

Definition mix_column (a b c d : byte) : bytes :=
  let m2 := xtime in
  let m3 x := xor_byte (xtime x) x in
  [xor_byte (m2 a) (xor_byte (m3 b) (xor_byte c d));
   xor_byte a (xor_byte (m2 b) (xor_byte (m3 c) d));
   xor_byte a (xor_byte b (xor_byte (m2 c) (m3 d)));
   xor_byte (m3 a) (xor_byte b (xor_byte c (m2 d)))].

Definition inv_mix_column (a b c d : byte) : bytes :=
  let x2 := xtime in
  let x4 x := xtime (xtime x) in
  let x8 x := xtime (xtime (xtime x)) in
  let m9 x := xor_byte (x8 x) x in
  let m11 x := xor_byte (x8 x) (xor_byte (x2 x) x) in
  let m13 x := xor_byte (x8 x) (xor_byte (x4 x) x) in
  let m14 x := xor_byte (x8 x) (xor_byte (x4 x) (x2 x)) in
  [xor_byte (m14 a) (xor_byte (m11 b) (xor_byte (m13 c) (m9 d)));
   xor_byte (m9 a) (xor_byte (m14 b) (xor_byte (m11 c) (m13 d)));
   xor_byte (m13 a) (xor_byte (m9 b) (xor_byte (m14 c) (m11 d)));
   xor_byte (m11 a) (xor_byte (m13 b) (xor_byte (m9 c) (m14 d)))].

Fixpoint mix_columns (s : bytes) : bytes :=
  match s with
  | a :: b :: c :: d :: rest => mix_column a b c d ++ mix_columns rest
  | _ => []
  end.

Fixpoint inv_mix_columns (s : bytes) : bytes :=
  match s with
  | a :: b :: c :: d :: rest => inv_mix_column a b c d ++ inv_mix_columns rest
  | _ => []
  end.

(** Key expansion, on words of four bytes. *)
Definition word : Type := byte * byte * byte * byte.

Definition word_bytes (w : word) : bytes :=
  let '(a, b, c, d) := w in [a; b; c; d].

Definition xor_word (u v : word) : word :=
  let '(a, b, c, d) := u in
  let '(a', b', c', d') := v in
  (xor_byte a a', xor_byte b b', xor_byte c c', xor_byte d d').

Definition sub_word (w : word) : word :=
  let '(a, b, c, d) := w in (sbox a, sbox b, sbox c, sbox d).

Definition rot_word (w : word) : word :=
  let '(a, b, c, d) := w in (b, c, d, a).

Definition zero_word : word := (x00, x00, x00, x00).

Definition rcon (j : nat) : word := (Nat.iter (j - 1) xtime x01, x00, x00, x00).

Definition key_word (key : bytes) (i : nat) : word :=
  (nth (4 * i) key x00, nth (4 * i + 1) key x00,
   nth (4 * i + 2) key x00, nth (4 * i + 3) key x00).

(** [count] more words after the words [w], the next one having index [i]. *)
Fixpoint expand (nk count i : nat) (w : list word) : list word :=
  match count with
  | 0 => w
  | S count' =>
      let temp := nth (i - 1) w zero_word in
      let temp :=
        if i mod nk =? 0 then xor_word (sub_word (rot_word temp)) (rcon (i / nk))
        else if (6 <? nk) && (i mod nk =? 4) then sub_word temp
        else temp in
      expand nk count' (S i) (w ++ [xor_word (nth (i - nk) w zero_word) temp])
  end.

Definition key_expansion (key : bytes) : list word :=
  let nk := length key / 4 in
  let nr := nk + 6 in
  expand nk (4 * (nr + 1) - nk) nk (map (key_word key) (seq 0 nk)).

Definition round_key (w : list word) (r : nat) : bytes :=
  word_bytes (nth (4 * r) w zero_word)
  ++ word_bytes (nth (4 * r + 1) w zero_word)
  ++ word_bytes (nth (4 * r + 2) w zero_word)
  ++ word_bytes (nth (4 * r + 3) w zero_word).

Definition round_keys (key : bytes) : list bytes :=
  let w := key_expansion key in
  map (round_key w) (seq 0 (length key / 4 + 6 + 1)).

Definition add_round_key (k s : bytes) : bytes := xor_bytes s k.

Definition round (k s : bytes) : bytes :=
  add_round_key k (mix_columns (shift_rows (sub_bytes s))).

Definition final_round (k s : bytes) : bytes :=
  add_round_key k (shift_rows (sub_bytes s)).

Definition inv_round (k s : bytes) : bytes :=
  inv_sub_bytes (inv_shift_rows (inv_mix_columns (add_round_key k s))).

Definition inv_final_round (k s : bytes) : bytes :=
  inv_sub_bytes (inv_shift_rows (add_round_key k s)).

Fixpoint rounds (ks : list bytes) (s : bytes) : bytes :=
  match ks with
  | [] => s
  | k :: ks' =>
      match ks' with
      | [] => final_round k s
      | _ :: _ => rounds ks' (round k s)
      end
  end.

Fixpoint inv_rounds (ks : list bytes) (s : bytes) : bytes :=
  match ks with
  | [] => s
  | k :: ks' =>
      match ks' with
      | [] => inv_final_round k s
      | _ :: _ => inv_round k (inv_rounds ks' s)
      end
  end.

(** Cipher and inverse cipher on one block. *)
Definition cipher (key block : bytes) : bytes :=
  match round_keys key with
  | [] => block
  | k0 :: ks => rounds ks (add_round_key k0 block)
  end.

Definition inv_cipher (key block : bytes) : bytes :=
  match round_keys key with
  | [] => block
  | k0 :: ks => add_round_key k0 (inv_rounds ks block)
  end.

Definition backend : CipherBackend :=
  {| aes_encrypt_block := cipher; aes_decrypt_block := inv_cipher |}.

End FIPS197.

(** ** class AES *)

Module AES.

Record t := { cipher : ciphers.Cipher; padding : padding.PKCS7 }.

Definition KEY_SIZES : list nat := [16; 24; 32].
Definition BLOCK_SIZE : nat := 16.

Section WithBackend.

(** The module-level [backend = default_backend()]. *)
Variable backend : CipherBackend.

(** [AES.__init__]. *)
Definition init (key iv : bytes) : result exc t :=
  if negb (existsb (Nat.eqb (length key)) KEY_SIZES)
     || negb (length iv =? BLOCK_SIZE)
  then Raise SizeException
  else
    a <- propagate (ciphers.new_AES key) ;;
    c <- propagate (ciphers.new_Cipher a (ciphers.new_CBC iv) backend) ;;
    p <- propagate (padding.new_PKCS7 (BLOCK_SIZE * 8)) ;;
    Ok {| cipher := c; padding := p |}.

End WithBackend.

(** [AES.encrypt]. *)
Definition encrypt (self : t) (msg : bytes) : result exc bytes :=
  let encryptor := ciphers.encryptor (cipher self) in
  let padder := padding.padder (padding self) in
  let (padder, head) := padding.padder_update padder msg in
  let msg := head ++ padding.padder_finalize padder in
  let (encryptor, out) := ciphers.update encryptor msg in
  tail <- propagate (ciphers.finalize encryptor) ;;
  Ok (out ++ tail).

(** [AES.decrypt]. *)
Definition decrypt (self : t) (msg : bytes) : result exc bytes :=
  let decryptor := ciphers.decryptor (cipher self) in
  let unpadder := padding.unpadder (padding self) in
  let (decryptor, out) := ciphers.update decryptor msg in
  tail <- propagate (ciphers.finalize decryptor) ;;
  let plaintext := out ++ tail in
  let (unpadder, head) := padding.unpadder_update unpadder plaintext in
  rest <- propagate (padding.unpadder_finalize unpadder) ;;
  Ok (head ++ rest).

(** [AES.generate_key]: the key is drawn first, then the IV. *)
Definition generate_key (key_size : Z) : rand exc (bytes * bytes) :=
  k <~ spropagate (secrets.token_bytes key_size) ;;
  iv <~ spropagate (secrets.token_bytes (Z.of_nat BLOCK_SIZE)) ;;
  sret (k, iv).

End AES.

(** ** class AES on Python's object store

    [AES.encrypt] and [AES.decrypt] above thread the two contexts of a call
    as values.  In Python they are mutable objects, and the instance holds
    references to its [Cipher] and its [PKCS7].  This module spells that out:
    a store of objects, the package's methods as reads and writes of the
    store, and the three methods of the class on top of them. *)

Module Heap.

Definition ref := nat.

Inductive object : Type :=
| OCipher (c : ciphers.Cipher)
| OPKCS7 (p : padding.PKCS7)
| OCipherContext (x : ciphers.CipherContext)
| OPaddingContext (c : padding.PaddingContext)
| OAES (cipher padding : ref).

Definition heap := list object.

Definition alloc (o : object) : stateful heap exc ref :=
  fun h => (Ok (length h), h ++ [o]).

Definition load (r : ref) : stateful heap exc object :=
  fun h =>
    match nth_error h r with
    | Some o => (Ok o, h)
    | None => (Raise (Foreign TypeError), h)
    end.

Definition store (r : ref) (o : object) : stateful heap exc unit :=
  fun h => (Ok tt, firstn r h ++ o :: skipn (S r) h).

Definition type_error {A} : stateful heap exc A :=
  slift (Raise (Foreign TypeError)).

(** [cipher.encryptor()] and [cipher.decryptor()] make a new context. *)
Definition encryptor (c : ref) : stateful heap exc ref :=
  o <~ load c ;;
  match o with
  | OCipher cfg => alloc (OCipherContext (ciphers.encryptor cfg))
  | _ => type_error
  end.

Definition decryptor (c : ref) : stateful heap exc ref :=
  o <~ load c ;;
  match o with
  | OCipher cfg => alloc (OCipherContext (ciphers.decryptor cfg))
  | _ => type_error
  end.

(** [context.update(data)] changes the context in place. *)
Definition update (x : ref) (data : bytes) : stateful heap exc bytes :=
  o <~ load x ;;
  match o with
  | OCipherContext ctx =>
      _ <~ store x (OCipherContext (fst (ciphers.update ctx data))) ;;
      sret (snd (ciphers.update ctx data))
  | _ => type_error
  end.

Definition finalize (x : ref) : stateful heap exc bytes :=
  o <~ load x ;;
  match o with
  | OCipherContext ctx => slift (propagate (ciphers.finalize ctx))
  | _ => type_error
  end.

(** [padding.padder()] and [padding.unpadder()] make a new context. *)
Definition padder (p : ref) : stateful heap exc ref :=
  o <~ load p ;;
  match o with
  | OPKCS7 cfg => alloc (OPaddingContext (padding.padder cfg))
  | _ => type_error
  end.

Definition unpadder (p : ref) : stateful heap exc ref :=
  o <~ load p ;;
  match o with
  | OPKCS7 cfg => alloc (OPaddingContext (padding.unpadder cfg))
  | _ => type_error
  end.

Definition padder_update (x : ref) (data : bytes) : stateful heap exc bytes :=
  o <~ load x ;;
  match o with
  | OPaddingContext ctx =>
      _ <~ store x (OPaddingContext (fst (padding.padder_update ctx data))) ;;
      sret (snd (padding.padder_update ctx data))
  | _ => type_error
  end.

Definition padder_finalize (x : ref) : stateful heap exc bytes :=
  o <~ load x ;;
  match o with
  | OPaddingContext ctx => sret (padding.padder_finalize ctx)
  | _ => type_error
  end.

Definition unpadder_update (x : ref) (data : bytes) : stateful heap exc bytes :=
  o <~ load x ;;
  match o with
  | OPaddingContext ctx =>
      _ <~ store x (OPaddingContext (fst (padding.unpadder_update ctx data))) ;;
      sret (snd (padding.unpadder_update ctx data))
  | _ => type_error
  end.

Definition unpadder_finalize (x : ref) : stateful heap exc bytes :=
  o <~ load x ;;
  match o with
  | OPaddingContext ctx => slift (propagate (padding.unpadder_finalize ctx))
  | _ => type_error
  end.

(** [AES.__init__]: the two attributes are set to new objects. *)
Definition init (backend : CipherBackend) (key iv : bytes)
  : stateful heap exc ref :=
  if negb (existsb (Nat.eqb (length key)) AES.KEY_SIZES)
     || negb (length iv =? AES.BLOCK_SIZE)
  then slift (Raise SizeException)
  else
    a <~ slift (propagate (ciphers.new_AES key)) ;;
    c <~ slift (propagate (ciphers.new_Cipher a (ciphers.new_CBC iv) backend)) ;;
    cipher <~ alloc (OCipher c) ;;
    p <~ slift (propagate (padding.new_PKCS7 (AES.BLOCK_SIZE * 8))) ;;
    padding <~ alloc (OPKCS7 p) ;;
    alloc (OAES cipher padding).

(** [AES.encrypt]. *)
Definition encrypt (self : ref) (msg : bytes) : stateful heap exc bytes :=
  o <~ load self ;;
  match o with
  | OAES cipher padding =>
      encryptor <~ encryptor cipher ;;
      padder <~ padder padding ;;
      head <~ padder_update padder msg ;;
      last <~ padder_finalize padder ;;
      let msg := head ++ last in
      out <~ update encryptor msg ;;
      tail <~ finalize encryptor ;;
      sret (out ++ tail)
  | _ => type_error
  end.

(** [AES.decrypt]. *)
Definition decrypt (self : ref) (msg : bytes) : stateful heap exc bytes :=
  o <~ load self ;;
  match o with
  | OAES cipher padding =>
      decryptor <~ decryptor cipher ;;
      unpadder <~ unpadder padding ;;
      out <~ update decryptor msg ;;
      tail <~ finalize decryptor ;;
      let plaintext := out ++ tail in
      head <~ unpadder_update unpadder plaintext ;;
      rest <~ unpadder_finalize unpadder ;;
      sret (head ++ rest)
  | _ => type_error
  end.

(** The instance at [self], read back as a value. *)
Definition instance_at (h : heap) (self : ref) : option AES.t :=
  match nth_error h self with
  | Some (OAES cipher padding) =>
      match nth_error h cipher, nth_error h padding with
      | Some (OCipher c), Some (OPKCS7 p) =>
          Some {| AES.cipher := c; AES.padding := p |}
      | _, _ => None
      end
  | _ => None
  end.

End Heap.

(** ** cryptography.hazmat.primitives: parameter objects *)

Module hashes.

Inductive HashAlgorithm := SHA1 | SHA224 | SHA256 | SHA384 | SHA512.

Definition digest_size (h : HashAlgorithm) : nat :=
  match h with
  | SHA1 => 20
  | SHA224 => 28
  | SHA256 => 32
  | SHA384 => 48
  | SHA512 => 64
  end.

End hashes.

Module asy_padding.

Inductive MGF := MGF1 (algorithm : hashes.HashAlgorithm).

(** [PSS.MAX_LENGTH] is a marker object, not a number. *)
Inductive SaltLength := MAX_LENGTH | Salt (n : nat).

(** The two paddings the module uses. *)
Inductive AsymmetricPadding :=
| OAEP (mgf : MGF) (algorithm : hashes.HashAlgorithm) (label : option bytes)
| PSS (mgf : MGF) (salt_length : SaltLength).

End asy_padding.

(** ** cryptography.hazmat.primitives.asymmetric.rsa

    The key objects and their four operations, as the package computes
    them: RSAES-OAEP and RSASSA-PSS of PKCS #1 v2.2 over modular
    exponentiation.  The hash functions come from the backend. *)

Module rsa.
Import hashes asy_padding.

Record RSAPublicKey := { e : Z; n : Z }.
Record RSAPrivateKey := { d : Z; public_key : RSAPublicKey }.

(** [key.key_size]: the bit length of the modulus. *)
Definition key_size (key : RSAPublicKey) : nat := Z.to_nat (Z.log2 (n key)) + 1.

(** The length of the modulus in bytes. *)
Definition key_bytes (key : RSAPublicKey) : nat := (key_size key + 7) / 8.

(** The RSA primitives. *)
Definition public_op (key : RSAPublicKey) (m : Z) : Z :=
  Zpow_mod m (e key) (n key).

Definition private_op (key : RSAPrivateKey) (c : Z) : Z :=
  Zpow_mod c (d key) (n (public_key key)).

Section WithDigest.

Variable digest : HashAlgorithm -> bytes -> bytes.

(** MGF1 over the hash [h]. *)
Definition mgf1 (h : HashAlgorithm) (seed : bytes) (mask_len : nat) : bytes :=
  let hlen := digest_size h in
  firstn mask_len
    (concat
       (map (fun counter => digest h (seed ++ int_to_bytes (Z.of_nat counter) 4))
          (seq 0 ((mask_len + hlen - 1) / hlen)))).

(** EME-OAEP encoding of [msg] for a modulus of [k] bytes. *)
Definition oaep_encode (mgf_hash h : HashAlgorithm) (label msg seed : bytes)
           (k : nat) : bytes :=
  let hlen := digest_size h in
  let lhash := digest h label in
  let ps := repeat x00 (k - length msg - 2 * hlen - 2) in
  let db := lhash ++ ps ++ [x01] ++ msg in
  let masked_db := xor_bytes db (mgf1 mgf_hash seed (k - hlen - 1)) in
  let masked_seed := xor_bytes seed (mgf1 mgf_hash masked_db hlen) in
  x00 :: masked_seed ++ masked_db.

Fixpoint skip_zeros (l : bytes) : bytes :=
  match l with
  | x00 :: rest => skip_zeros rest
  | _ => l
  end.

(** EME-OAEP decoding; [None] is the one decoding error. *)
Definition oaep_decode (mgf_hash h : HashAlgorithm) (label em : bytes)
           (k : nat) : option bytes :=
  let hlen := digest_size h in
  let lhash := digest h label in
  match em with
  | [] => None
  | y :: rest =>
      let masked_seed := firstn hlen rest in
      let masked_db := skipn hlen rest in
      let seed := xor_bytes masked_seed (mgf1 mgf_hash masked_db hlen) in
      let db := xor_bytes masked_db (mgf1 mgf_hash seed (k - hlen - 1)) in
      match skip_zeros (skipn hlen db) with
      | x01 :: msg =>
          if Byte.eqb y x00 && bytes_eqb (firstn hlen db) lhash
          then Some msg
          else None
      | _ => None
      end
  end.

(** [label=None] is the empty label. *)
Definition label_bytes (label : option bytes) : bytes :=
  match label with
  | None => []
  | Some l => l
  end.

(** [public_key.encrypt(plaintext, padding)]. *)
Definition encrypt (key : RSAPublicKey) (plaintext : bytes)
           (pad : AsymmetricPadding) : rand foreign_exc bytes :=
  match pad with
  | OAEP (MGF1 mgf_hash) h label =>
      let k := key_bytes key in
      if k <? length plaintext + 2 * digest_size h + 2
      then slift (Raise ValueError)
      else
        seed <~ os.urandom (digest_size h) ;;
        let em := oaep_encode mgf_hash h (label_bytes label) plaintext seed k in
        sret (int_to_bytes (public_op key (int_from_bytes em)) k)
  | PSS _ _ => slift (Raise UnsupportedAlgorithm)
  end.

(** [private_key.decrypt(ciphertext, padding)]. *)
Definition decrypt (key : RSAPrivateKey) (ciphertext : bytes)
           (pad : AsymmetricPadding) : result foreign_exc bytes :=
  match pad with
  | OAEP (MGF1 mgf_hash) h label =>
      let k := key_bytes (public_key key) in
      if negb (length ciphertext =? k) then Raise ValueError
      else if k <? 2 * digest_size h + 2 then Raise ValueError
      else
        let c := int_from_bytes ciphertext in
        if (n (public_key key) <=? c)%Z then Raise ValueError
        else
          match oaep_decode mgf_hash h (label_bytes label)
                  (int_to_bytes (private_op key c) k) k with
          | Some msg => Ok msg
          | None => Raise ValueError
          end
  | PSS _ _ => Raise UnsupportedAlgorithm
  end.

(** The byte that keeps all but the [z] leading bits, [0 <= z <= 7]. *)
Definition leading_mask (z : nat) : byte := byte_of_nat (255 / 2 ^ z).

Definition clear_leading_bits (z : nat) (l : bytes) : bytes :=
  match l with
  | [] => []
  | b :: rest => and_byte (leading_mask z) b :: rest
  end.

(** EMSA-PSS encoding of [msg] into [em_bits] bits. *)
Definition pss_encode (mgf_hash h : HashAlgorithm) (msg salt : bytes)
           (em_bits : nat) : bytes :=
  let hlen := digest_size h in
  let em_len := (em_bits + 7) / 8 in
  let mhash := digest h msg in
  let hh := digest h (repeat x00 8 ++ mhash ++ salt) in
  let ps := repeat x00 (em_len - length salt - hlen - 2) in
  let db := ps ++ [x01] ++ salt in
  let masked_db :=
    clear_leading_bits (8 * em_len - em_bits)
      (xor_bytes db (mgf1 mgf_hash hh (em_len - hlen - 1))) in
  masked_db ++ hh ++ [xbc].

(** EMSA-PSS verification of the encoded message [em] against [msg], for a
    salt of [slen] bytes. *)
Definition pss_verify (mgf_hash h : HashAlgorithm) (msg em : bytes)
           (em_bits slen : nat) : bool :=
  let hlen := digest_size h in
  let em_len := (em_bits + 7) / 8 in
  let mhash := digest h msg in
  let masked_db := firstn (em_len - hlen - 1) em in
  let hh := firstn hlen (skipn (em_len - hlen - 1) em) in
  let db :=
    clear_leading_bits (8 * em_len - em_bits)
      (xor_bytes masked_db (mgf1 mgf_hash hh (em_len - hlen - 1))) in
  let salt := skipn (em_len - hlen - slen - 1) db in
  (hlen + slen + 2 <=? em_len)
  && (length em =? em_len)
  && Byte.eqb (last em x00) xbc
  && bytes_eqb (clear_leading_bits (8 * em_len - em_bits) masked_db) masked_db
  && bytes_eqb (firstn (em_len - hlen - slen - 1) db)
       (repeat x00 (em_len - hlen - slen - 2) ++ [x01])
  && bytes_eqb hh (digest h (repeat x00 8 ++ mhash ++ salt)).

(** The salt length a [PSS] padding stands for under a key. *)
Definition pss_salt_length (key : RSAPublicKey) (h : HashAlgorithm)
           (s : SaltLength) : nat :=
  match s with
  | MAX_LENGTH => (key_size key - 1 + 7) / 8 - digest_size h - 2
  | Salt len => len
  end.

(** [private_key.sign(data, padding, algorithm)]. *)
Definition sign (key : RSAPrivateKey) (data : bytes) (pad : AsymmetricPadding)
           (algorithm : HashAlgorithm) : rand foreign_exc bytes :=
  match pad with
  | PSS (MGF1 mgf_hash) s =>
      let pub := public_key key in
      let em_bits := key_size pub - 1 in
      let slen := pss_salt_length pub algorithm s in
      if (em_bits + 7) / 8 <? digest_size algorithm + slen + 2
      then slift (Raise ValueError)
      else
        salt <~ os.urandom slen ;;
        let em := pss_encode mgf_hash algorithm data salt em_bits in
        sret (int_to_bytes (private_op key (int_from_bytes em)) (key_bytes pub))
  | OAEP _ _ _ => slift (Raise UnsupportedAlgorithm)
  end.

(** What [verify] checks of a PSS signature: its length, its range, and the
    encoded message it opens to. *)
Definition pss_accepts (key : RSAPublicKey) (signature data : bytes)
           (mgf_hash algorithm : HashAlgorithm) (s : SaltLength) : bool :=
  let em_bits := key_size key - 1 in
  let em_len := (em_bits + 7) / 8 in
  let slen := pss_salt_length key algorithm s in
  let sig := int_from_bytes signature in
  let m := public_op key sig in
  (length signature =? key_bytes key)
  && (sig <? n key)%Z
  && (m <? 256 ^ Z.of_nat em_len)%Z
  && pss_verify mgf_hash algorithm data (int_to_bytes m em_len) em_bits slen.

(** [public_key.verify(signature, data, padding, algorithm)]: returns
    nothing, or raises [InvalidSignature]. *)
Definition verify (key : RSAPublicKey) (signature data : bytes)
           (pad : AsymmetricPadding) (algorithm : HashAlgorithm)
  : result foreign_exc unit :=
  match pad with
  | PSS (MGF1 mgf_hash) s =>
      if pss_accepts key signature data mgf_hash algorithm s
      then Ok tt
      else Raise InvalidSignature
  | OAEP _ _ _ => Raise UnsupportedAlgorithm
  end.

End WithDigest.

End rsa.

(** ** cryptography.hazmat.primitives.serialization *)

Module serialization.

Module Encoding.
Inductive t := PEM | DER | OpenSSH.
End Encoding.

Module PrivateFormat.
Inductive t := PKCS8 | TraditionalOpenSSL.
End PrivateFormat.

Module PublicFormat.
Inductive t := SubjectPublicKeyInfo | PKCS1 | OpenSSH.
End PublicFormat.

Inductive KeySerializationEncryption :=
| NoEncryption
| BestAvailableEncryption (password : bytes).

(** [BestAvailableEncryption(password)] refuses an empty password. *)
Definition new_BestAvailableEncryption (password : bytes)
  : result foreign_exc KeySerializationEncryption :=
  match password with
  | [] => Raise ValueError
  | _ :: _ => Ok (BestAvailableEncryption password)
  end.

(** The password that opens what was written under [a]. *)
Definition password_of (a : KeySerializationEncryption) : option bytes :=
  match a with
  | NoEncryption => None
  | BestAvailableEncryption pw => Some pw
  end.

End serialization.

(** What the package takes from its backend for RSA: the hash functions,
    key generation, and the codecs of the key formats.  Serialization under
    a password draws a salt, so it is a [rand] computation. *)
Record RSABackend := {
  digest : hashes.HashAlgorithm -> bytes -> bytes;
  generate_private_key : Z -> Z -> rand foreign_exc rsa.RSAPrivateKey;
  private_bytes :
    rsa.RSAPrivateKey -> serialization.Encoding.t ->
    serialization.PrivateFormat.t ->
    serialization.KeySerializationEncryption -> rand foreign_exc bytes;
  public_bytes :
    rsa.RSAPublicKey -> serialization.Encoding.t ->
    serialization.PublicFormat.t -> result foreign_exc bytes;
  load_pem_private_key :
    bytes -> option bytes -> result foreign_exc rsa.RSAPrivateKey;
  load_pem_public_key : bytes -> result foreign_exc rsa.RSAPublicKey;
  load_ssh_public_key : bytes -> result foreign_exc rsa.RSAPublicKey
}.

(** ** class RSAPublic *)

Module RSAPublic.
Import hashes asy_padding serialization.

Record t := { key : rsa.RSAPublicKey }.

Section WithBackend.

(** The module-level [backend = default_backend()]. *)
Variable backend : RSABackend.

(** [RSAPublic.encrypt]. *)
Definition encrypt (self : t) (msg : bytes) : rand exc bytes :=
  spropagate
    (rsa.encrypt (digest backend) (key self) msg
       (OAEP (MGF1 SHA256) SHA256 None)).

(** [RSAPublic.verify]: only [InvalidSignature] is caught. *)
Definition verify (self : t) (signature msg : bytes) : result exc bool :=
  match rsa.verify (digest backend) (key self) signature msg
          (PSS (MGF1 SHA256) MAX_LENGTH) SHA256 with
  | Ok _ => Ok true
  | Raise e =>
      if issubclass (Foreign e) (Foreign InvalidSignature)
      then Ok false
      else Raise (Foreign e)
  end.

(** [RSAPublic.format_pem]. *)
Definition format_pem (self : t) : result exc bytes :=
  propagate
    (public_bytes backend (key self) Encoding.PEM
       PublicFormat.SubjectPublicKeyInfo).

(** [RSAPublic.format_ssh]. *)
Definition format_ssh (self : t) : result exc bytes :=
  propagate
    (public_bytes backend (key self) Encoding.OpenSSH PublicFormat.OpenSSH).

(** [RSAPublic.load_pem]. *)
Definition load_pem (msg : bytes) : result exc t :=
  k <- propagate (load_pem_public_key backend msg) ;;
  Ok {| key := k |}.

(** [RSAPublic.load_ssh]. *)
Definition load_ssh (msg : bytes) : result exc t :=
  k <- propagate (load_ssh_public_key backend msg) ;;
  Ok {| key := k |}.

End WithBackend.

End RSAPublic.

(** ** class RSAPrivate *)

Module RSAPrivate.
Import hashes asy_padding serialization.

Record t := { key : rsa.RSAPrivateKey }.

Section WithBackend.

Variable backend : RSABackend.

(** [RSAPrivate.decrypt]. *)
Definition decrypt (self : t) (msg : bytes) : result exc bytes :=
  propagate
    (rsa.decrypt (digest backend) (key self) msg
       (OAEP (MGF1 SHA256) SHA256 None)).

(** [RSAPrivate.sign]. *)
Definition sign (self : t) (msg : bytes) : rand exc bytes :=
  spropagate
    (rsa.sign (digest backend) (key self) msg
       (PSS (MGF1 SHA256) MAX_LENGTH) SHA256).

(** [RSAPrivate.format_pem]. *)
Definition format_pem (self : t) (password : option bytes) : rand exc bytes :=
  algorithm <~ slift (propagate
                        match password with
                        | None => Ok NoEncryption
                        | Some pw => new_BestAvailableEncryption pw
                        end) ;;
  spropagate
    (private_bytes backend (key self) Encoding.PEM PrivateFormat.PKCS8
       algorithm).

(** [RSAPrivate.generate_key]. *)
Definition generate_key (password : option bytes) : rand exc (bytes * bytes) :=
  k <~ spropagate (generate_private_key backend 65537 2048) ;;
  let private_key := {| key := k |} in
  let public_key := {| RSAPublic.key := rsa.public_key k |} in
  private_pem <~ format_pem private_key password ;;
  public_pem <~ slift (RSAPublic.format_pem backend public_key) ;;
  sret (private_pem, public_pem).

(** [RSAPrivate.load_pem]. *)
Definition load_pem (msg : bytes) (password : option bytes) : result exc t :=
  k <- propagate (load_pem_private_key backend msg password) ;;
  Ok {| key := k |}.

End WithBackend.

End RSAPrivate.

(** ** A small executable RSA backend

    A hash that repeats the sum of the data bytes, and a codec that writes
    the three numbers of a key in 256 bytes each, behind a tag byte and,
    under a password, a salt byte, with the password at the end.  With them
    come sample inputs. *)
Module Toy.
Import hashes asy_padding serialization.

Definition key16 : bytes := map byte_of_nat (seq 1 16).
Definition iv16 : bytes := map byte_of_nat (seq 101 16).
Definition counter : entropy := fun i => byte_of_nat (i mod 256).

Definition toy_digest (h : HashAlgorithm) (data : bytes) : bytes :=
  repeat (fold_right xor_byte x00 data) (digest_size h).

Definition numbers (k : rsa.RSAPrivateKey) : bytes :=
  int_to_bytes (rsa.n (rsa.public_key k)) 256
  ++ int_to_bytes (rsa.e (rsa.public_key k)) 256
  ++ int_to_bytes (rsa.d k) 256.

Definition parse_public (body : bytes) : rsa.RSAPublicKey :=
  {| rsa.e := int_from_bytes (firstn 256 (skipn 256 body));
     rsa.n := int_from_bytes (firstn 256 body) |}.

Definition parse (body : bytes) : rsa.RSAPrivateKey :=
  {| rsa.d := int_from_bytes (firstn 256 (skipn 512 body));
     rsa.public_key := parse_public body |}.

Definition toy_private_bytes (k : rsa.RSAPrivateKey) (e : Encoding.t)
           (f : PrivateFormat.t) (a : KeySerializationEncryption)
  : rand foreign_exc bytes :=
  match a with
  | NoEncryption => sret (x00 :: numbers k)
  | BestAvailableEncryption pw =>
      salt <~ os.urandom 1 ;;
      sret (x01 :: salt ++ numbers k ++ pw)
  end.

Definition toy_load_private (data : bytes) (password : option bytes)
  : result foreign_exc rsa.RSAPrivateKey :=
  match data, password with
  | x00 :: body, None =>
      if length body =? 768 then Ok (parse body) else Raise ValueError
  | x00 :: _, Some _ => Raise TypeError
  | x01 :: rest, Some pw =>
      if (769 <=? length rest) && bytes_eqb (skipn 769 rest) pw
      then Ok (parse (firstn 768 (skipn 1 rest)))
      else Raise ValueError
  | x01 :: _, None => Raise TypeError
  | _, _ => Raise ValueError
  end.

Definition toy_load_public (data : bytes) : result foreign_exc rsa.RSAPublicKey :=
  if length data =? 512 then Ok (parse_public data) else Raise ValueError.

Definition rsa_backend : RSABackend :=
  {| digest := toy_digest;
     generate_private_key := fun _ _ => slift (Raise UnsupportedAlgorithm);
     private_bytes := toy_private_bytes;
     public_bytes :=
       fun k _ _ => Ok (int_to_bytes (rsa.n k) 256 ++ int_to_bytes (rsa.e k) 256);
     load_pem_private_key := toy_load_private;
     load_pem_public_key := toy_load_public;
     load_ssh_public_key := toy_load_public |}.

(** A key whose exponents are both 1, under a 2048-bit modulus. *)
Definition key2048 : rsa.RSAPrivateKey :=
  {| rsa.d := 1;
     rsa.public_key := {| rsa.e := 1; rsa.n := 2 ^ 2047 + 1 |} |}.

End Toy.

(** The toy backend with a key generator: it spends 256 bytes of the random
    source and returns the sample key, whatever exponent and size are asked
    for. *)
Definition generating_backend : RSABackend :=
  {| digest := Toy.toy_digest;
     generate_private_key :=
       fun _ _ => _ <~ os.urandom 256 ;; sret Toy.key2048;
     private_bytes := Toy.toy_private_bytes;
     public_bytes := public_bytes Toy.rsa_backend;
     load_pem_private_key := Toy.toy_load_private;
     load_pem_public_key := Toy.toy_load_public;
     load_ssh_public_key := Toy.toy_load_public |}.

(** ** Reference definitions

    What the theorems below compare the code with. *)

(** The padded message of the standard: between 1 and 16 bytes are added,
    each holding their number. *)
Definition pkcs7_pad (msg : bytes) : bytes :=
  let n := 16 - length msg mod 16 in
  msg ++ repeat (byte_of_nat n) n.

(** What a fresh context returns for a whole number of blocks. *)
Definition cbc_encrypt (c : ciphers.Cipher) (data : bytes) : bytes :=
  snd (ciphers.cbc_blocks c true (length data / 16)
         (ciphers.initialization_vector (ciphers.mode c)) data).

Definition cbc_decrypt (c : ciphers.Cipher) (data : bytes) : bytes :=
  snd (ciphers.cbc_blocks c false (length data / 16)
         (ciphers.initialization_vector (ciphers.mode c)) data).

(** The instance [AES(key, iv)] holds when the constructor returns. *)
Definition instance (backend : CipherBackend) (key iv : bytes) : AES.t :=
  {| AES.cipher :=
       {| ciphers.algorithm := {| ciphers.key := key |};
          ciphers.mode := {| ciphers.initialization_vector := iv |};
          ciphers.backend := backend |};
     AES.padding := {| padding.block_size := 128 |} |}.

(** The test the unpadder applies to a decrypted buffer: its held-back last
    block is complete and passes the padding check. *)
Definition well_padded (plaintext : bytes) : bool :=
  let last_block := skipn ((length plaintext / 16 - 1) * 16) plaintext in
  (length last_block =? 16) && padding.check_pkcs7_padding last_block 16.

(** A well-formed key pair: the two exponents undo each other modulo [n]. *)
Definition key_pair (key : rsa.RSAPrivateKey) : Prop :=
  let pub := rsa.public_key key in
  (1 < rsa.n pub)%Z /\ (0 <= rsa.e pub)%Z /\ (0 <= rsa.d key)%Z
  /\ forall m, (0 <= m < rsa.n pub)%Z ->
               (m ^ (rsa.e pub * rsa.d key) mod rsa.n pub = m)%Z.

(** The two halves of a key pair, as [generate_key] wraps them. *)
Definition private_of (k : rsa.RSAPrivateKey) : RSAPrivate.t :=
  {| RSAPrivate.key := k |}.

Definition public_of (k : rsa.RSAPrivateKey) : RSAPublic.t :=
  {| RSAPublic.key := rsa.public_key k |}.

(** The numbers of a key fit the toy codec. *)
Definition fits (k : rsa.RSAPrivateKey) : Prop :=
  (0 <= rsa.n (rsa.public_key k) < 256 ^ 256)%Z
  /\ (0 <= rsa.e (rsa.public_key k) < 256 ^ 256)%Z
  /\ (0 <= rsa.d k < 256 ^ 256)%Z.

(** * Properties *)

Unset Implicit Arguments.

Ltac Zify.zify_post_hook ::= Z.to_euclidean_division_equations.

(** ** Bytes *)

Lemma to_nat_byte_of_nat (n : nat) : n <= 255 -> Byte.to_nat (byte_of_nat n) = n.
Proof.
  intros Hn. unfold byte_of_nat.
  destruct (Byte.of_nat n) as [b|] eqn:E.
  - now apply Byte.to_of_nat.
  - apply Byte.of_nat_None_iff in E. lia.
Qed.

Lemma xor_byte_cancel (a b : byte) : xor_byte (xor_byte a b) b = a.
Proof.
  unfold xor_byte.
  rewrite <- (Byte.of_bits_to_bits a) at 2.
  destruct (Byte.to_bits a) as (a0 & a1 & a2 & a3 & a4 & a5 & a6 & a7).
  destruct (Byte.to_bits b) as (b0 & b1 & b2 & b3 & b4 & b5 & b6 & b7).
  rewrite Byte.to_bits_of_bits.
  now rewrite !xorb_assoc, !xorb_nilpotent, !xorb_false_r.
Qed.

Lemma xor_bytes_length (a b : bytes) :
  length (xor_bytes a b) = Nat.min (length a) (length b).
Proof. unfold xor_bytes. now rewrite length_map, length_combine. Qed.

Lemma xor_bytes_cancel (a b : bytes) :
  length a <= length b -> xor_bytes (xor_bytes a b) b = a.
Proof.
  unfold xor_bytes. revert b.
  induction a as [|x a IH]; intros [|y b] Hl; simpl in *; try reflexivity; try lia.
  rewrite xor_byte_cancel, IH by lia. reflexivity.
Qed.

Lemma bytes_eqb_refl (a : bytes) : bytes_eqb a a = true.
Proof. unfold bytes_eqb. destruct (list_eq_dec _ a a); congruence. Qed.

Lemma bytes_eqb_neq (a b : bytes) : a <> b -> bytes_eqb a b = false.
Proof. unfold bytes_eqb. destruct (list_eq_dec _ a b); congruence. Qed.

Ltac byte_bits a :=
  rewrite <- (Byte.of_bits_to_bits a);
  let a0 := fresh a "0" in let a1 := fresh a "1" in
  let a2 := fresh a "2" in let a3 := fresh a "3" in
  let a4 := fresh a "4" in let a5 := fresh a "5" in
  let a6 := fresh a "6" in let a7 := fresh a "7" in
  destruct (Byte.to_bits a) as (a0 & a1 & a2 & a3 & a4 & a5 & a6 & a7).

Lemma in_all_bytes (b : byte) : In b all_bytes.
Proof.
  unfold all_bytes. apply in_map_iff. exists (Byte.to_nat b). split.
  - unfold byte_of_nat. now rewrite Byte.of_to_nat.
  - apply in_seq. pose proof (Byte.to_nat_bounded b). lia.
Qed.

Lemma for_all_bytes (p : byte -> bool) :
  forallb p all_bytes = true -> forall b, p b = true.
Proof. intros H b. eapply forallb_forall in H; [exact H | apply in_all_bytes]. Qed.

Lemma forallb_repeat {A} (f : A -> bool) (x : A) (n : nat) :
  f x = true -> forallb f (repeat x n) = true.
Proof. intros Hx. induction n; simpl; [reflexivity | now rewrite Hx]. Qed.

Lemma last_app_repeat {A} (l : list A) (x d : A) (n : nat) :
  0 < n -> last (l ++ repeat x n) d = x.
Proof.
  intros Hn. destruct n as [|n]; [lia|].
  replace (repeat x (S n)) with (repeat x n ++ [x]).
  - now rewrite app_assoc, last_last.
  - change [x] with (repeat x 1). rewrite <- repeat_app. f_equal. lia.
Qed.

(** ** PKCS7 padding *)

Lemma pkcs7_pad_length (msg : bytes) :
  length (pkcs7_pad msg) = length msg + (16 - length msg mod 16).
Proof. unfold pkcs7_pad. now rewrite length_app, repeat_length. Qed.

Lemma pkcs7_pad_blocks (msg : bytes) :
  length (pkcs7_pad msg) = (length msg / 16 + 1) * 16.
Proof. rewrite pkcs7_pad_length. lia. Qed.

Section Padder.

Variable p : padding.PKCS7.
Hypothesis p_bits : padding.block_size p = 128.

Lemma padder_run (msg : bytes) :
  let (c, head) := padding.padder_update (padding.padder p) msg in
  head ++ padding.padder_finalize c = pkcs7_pad msg.
Proof.
  unfold padding.padder_update, padding.padder_finalize, padding.padder.
  cbn [padding.buffer padding.ctx_block_size app]. rewrite p_bits.
  change (128 / 8) with 16.
  set (k := length msg / 16 * 16).
  rewrite app_assoc, firstn_skipn, length_skipn.
  unfold pkcs7_pad.
  replace (16 - (length msg - k)) with (16 - length msg mod 16) by (subst k; lia).
  reflexivity.
Qed.

Lemma unpadder_run (msg : bytes) :
  let (c, head) := padding.unpadder_update (padding.unpadder p) (pkcs7_pad msg) in
  exists rest,
    padding.unpadder_finalize c = Ok rest /\ head ++ rest = msg.
Proof.
  unfold padding.unpadder_update, padding.unpadder_finalize, padding.unpadder.
  cbn [padding.buffer padding.ctx_block_size app]. rewrite p_bits.
  change (128 / 8) with 16.
  rewrite Nat.max_0_r, pkcs7_pad_blocks.
  replace ((length msg / 16 + 1) * 16 / 16 - 1) with (length msg / 16)
    by (rewrite Nat.div_mul; lia).
  set (k := length msg / 16 * 16).
  set (n := 16 - length msg mod 16).
  assert (Hk : k <= length msg) by (subst k; lia).
  assert (Hn : 1 <= n <= 16) by (subst n; lia).
  assert (Hkn : length msg - k = 16 - n) by (subst k n; lia).
  assert (Hbuf : skipn k (pkcs7_pad msg)
                 = skipn k msg ++ repeat (byte_of_nat n) n).
  { unfold pkcs7_pad. fold n. rewrite skipn_app.
    replace (k - length msg) with 0 by lia. reflexivity. }
  assert (Hhead : firstn k (pkcs7_pad msg) = firstn k msg).
  { unfold pkcs7_pad. fold n. rewrite firstn_app.
    replace (k - length msg) with 0 by lia. simpl. apply app_nil_r. }
  assert (Hlen : length (skipn k msg) = 16 - n) by (rewrite length_skipn; lia).
  rewrite Hbuf, Hhead.
  assert (Hlast : last (skipn k msg ++ repeat (byte_of_nat n) n) x00
                  = byte_of_nat n) by (apply last_app_repeat; lia).
  assert (Hto : Byte.to_nat (byte_of_nat n) = n)
    by (apply to_nat_byte_of_nat; lia).
  rewrite length_app, repeat_length, Hlen.
  replace (16 - n + n =? 16) with true by (symmetry; apply Nat.eqb_eq; lia).
  unfold padding.check_pkcs7_padding. rewrite Hlast, Hto.
  replace (0 <? n) with true by (symmetry; apply Nat.ltb_lt; lia).
  replace (n <=? 16) with true by (symmetry; apply Nat.leb_le; lia).
  rewrite skipn_app, Hlen, Nat.sub_diag, skipn_all2 by lia.
  cbn [skipn app andb negb].
  rewrite forallb_repeat by (apply Byte.byte_dec_lb; reflexivity).
  cbn [negb].
  eexists. split; [reflexivity|].
  replace (16 - n + n - n) with (length (skipn k msg)) by lia.
  rewrite firstn_app, Nat.sub_diag, firstn_all. cbn [firstn].
  rewrite app_nil_r. apply firstn_skipn.
Qed.

End Padder.

(** ** CBC contexts *)

Lemma update_whole_blocks (c : ciphers.Cipher) (enc : bool) (data : bytes) :
  length data mod 16 = 0 ->
  let x := {| ciphers.ctx_cipher := c; ciphers.encrypting := enc;
              ciphers.chain := ciphers.initialization_vector (ciphers.mode c);
              ciphers.pending := [] |} in
  ciphers.pending (fst (ciphers.update x data)) = []
  /\ snd (ciphers.update x data)
     = snd (ciphers.cbc_blocks c enc (length data / 16)
              (ciphers.initialization_vector (ciphers.mode c)) data).
Proof.
  intros Hm x. unfold ciphers.update. subst x.
  cbn [ciphers.pending ciphers.ctx_cipher ciphers.encrypting ciphers.chain app].
  assert (Hl : length data / 16 * 16 = length data) by lia.
  rewrite Hl, firstn_all, skipn_all.
  destruct (ciphers.cbc_blocks c enc (length data / 16) _ data) as [f out].
  split; reflexivity.
Qed.

Lemma update_partial_block (c : ciphers.Cipher) (enc : bool) (data : bytes) :
  length data mod 16 <> 0 ->
  let x := {| ciphers.ctx_cipher := c; ciphers.encrypting := enc;
              ciphers.chain := ciphers.initialization_vector (ciphers.mode c);
              ciphers.pending := [] |} in
  ciphers.finalize (fst (ciphers.update x data)) = Raise ValueError.
Proof.
  intros Hm x. unfold ciphers.update. subst x.
  cbn [ciphers.pending ciphers.ctx_cipher ciphers.encrypting ciphers.chain app].
  destruct (ciphers.cbc_blocks c enc (length data / 16) _ _) as [f out].
  unfold ciphers.finalize. cbn [fst ciphers.pending].
  destruct (skipn (length data / 16 * 16) data) as [|b rest] eqn:E.
  - apply (f_equal (@length byte)) in E. rewrite length_skipn in E.
    cbn [length] in E. lia.
  - reflexivity.
Qed.

Section CBC.

Variable c : ciphers.Cipher.

Let E := aes_encrypt_block (ciphers.backend c) (ciphers.key (ciphers.algorithm c)).
Let D := aes_decrypt_block (ciphers.backend c) (ciphers.key (ciphers.algorithm c)).

Hypothesis E_length : forall blk, length blk = 16 -> length (E blk) = 16.

Lemma cbc_blocks_encrypt_length (n : nat) :
  forall prev data,
    length prev = 16 -> length data = n * 16 ->
    length (fst (ciphers.cbc_blocks c true n prev data)) = 16
    /\ length (snd (ciphers.cbc_blocks c true n prev data)) = n * 16.
Proof.
  induction n as [|n IH]; intros prev data Hp Hd.
  - simpl. auto.
  - cbn [ciphers.cbc_blocks ciphers.cbc_block]. fold E.
    set (out := E (xor_bytes (firstn 16 data) prev)).
    assert (Ho : length out = 16).
    { apply E_length. rewrite xor_bytes_length, length_firstn. lia. }
    destruct (IH out (skipn 16 data) Ho) as [Hf Hs].
    { rewrite length_skipn. lia. }
    destruct (ciphers.cbc_blocks c true n out (skipn 16 data)) as [f outs].
    cbn [fst snd] in *. split; [assumption|].
    rewrite length_app. lia.
Qed.

Hypothesis D_E : forall blk, length blk = 16 -> D (E blk) = blk.

Lemma cbc_blocks_decrypt_encrypt (n : nat) :
  forall prev data,
    length prev = 16 -> length data = n * 16 ->
    snd (ciphers.cbc_blocks c false n prev
           (snd (ciphers.cbc_blocks c true n prev data))) = data.
Proof.
  induction n as [|n IH]; intros prev data Hp Hd.
  - simpl. destruct data; [reflexivity | discriminate].
  - cbn [ciphers.cbc_blocks ciphers.cbc_block]. fold E.
    set (blk := firstn 16 data).
    set (out := E (xor_bytes blk prev)).
    assert (Hb : length blk = 16) by (subst blk; rewrite length_firstn; lia).
    assert (Hx : length (xor_bytes blk prev) = 16)
      by (rewrite xor_bytes_length; lia).
    assert (Ho : length out = 16) by (apply E_length, Hx).
    assert (Hr : length (skipn 16 data) = n * 16)
      by (rewrite length_skipn; lia).
    specialize (IH out (skipn 16 data) Ho Hr).
    destruct (ciphers.cbc_blocks c true n out (skipn 16 data)) as [f outs].
    cbn [fst snd] in *.
    cbn [ciphers.cbc_blocks ciphers.cbc_block]. fold D.
    rewrite firstn_app, skipn_app, Ho, Nat.sub_diag.
    rewrite firstn_all2, skipn_all2 by lia.
    cbn [firstn skipn app]. rewrite app_nil_r.
    destruct (ciphers.cbc_blocks c false n out outs) as [f' ins].
    cbn [fst snd] in *. subst ins.
    subst out. rewrite D_E by assumption.
    rewrite xor_bytes_cancel by lia.
    apply firstn_skipn.
Qed.

Hypothesis iv_length :
  length (ciphers.initialization_vector (ciphers.mode c)) = 16.

Lemma cbc_encrypt_length (data : bytes) :
  length data mod 16 = 0 -> length (cbc_encrypt c data) = length data.
Proof.
  intros Hm. unfold cbc_encrypt.
  destruct (cbc_blocks_encrypt_length (length data / 16)
              (ciphers.initialization_vector (ciphers.mode c)) data)
    as [_ H]; lia.
Qed.

Lemma cbc_decrypt_encrypt (data : bytes) :
  length data mod 16 = 0 -> cbc_decrypt c (cbc_encrypt c data) = data.
Proof.
  intros Hm. unfold cbc_decrypt.
  rewrite cbc_encrypt_length by assumption.
  apply cbc_blocks_decrypt_encrypt; [assumption | lia].
Qed.

End CBC.

(** ** class AES *)

Section AESProperties.

Variable backend : CipherBackend.

Lemma init_accepts (key iv : bytes) :
  In (length key) AES.KEY_SIZES -> length iv = AES.BLOCK_SIZE ->
  AES.init backend key iv = Ok (instance backend key iv).
Proof.
  intros Hk Hiv. unfold AES.init, ciphers.new_AES, ciphers.new_Cipher,
    ciphers.new_CBC. cbn [ciphers.initialization_vector].
  rewrite Hiv.
  unfold AES.KEY_SIZES in Hk. cbn [In] in Hk.
  destruct Hk as [Hk|[Hk|[Hk|[]]]]; rewrite <- Hk; reflexivity.
Qed.

Lemma init_rejects (key iv : bytes) :
  ~ (In (length key) AES.KEY_SIZES /\ length iv = AES.BLOCK_SIZE) ->
  AES.init backend key iv = Raise SizeException.
Proof.
  intros Hno. unfold AES.init.
  destruct (existsb (Nat.eqb (length key)) AES.KEY_SIZES) eqn:Hk;
    [|reflexivity].
  destruct (length iv =? AES.BLOCK_SIZE) eqn:Hiv; [|reflexivity].
  exfalso. apply Hno. split.
  - apply existsb_exists in Hk. destruct Hk as (n & Hin & Hn).
    apply Nat.eqb_eq in Hn. now subst n.
  - now apply Nat.eqb_eq.
Qed.

Lemma sizes_dec (key iv : bytes) :
  {In (length key) AES.KEY_SIZES /\ length iv = AES.BLOCK_SIZE}
  + {~ (In (length key) AES.KEY_SIZES /\ length iv = AES.BLOCK_SIZE)}.
Proof.
  destruct (in_dec Nat.eq_dec (length key) AES.KEY_SIZES) as [Hk|Hk];
    [|right; tauto].
  destruct (Nat.eq_dec (length iv) AES.BLOCK_SIZE) as [Hiv|Hiv];
    [left|right]; tauto.
Qed.

Lemma init_inv (key iv : bytes) (self : AES.t) :
  AES.init backend key iv = Ok self ->
  In (length key) AES.KEY_SIZES /\ length iv = 16 /\ self = instance backend key iv.
Proof.
  intros H. destruct (sizes_dec key iv) as [[Hk Hiv]|Hno].
  - rewrite (init_accepts key iv Hk Hiv) in H. injection H as <-. auto.
  - rewrite (@init_rejects key iv Hno) in H. discriminate.
Qed.

(** [encrypt] pads, then runs CBC from the IV; it cannot fail. *)
Lemma encrypt_instance (key iv msg : bytes) :
  AES.encrypt (instance backend key iv) msg
  = Ok (cbc_encrypt (AES.cipher (instance backend key iv)) (pkcs7_pad msg)).
Proof.
  unfold AES.encrypt.
  pose proof (@padder_run (AES.padding (instance backend key iv)) eq_refl msg) as Hp.
  destruct (padding.padder_update _ msg) as [pc head]. rewrite Hp.
  assert (Hm : length (pkcs7_pad msg) mod 16 = 0)
    by (rewrite pkcs7_pad_blocks; apply Nat.Div0.mod_mul).
  destruct (update_whole_blocks (AES.cipher (instance backend key iv)) true _ Hm)
    as [Hpend Hout].
  unfold ciphers.encryptor.
  destruct (ciphers.update _ (pkcs7_pad msg)) as [x out].
  cbn [fst snd] in Hpend, Hout.
  unfold ciphers.finalize. rewrite Hpend. cbn [propagate bind].
  rewrite app_nil_r, Hout. reflexivity.
Qed.

(** [decrypt] on a whole number of blocks: CBC from the IV, then the
    unpadder. *)
Lemma decrypt_instance (key iv ct : bytes) :
  length ct mod 16 = 0 ->
  AES.decrypt (instance backend key iv) ct
  = let (u, head) :=
      padding.unpadder_update (padding.unpadder (AES.padding (instance backend key iv)))
        (cbc_decrypt (AES.cipher (instance backend key iv)) ct) in
    rest <- propagate (padding.unpadder_finalize u) ;;
    Ok (head ++ rest).
Proof.
  intros Hm. unfold AES.decrypt.
  destruct (update_whole_blocks (AES.cipher (instance backend key iv)) false _ Hm)
    as [Hpend Hout].
  unfold ciphers.decryptor.
  destruct (ciphers.update _ ct) as [x out].
  cbn [fst snd] in Hpend, Hout.
  unfold ciphers.finalize. rewrite Hpend. cbn [propagate bind].
  rewrite app_nil_r, Hout. reflexivity.
Qed.

Lemma decrypt_partial_block (key iv ct : bytes) :
  length ct mod 16 <> 0 ->
  AES.decrypt (instance backend key iv) ct = Raise (Foreign ValueError).
Proof.
  intros Hm. unfold AES.decrypt.
  pose proof (update_partial_block (AES.cipher (instance backend key iv)) false _ Hm)
    as Hf.
  cbv zeta in Hf. unfold ciphers.decryptor.
  destruct (ciphers.update _ ct) as [x out].
  cbn [fst] in Hf. rewrite Hf. reflexivity.
Qed.

(** Whatever [decrypt] raises is the package's [ValueError]. *)
Lemma decrypt_raises (self : AES.t) (ct : bytes) (e : exc) :
  AES.decrypt self ct = Raise e -> e = Foreign ValueError.
Proof.
  unfold AES.decrypt.
  destruct (ciphers.update _ ct) as [x out].
  unfold ciphers.finalize. destruct (ciphers.pending x).
  - cbn [propagate bind].
    destruct (padding.unpadder_update _ _) as [u head].
    unfold padding.unpadder_finalize.
    destruct (negb _); [cbn; congruence|].
    destruct (negb _); cbn; congruence.
  - cbn. congruence.
Qed.

End AESProperties.

(** ** The AES block cipher *)

Lemma inv_sbox_sbox (a : byte) : FIPS197.inv_sbox (FIPS197.sbox a) = a.
Proof.
  apply Byte.byte_dec_bl.
  apply (for_all_bytes (fun a => Byte.eqb (FIPS197.inv_sbox (FIPS197.sbox a)) a)).
  vm_compute. reflexivity.
Qed.

Lemma inv_sub_bytes_sub_bytes (s : bytes) :
  FIPS197.inv_sub_bytes (FIPS197.sub_bytes s) = s.
Proof.
  unfold FIPS197.inv_sub_bytes, FIPS197.sub_bytes.
  rewrite map_map. rewrite <- (map_id s) at 2.
  apply map_ext. exact inv_sbox_sbox.
Qed.

(** A list of 16 elements, spelled out. *)
Lemma length_16 {A} (s : list A) :
  length s = 16 ->
  exists a0 a1 a2 a3 a4 a5 a6 a7 a8 a9 a10 a11 a12 a13 a14 a15,
    s = [a0; a1; a2; a3; a4; a5; a6; a7; a8; a9; a10; a11; a12; a13; a14; a15].
Proof.
  intros H.
  do 16 (destruct s as [|? s]; [discriminate|]).
  destruct s; [|discriminate].
  repeat eexists.
Qed.

Lemma inv_shift_rows_shift_rows (s : bytes) :
  length s = 16 -> FIPS197.inv_shift_rows (FIPS197.shift_rows s) = s.
Proof.
  intros H. apply length_16 in H.
  destruct H as (a0 & a1 & a2 & a3 & a4 & a5 & a6 & a7 & a8 & a9 & a10 & a11
                 & a12 & a13 & a14 & a15 & ->).
  reflexivity.
Qed.

Lemma inv_mix_column_mix_column (a b c d : byte) :
  match FIPS197.mix_column a b c d with
  | [a'; b'; c'; d'] => FIPS197.inv_mix_column a' b' c' d'
  | _ => []
  end = [a; b; c; d].
Proof.
  byte_bits a. byte_bits b. byte_bits c. byte_bits d.
  unfold FIPS197.mix_column, FIPS197.inv_mix_column, FIPS197.xtime, xor_byte.
  cbv beta iota zeta.
  repeat rewrite !Byte.to_bits_of_bits; cbv beta iota zeta.
  repeat (f_equal; try btauto).
Qed.

Lemma mix_columns_length (s : bytes) :
  length s = 16 -> length (FIPS197.mix_columns s) = 16.
Proof.
  intros H. apply length_16 in H.
  destruct H as (a0 & a1 & a2 & a3 & a4 & a5 & a6 & a7 & a8 & a9 & a10 & a11
                 & a12 & a13 & a14 & a15 & ->).
  reflexivity.
Qed.

Lemma inv_mix_columns_mix_columns (s : bytes) :
  length s = 16 -> FIPS197.inv_mix_columns (FIPS197.mix_columns s) = s.
Proof.
  intros H. apply length_16 in H.
  destruct H as (a0 & a1 & a2 & a3 & a4 & a5 & a6 & a7 & a8 & a9 & a10 & a11
                 & a12 & a13 & a14 & a15 & ->).
  pose proof (inv_mix_column_mix_column a0 a1 a2 a3) as H0.
  pose proof (inv_mix_column_mix_column a4 a5 a6 a7) as H1.
  pose proof (inv_mix_column_mix_column a8 a9 a10 a11) as H2.
  pose proof (inv_mix_column_mix_column a12 a13 a14 a15) as H3.
  cbn [FIPS197.mix_columns].
  unfold FIPS197.mix_column in *.
  cbn [app FIPS197.inv_mix_columns].
  rewrite H0, H1, H2, H3. reflexivity.
Qed.

Lemma round_key_length (w : list FIPS197.word) (r : nat) :
  length (FIPS197.round_key w r) = 16.
Proof.
  unfold FIPS197.round_key, FIPS197.word_bytes.
  destruct (nth (4 * r) w _) as [[[? ?] ?] ?].
  destruct (nth (4 * r + 1) w _) as [[[? ?] ?] ?].
  destruct (nth (4 * r + 2) w _) as [[[? ?] ?] ?].
  destruct (nth (4 * r + 3) w _) as [[[? ?] ?] ?].
  reflexivity.
Qed.

Lemma round_keys_length (key : bytes) :
  Forall (fun k => length k = 16) (FIPS197.round_keys key).
Proof.
  unfold FIPS197.round_keys. apply Forall_map, Forall_forall.
  intros r _. apply round_key_length.
Qed.

Lemma round_keys_cons (key : bytes) :
  exists k0 ks, FIPS197.round_keys key = k0 :: ks.
Proof.
  unfold FIPS197.round_keys.
  rewrite Nat.add_1_r. cbn [seq map]. eauto.
Qed.

Section Rounds.

Variables k s : bytes.
Hypothesis k_length : length k = 16.
Hypothesis s_length : length s = 16.

Lemma add_round_key_length : length (FIPS197.add_round_key k s) = 16.
Proof. unfold FIPS197.add_round_key. rewrite xor_bytes_length. lia. Qed.

Lemma add_round_key_twice :
  FIPS197.add_round_key k (FIPS197.add_round_key k s) = s.
Proof. unfold FIPS197.add_round_key. apply xor_bytes_cancel. lia. Qed.

Lemma sub_bytes_length : length (FIPS197.sub_bytes s) = 16.
Proof. unfold FIPS197.sub_bytes. now rewrite length_map. Qed.

Lemma shift_rows_length : length (FIPS197.shift_rows s) = 16.
Proof. reflexivity. Qed.

End Rounds.

Lemma round_length (k s : bytes) :
  length k = 16 -> length s = 16 -> length (FIPS197.round k s) = 16.
Proof.
  intros Hk Hs. unfold FIPS197.round.
  apply add_round_key_length; [exact Hk|].
  apply mix_columns_length, shift_rows_length.
Qed.

Lemma final_round_length (k s : bytes) :
  length k = 16 -> length s = 16 -> length (FIPS197.final_round k s) = 16.
Proof.
  intros Hk Hs. unfold FIPS197.final_round.
  apply add_round_key_length; [exact Hk | apply shift_rows_length].
Qed.

Lemma inv_round_round (k s : bytes) :
  length k = 16 -> length s = 16 ->
  FIPS197.inv_round k (FIPS197.round k s) = s.
Proof.
  intros Hk Hs. unfold FIPS197.inv_round, FIPS197.round.
  rewrite add_round_key_twice
    by (try apply mix_columns_length; try apply shift_rows_length; assumption).
  rewrite inv_mix_columns_mix_columns by apply shift_rows_length.
  rewrite inv_shift_rows_shift_rows by (apply sub_bytes_length; assumption).
  apply inv_sub_bytes_sub_bytes.
Qed.

Lemma inv_final_round_final_round (k s : bytes) :
  length k = 16 -> length s = 16 ->
  FIPS197.inv_final_round k (FIPS197.final_round k s) = s.
Proof.
  intros Hk Hs. unfold FIPS197.inv_final_round, FIPS197.final_round.
  rewrite add_round_key_twice by (try apply shift_rows_length; assumption).
  rewrite inv_shift_rows_shift_rows by (apply sub_bytes_length; assumption).
  apply inv_sub_bytes_sub_bytes.
Qed.

Lemma rounds_length (ks : list bytes) :
  Forall (fun k => length k = 16) ks ->
  forall s, length s = 16 -> length (FIPS197.rounds ks s) = 16.
Proof.
  induction ks as [|k ks IH]; intros Hks s Hs; [exact Hs|].
  inversion Hks as [|? ? Hk Hks']; subst.
  cbn [FIPS197.rounds]. destruct ks as [|k' ks].
  - now apply final_round_length.
  - apply IH; [exact Hks' | now apply round_length].
Qed.

Lemma inv_rounds_rounds (ks : list bytes) :
  Forall (fun k => length k = 16) ks ->
  forall s, length s = 16 -> FIPS197.inv_rounds ks (FIPS197.rounds ks s) = s.
Proof.
  induction ks as [|k ks IH]; intros Hks s Hs; [reflexivity|].
  inversion Hks as [|? ? Hk Hks']; subst.
  cbn [FIPS197.rounds FIPS197.inv_rounds]. destruct ks as [|k' ks].
  - now apply inv_final_round_final_round.
  - rewrite IH by (try apply round_length; assumption).
    now apply inv_round_round.
Qed.

(** The cipher maps blocks to blocks, and the inverse cipher undoes it,
    under every key. *)
Lemma cipher_length (key block : bytes) :
  length block = 16 -> length (FIPS197.cipher key block) = 16.
Proof.
  intros Hb. unfold FIPS197.cipher.
  pose proof (round_keys_length key) as Hks.
  destruct (FIPS197.round_keys key) as [|k0 ks]; [exact Hb|].
  inversion Hks; subst.
  apply rounds_length; [assumption|]. now apply add_round_key_length.
Qed.

Lemma inv_cipher_cipher (key block : bytes) :
  length block = 16 ->
  FIPS197.inv_cipher key (FIPS197.cipher key block) = block.
Proof.
  intros Hb. unfold FIPS197.cipher, FIPS197.inv_cipher.
  pose proof (round_keys_length key) as Hks.
  destruct (FIPS197.round_keys key) as [|k0 ks]; [reflexivity|].
  inversion Hks; subst.
  rewrite inv_rounds_rounds by (try apply add_round_key_length; assumption).
  now apply add_round_key_twice.
Qed.

(** The examples of FIPS 197, appendix C, for the three key sizes. *)
Example fips197_aes128 :
  FIPS197.cipher
    [x00; x01; x02; x03; x04; x05; x06; x07; x08; x09; x0a; x0b; x0c;
     x0d; x0e; x0f]
    [x00; x11; x22; x33; x44; x55; x66; x77; x88; x99; xaa; xbb; xcc;
     xdd; xee; xff]
  = [x69; xc4; xe0; xd8; x6a; x7b; x04; x30; xd8; xcd; xb7; x80; x70;
     xb4; xc5; x5a].
Proof. vm_compute. reflexivity. Qed.

Example fips197_aes192 :
  FIPS197.cipher
    [x00; x01; x02; x03; x04; x05; x06; x07; x08; x09; x0a; x0b; x0c;
     x0d; x0e; x0f; x10; x11; x12; x13; x14; x15; x16; x17]
    [x00; x11; x22; x33; x44; x55; x66; x77; x88; x99; xaa; xbb; xcc;
     xdd; xee; xff]
  = [xdd; xa9; x7c; xa4; x86; x4c; xdf; xe0; x6e; xaf; x70; xa0; xec;
     x0d; x71; x91].
Proof. vm_compute. reflexivity. Qed.

Example fips197_aes256 :
  FIPS197.cipher
    [x00; x01; x02; x03; x04; x05; x06; x07; x08; x09; x0a; x0b; x0c;
     x0d; x0e; x0f; x10; x11; x12; x13; x14; x15; x16; x17; x18; x19; x1a;
     x1b; x1c; x1d; x1e; x1f]
    [x00; x11; x22; x33; x44; x55; x66; x77; x88; x99; xaa; xbb; xcc;
     xdd; xee; xff]
  = [x8e; xa2; xb7; xca; x51; x67; x45; xbf; xea; xfc; x49; x90; x4b;
     x49; x60; x89].
Proof. vm_compute. reflexivity. Qed.

(** The cipher as the backend of the theorems below. *)
Lemma fips197_block_length (k blk : bytes) :
  In (length k) AES.KEY_SIZES -> length blk = 16 ->
  length (aes_encrypt_block FIPS197.backend k blk) = 16.
Proof. intros _. apply cipher_length. Qed.

Lemma fips197_block_inverse (k blk : bytes) :
  In (length k) AES.KEY_SIZES -> length blk = 16 ->
  aes_decrypt_block FIPS197.backend k (aes_encrypt_block FIPS197.backend k blk)
  = blk.
Proof. intros _. apply inv_cipher_cipher. Qed.

Section AESTheorems.

Variable backend : CipherBackend.

(** The backend's AES maps a 16-byte block to a 16-byte block under every
    key of an AES size. *)
Hypothesis encrypt_block_length :
  forall k blk,
    In (length k) AES.KEY_SIZES -> length blk = 16 ->
    length (aes_encrypt_block backend k blk) = 16.

Lemma encrypt_length_instance (key iv msg : bytes) :
  In (length key) AES.KEY_SIZES -> length iv = 16 ->
  length (cbc_encrypt (AES.cipher (instance backend key iv)) (pkcs7_pad msg))
  = length msg + (16 - length msg mod 16).
Proof.
  intros Hk Hiv. rewrite cbc_encrypt_length.
  - apply pkcs7_pad_length.
  - intros blk. now apply encrypt_block_length.
  - exact Hiv.
  - rewrite pkcs7_pad_blocks. apply Nat.Div0.mod_mul.
Qed.

(** C3.  For every instance and every message, [encrypt] returns, and the
    ciphertext is [len(m) + (16 - len(m) % 16)] bytes long: a multiple of
    16, strictly longer than the message, and a full block longer when the
    message is already a whole number of blocks. *)
Theorem aes_encrypt_length (key iv : bytes) (self : AES.t) (msg : bytes) :
  AES.init backend key iv = Ok self ->
  exists ct,
    AES.encrypt self msg = Ok ct
    /\ length ct = length msg + (16 - length msg mod 16)
    /\ length ct mod 16 = 0
    /\ length msg < length ct
    /\ (length msg mod 16 = 0 -> length ct = length msg + 16).
Proof.
  intros Hinit. apply init_inv in Hinit. destruct Hinit as (Hk & Hiv & ->).
  eexists. split; [apply encrypt_instance|].
  rewrite (encrypt_length_instance key iv msg Hk Hiv).
  repeat split; lia.
Qed.

(** C4.  The constructor returns an instance exactly when the key is 16,
    24 or 32 bytes long and the IV is 16 bytes long; in every other case it
    raises [SizeException], a subclass of [CryptoException], and no
    instance (hence no cipher) exists. *)
Theorem aes_init_size_policy (key iv : bytes) :
  ((exists self, AES.init backend key iv = Ok self)
   <-> (In (length key) [16; 24; 32] /\ length iv = 16))
  /\ (AES.init backend key iv = Raise SizeException
      <-> ~ (In (length key) [16; 24; 32] /\ length iv = 16))
  /\ issubclass SizeException CryptoException = true.
Proof.
  split; [|split]; [| |reflexivity].
  - split.
    + intros [self H]. apply init_inv in H. tauto.
    + intros [Hk Hiv]. eexists. now apply init_accepts.
  - split.
    + intros H [Hk Hiv]. rewrite (@init_accepts backend key iv Hk Hiv) in H.
      discriminate.
    + apply init_rejects.
Qed.

(** The backend's AES decryption undoes its encryption of a block. *)
Hypothesis decrypt_encrypt_block :
  forall k blk,
    In (length k) AES.KEY_SIZES -> length blk = 16 ->
    aes_decrypt_block backend k (aes_encrypt_block backend k blk) = blk.

(** C1.  For every key and IV the constructor accepts and every message,
    [encrypt] returns a ciphertext and [decrypt] of it returns the
    message. *)
Theorem aes_decrypt_encrypt (key iv : bytes) (self : AES.t) (msg : bytes) :
  AES.init backend key iv = Ok self ->
  exists ct,
    AES.encrypt self msg = Ok ct /\ AES.decrypt self ct = Ok msg.
Proof.
  intros Hinit. apply init_inv in Hinit. destruct Hinit as (Hk & Hiv & ->).
  eexists. split; [apply encrypt_instance|].
  assert (Hm : length (pkcs7_pad msg) mod 16 = 0)
    by (rewrite pkcs7_pad_blocks; apply Nat.Div0.mod_mul).
  rewrite decrypt_instance.
  - rewrite cbc_decrypt_encrypt.
    + pose proof (@unpadder_run (AES.padding (instance backend key iv))
                    eq_refl msg) as Hu.
      destruct (padding.unpadder_update _ _) as [u head].
      destruct Hu as (rest & -> & <-). reflexivity.
    + intros blk. now apply encrypt_block_length.
    + intros blk. now apply decrypt_encrypt_block.
    + exact Hiv.
    + exact Hm.
  - rewrite (encrypt_length_instance key iv msg Hk Hiv). lia.
Qed.

End AESTheorems.

Lemma aes_encrypt_length_witness :
  exists ct,
    AES.encrypt (instance FIPS197.backend Toy.key16 Toy.iv16)
                [x61; x62; x63] = Ok ct
    /\ length ct = 3 + (16 - 3 mod 16)
    /\ length ct mod 16 = 0
    /\ 3 < length ct
    /\ (3 mod 16 = 0 -> length ct = 3 + 16).
Proof.
  apply (@aes_encrypt_length FIPS197.backend fips197_block_length
           Toy.key16 Toy.iv16 _ [x61; x62; x63]).
  reflexivity.
Defined.

Lemma aes_decrypt_encrypt_witness :
  exists ct,
    AES.encrypt (instance FIPS197.backend Toy.key16 Toy.iv16)
                (Toy.key16 ++ [x61; x62; x63]) = Ok ct
    /\ AES.decrypt (instance FIPS197.backend Toy.key16 Toy.iv16) ct
       = Ok (Toy.key16 ++ [x61; x62; x63]).
Proof.
  apply (@aes_decrypt_encrypt FIPS197.backend fips197_block_length
           fips197_block_inverse Toy.key16 Toy.iv16).
  reflexivity.
Defined.

(** The first two blocks of the CBC-AES128 example of NIST SP 800-38A
    (F.2.1), through [AES.encrypt]; the third block is the padding. *)
Example sp800_38a_cbc_aes128 :
  (self <- AES.init FIPS197.backend
             [x2b; x7e; x15; x16; x28; xae; xd2; xa6; xab; xf7; x15; x88;
              x09; xcf; x4f; x3c]
             [x00; x01; x02; x03; x04; x05; x06; x07; x08; x09; x0a; x0b;
              x0c; x0d; x0e; x0f] ;;
   ct <- AES.encrypt self
           ([x6b; xc1; xbe; xe2; x2e; x40; x9f; x96; xe9; x3d; x7e; x11;
             x73; x93; x17; x2a]
            ++ [xae; x2d; x8a; x57; x1e; x03; xac; x9c; x9e; xb7; x6f; xac;
                x45; xaf; x8e; x51]) ;;
   Ok (firstn 32 ct, length ct))
  = Ok ([x76; x49; xab; xac; x81; x19; xb2; x46; xce; xe9; x8e; x9b; x12;
         xe9; x19; x7d]
        ++ [x50; x86; xcb; x9b; x50; x72; x19; xee; x95; xdb; x11; x3a; x91;
            x76; x78; xb2],
        48).
Proof. vm_compute. reflexivity. Qed.

(** ** class AES on the object store *)

Lemma load_here (h : Heap.heap) (r : Heap.ref) (o : Heap.object) :
  nth_error h r = Some o -> Heap.load r h = (Ok o, h).
Proof. intros H. unfold Heap.load. now rewrite H. Qed.

Lemma load_old (h l : Heap.heap) (r : Heap.ref) (o : Heap.object) :
  nth_error h r = Some o -> Heap.load r (h ++ l) = (Ok o, h ++ l).
Proof.
  intros H. apply load_here. rewrite nth_error_app1; [exact H|].
  apply nth_error_Some. congruence.
Qed.

Lemma load_new (h l : Heap.heap) (o : Heap.object) :
  Heap.load (length h) (h ++ o :: l) = (Ok o, h ++ o :: l).
Proof.
  apply load_here. rewrite nth_error_app2, Nat.sub_diag by lia. reflexivity.
Qed.

Lemma store_new (h l : Heap.heap) (o o' : Heap.object) :
  Heap.store (length h) o' (h ++ o :: l) = (Ok tt, h ++ o' :: l).
Proof.
  unfold Heap.store. f_equal.
  rewrite firstn_app, Nat.sub_diag, firstn_all, skipn_app.
  replace (S (length h) - length h) with 1 by lia.
  rewrite skipn_all2 by lia. cbn [firstn skipn app]. now rewrite app_nil_r.
Qed.

Ltac heap_step :=
  first [ rewrite load_new | rewrite store_new
        | erewrite load_old by eassumption
        | erewrite load_here by eassumption ];
  cbv beta iota.

Lemma heap_encrypt (h : Heap.heap) (self cref pref : Heap.ref)
      (c : ciphers.Cipher) (p : padding.PKCS7) (msg : bytes) :
  nth_error h self = Some (Heap.OAES cref pref) ->
  nth_error h cref = Some (Heap.OCipher c) ->
  nth_error h pref = Some (Heap.OPKCS7 p) ->
  exists x y,
    Heap.encrypt self msg h
    = (AES.encrypt {| AES.cipher := c; AES.padding := p |} msg,
       h ++ [Heap.OCipherContext x; Heap.OPaddingContext y]).
Proof.
  intros Hself Hc Hp.
  unfold Heap.encrypt, Heap.encryptor, Heap.padder, Heap.padder_update,
    Heap.padder_finalize, Heap.update, Heap.finalize, Heap.alloc, sbind, sret,
    slift.
  repeat heap_step.
  rewrite <- app_assoc. cbn [app].
  repeat heap_step.
  unfold AES.encrypt. cbn [AES.cipher AES.padding].
  destruct (padding.padder_update (padding.padder p) msg) as [pc head].
  cbn [fst snd].
  destruct (ciphers.update (ciphers.encryptor c) _) as [x out].
  cbn [fst snd].
  do 2 eexists.
  destruct (ciphers.finalize x); reflexivity.
Qed.

Lemma heap_decrypt (h : Heap.heap) (self cref pref : Heap.ref)
      (c : ciphers.Cipher) (p : padding.PKCS7) (msg : bytes) :
  nth_error h self = Some (Heap.OAES cref pref) ->
  nth_error h cref = Some (Heap.OCipher c) ->
  nth_error h pref = Some (Heap.OPKCS7 p) ->
  exists x y,
    Heap.decrypt self msg h
    = (AES.decrypt {| AES.cipher := c; AES.padding := p |} msg,
       h ++ [Heap.OCipherContext x; Heap.OPaddingContext y]).
Proof.
  intros Hself Hc Hp.
  unfold Heap.decrypt, Heap.decryptor, Heap.unpadder, Heap.unpadder_update,
    Heap.unpadder_finalize, Heap.update, Heap.finalize, Heap.alloc, sbind, sret,
    slift.
  repeat heap_step.
  rewrite <- app_assoc. cbn [app].
  repeat heap_step.
  unfold AES.decrypt. cbn [AES.cipher AES.padding].
  destruct (ciphers.update (ciphers.decryptor c) msg) as [x out].
  cbn [fst snd].
  replace (length (h ++ [Heap.OCipherContext (ciphers.decryptor c)]))
    with (length (h ++ [Heap.OCipherContext x]))
    by (rewrite !length_app; reflexivity).
  change (h ++ [Heap.OCipherContext x;
                Heap.OPaddingContext (padding.unpadder p)])
    with (h ++ [Heap.OCipherContext x]
            ++ [Heap.OPaddingContext (padding.unpadder p)]).
  rewrite app_assoc.
  destruct (ciphers.finalize x) as [tail|e]; cbn [propagate bind].
  - repeat heap_step. rewrite <- app_assoc. cbn [app].
    destruct (padding.unpadder_update (padding.unpadder p) (out ++ tail))
      as [u head].
    cbn [fst snd]. do 2 eexists.
    destruct (padding.unpadder_finalize u); reflexivity.
  - rewrite <- app_assoc. cbn [app]. do 2 eexists. reflexivity.
Qed.

Lemma instance_at_inv (h : Heap.heap) (self : Heap.ref) (i : AES.t) :
  Heap.instance_at h self = Some i ->
  exists cref pref,
    nth_error h self = Some (Heap.OAES cref pref)
    /\ nth_error h cref = Some (Heap.OCipher (AES.cipher i))
    /\ nth_error h pref = Some (Heap.OPKCS7 (AES.padding i)).
Proof.
  unfold Heap.instance_at.
  destruct (nth_error h self) as [[| | | |cref pref]|] eqn:Hs; try discriminate.
  destruct (nth_error h cref) as [[c| | | |]|] eqn:Hc; try discriminate.
  destruct (nth_error h pref) as [[|p| | |]|] eqn:Hp; try discriminate.
  intros H. injection H as <-. exists cref, pref. auto.
Qed.

Lemma nth_error_old {A} (h l : list A) (r : nat) (o : A) :
  nth_error h r = Some o -> nth_error (h ++ l) r = Some o.
Proof.
  intros H. rewrite nth_error_app1; [exact H|].
  apply nth_error_Some. congruence.
Qed.

Lemma nth_error_new {A} (h l : list A) (k : nat) :
  nth_error (h ++ l) (Nat.iter k S (length h)) = nth_error l k.
Proof.
  assert (H : Nat.iter k S (length h) = length h + k).
  { induction k as [|k IH]; simpl; [lia | rewrite IH; lia]. }
  rewrite H, nth_error_app2 by lia. f_equal. lia.
Qed.

Lemma instance_at_app (h l : Heap.heap) (self : Heap.ref) (i : AES.t) :
  Heap.instance_at h self = Some i ->
  Heap.instance_at (h ++ l) self = Some i.
Proof.
  intros H. apply instance_at_inv in H.
  destruct H as (cref & pref & Hs & Hc & Hp).
  unfold Heap.instance_at.
  rewrite (nth_error_old h l _ _ Hs), (nth_error_old h l _ _ Hc),
    (nth_error_old h l _ _ Hp).
  destruct i; reflexivity.
Qed.

(** On the store, [encrypt] and [decrypt] return what the value-level
    methods return and only add the two contexts of the call. *)
Lemma heap_encrypt_instance (h : Heap.heap) (self : Heap.ref) (i : AES.t)
      (msg : bytes) :
  Heap.instance_at h self = Some i ->
  exists x y,
    Heap.encrypt self msg h
    = (AES.encrypt i msg,
       h ++ [Heap.OCipherContext x; Heap.OPaddingContext y]).
Proof.
  intros H. apply instance_at_inv in H.
  destruct H as (cref & pref & Hs & Hc & Hp).
  destruct i as [c p]. now apply (heap_encrypt h self cref pref).
Qed.

Lemma heap_decrypt_instance (h : Heap.heap) (self : Heap.ref) (i : AES.t)
      (msg : bytes) :
  Heap.instance_at h self = Some i ->
  exists x y,
    Heap.decrypt self msg h
    = (AES.decrypt i msg,
       h ++ [Heap.OCipherContext x; Heap.OPaddingContext y]).
Proof.
  intros H. apply instance_at_inv in H.
  destruct H as (cref & pref & Hs & Hc & Hp).
  destruct i as [c p]. now apply (heap_decrypt h self cref pref).
Qed.

Lemma heap_init_accepts (backend : CipherBackend) (key iv : bytes)
      (h : Heap.heap) :
  In (length key) AES.KEY_SIZES -> length iv = AES.BLOCK_SIZE ->
  exists self new,
    Heap.init backend key iv h = (Ok self, h ++ new)
    /\ Heap.instance_at (h ++ new) self = Some (instance backend key iv).
Proof.
  intros Hk Hiv.
  exists (S (S (length h))),
    [Heap.OCipher (AES.cipher (instance backend key iv));
     Heap.OPKCS7 (AES.padding (instance backend key iv));
     Heap.OAES (length h) (S (length h))].
  split.
  - unfold Heap.init, ciphers.new_AES, ciphers.new_Cipher, ciphers.new_CBC.
    cbn [ciphers.initialization_vector]. rewrite Hiv.
    unfold AES.KEY_SIZES in Hk. cbn [In] in Hk.
    assert (Hrun : forall c p,
               (cipher <~ Heap.alloc (Heap.OCipher c) ;;
                padding <~ Heap.alloc (Heap.OPKCS7 p) ;;
                Heap.alloc (Heap.OAES cipher padding)) h
               = (Ok (S (S (length h))),
                  h ++ [Heap.OCipher c; Heap.OPKCS7 p;
                        Heap.OAES (length h) (S (length h))])).
    { intros c p. unfold sbind, Heap.alloc.
      rewrite !length_app, <- !app_assoc. cbn [length app].
      rewrite !Nat.add_1_r. reflexivity. }
    destruct Hk as [Hk|[Hk|[Hk|[]]]]; rewrite <- Hk; apply Hrun.
  - unfold Heap.instance_at.
    set (new := [Heap.OCipher _; _; _]).
    assert (H2 : nth_error (h ++ new) (S (S (length h))) = nth_error new 2)
      by apply (nth_error_new h new 2).
    assert (H1 : nth_error (h ++ new) (S (length h)) = nth_error new 1)
      by apply (nth_error_new h new 1).
    assert (H0 : nth_error (h ++ new) (length h) = nth_error new 0)
      by apply (nth_error_new h new 0).
    rewrite H2.
    change (nth_error new 2) with (Some (Heap.OAES (length h) (S (length h)))).
    cbv beta match. rewrite H0, H1. reflexivity.
Qed.

Lemma heap_init_rejects (backend : CipherBackend) (key iv : bytes)
      (h : Heap.heap) :
  ~ (In (length key) AES.KEY_SIZES /\ length iv = AES.BLOCK_SIZE) ->
  Heap.init backend key iv h = (Raise SizeException, h).
Proof.
  intros Hno. unfold Heap.init.
  destruct (existsb (Nat.eqb (length key)) AES.KEY_SIZES) eqn:Hk;
    [|reflexivity].
  destruct (length iv =? AES.BLOCK_SIZE) eqn:Hiv; [|reflexivity].
  exfalso. apply Hno. split.
  - apply existsb_exists in Hk. destruct Hk as (n & Hin & Hn).
    apply Nat.eqb_eq in Hn. now subst n.
  - now apply Nat.eqb_eq.
Qed.

(** C10.  On Python's object store: an instance is built from a key and an
    IV, [encrypt] is called twice on it with one message, a second instance
    is built from the same key and IV and [encrypt] is called on it.  The
    three ciphertexts are the same bytes, namely CBC started from the IV
    over the PKCS7-padded message, a function of key, IV and message.  This
    is so because, on any store, [encrypt] returns what the value-level
    method returns for the instance, and [encrypt] and [decrypt] leave the
    instance with its cipher and padding as they were: they only add the
    contexts of the call. *)
Theorem aes_encrypt_deterministic (backend : CipherBackend)
        (key iv msg : bytes) (h : Heap.heap) :
  In (length key) AES.KEY_SIZES -> length iv = 16 ->
  exists ct h',
    (a <~ Heap.init backend key iv ;;
     c1 <~ Heap.encrypt a msg ;;
     c2 <~ Heap.encrypt a msg ;;
     b <~ Heap.init backend key iv ;;
     c3 <~ Heap.encrypt b msg ;;
     sret (c1, c2, c3)) h = (Ok (ct, ct, ct), h')
    /\ ct = cbc_encrypt
              {| ciphers.algorithm := {| ciphers.key := key |};
                 ciphers.mode := {| ciphers.initialization_vector := iv |};
                 ciphers.backend := backend |}
              (pkcs7_pad msg)
    /\ (forall self i m s,
           Heap.instance_at s self = Some i ->
           fst (Heap.encrypt self m s) = AES.encrypt i m
           /\ Heap.instance_at (snd (Heap.encrypt self m s)) self = Some i
           /\ Heap.instance_at (snd (Heap.decrypt self m s)) self = Some i).
Proof.
  intros Hk Hiv.
  destruct (heap_init_accepts backend key iv h Hk Hiv) as (a & n1 & Ha & Ia).
  destruct (heap_encrypt_instance _ a _ msg Ia) as (x1 & y1 & E1).
  pose proof (instance_at_app _ [Heap.OCipherContext x1; Heap.OPaddingContext y1]
                _ _ Ia) as Ia2.
  destruct (heap_encrypt_instance _ a _ msg Ia2) as (x2 & y2 & E2).
  destruct (heap_init_accepts backend key iv
              (((h ++ n1) ++ [Heap.OCipherContext x1; Heap.OPaddingContext y1])
                 ++ [Heap.OCipherContext x2; Heap.OPaddingContext y2]) Hk Hiv)
    as (b & n2 & Hb & Ib).
  destruct (heap_encrypt_instance _ b _ msg Ib) as (x3 & y3 & E3).
  rewrite encrypt_instance in E1, E2, E3.
  do 2 eexists. split; [|split].
  - unfold sbind at 1. rewrite Ha.
    unfold sbind at 1. rewrite E1.
    unfold sbind at 1. rewrite E2.
    unfold sbind at 1. rewrite Hb.
    unfold sbind at 1. rewrite E3.
    reflexivity.
  - reflexivity.
  - intros self i m s Hi.
    destruct (heap_encrypt_instance s self i m Hi) as (x & y & ->).
    destruct (heap_decrypt_instance s self i m Hi) as (x' & y' & ->).
    cbn [fst snd]. auto using instance_at_app.
Qed.

Lemma aes_encrypt_deterministic_witness :
  exists ct h',
    (a <~ Heap.init FIPS197.backend Toy.key16 Toy.iv16 ;;
     c1 <~ Heap.encrypt a [x61] ;;
     c2 <~ Heap.encrypt a [x61] ;;
     b <~ Heap.init FIPS197.backend Toy.key16 Toy.iv16 ;;
     c3 <~ Heap.encrypt b [x61] ;;
     sret (c1, c2, c3)) [] = (Ok (ct, ct, ct), h')
    /\ ct = cbc_encrypt
              {| ciphers.algorithm := {| ciphers.key := Toy.key16 |};
                 ciphers.mode :=
                   {| ciphers.initialization_vector := Toy.iv16 |};
                 ciphers.backend := FIPS197.backend |}
              (pkcs7_pad [x61])
    /\ (forall self i m s,
           Heap.instance_at s self = Some i ->
           fst (Heap.encrypt self m s) = AES.encrypt i m
           /\ Heap.instance_at (snd (Heap.encrypt self m s)) self = Some i
           /\ Heap.instance_at (snd (Heap.decrypt self m s)) self = Some i).
Proof.
  apply (aes_encrypt_deterministic FIPS197.backend Toy.key16 Toy.iv16
           [x61] []).
  - left. reflexivity.
  - reflexivity.
Defined.

(** ** Failures *)

Lemma foreign_not_crypto (e : foreign_exc) :
  issubclass (Foreign e) CryptoException = false.
Proof. destruct e; reflexivity. Qed.

Lemma propagate_raises {A} (r : result foreign_exc A) (e : exc) :
  propagate r = Raise e -> exists f, e = Foreign f /\ r = Raise f.
Proof.
  destruct r as [a|f]; cbn; intros H; [discriminate|].
  injection H as <-. eauto.
Qed.

Lemma decrypt_malformed (backend : CipherBackend) (key iv ct : bytes) :
  length ct mod 16 = 0 ->
  well_padded (cbc_decrypt (AES.cipher (instance backend key iv)) ct) = false ->
  AES.decrypt (instance backend key iv) ct = Raise (Foreign ValueError).
Proof.
  intros Hm Hw. rewrite decrypt_instance by assumption.
  unfold padding.unpadder_update, padding.unpadder, padding.unpadder_finalize.
  cbn [padding.buffer padding.ctx_block_size app AES.padding instance
       padding.block_size].
  change (128 / 8) with 16. rewrite Nat.max_0_r.
  unfold well_padded in Hw. cbv zeta in Hw.
  destruct (length (skipn _ _) =? 16); cbn [negb andb] in *; [|reflexivity].
  rewrite Hw. reflexivity.
Qed.

(** C7, as the code has it.  The module defines the root [CryptoException]
    and one subclass, [SizeException], and raises only the latter, from the
    [AES] constructor.  [AES.decrypt] of a ciphertext that is not a whole
    number of blocks, or whose padding is malformed, fails with the
    package's [ValueError]; a failing PEM or SSH load fails with whatever the
    package raises.  These pass through unchanged and are not subclasses of
    [CryptoException]. *)
Theorem failure_taxonomy (cb : CipherBackend) (rb : RSABackend) :
  (forall key iv e,
      AES.init cb key iv = Raise e ->
      e = SizeException /\ issubclass e CryptoException = true)
  /\ (forall key iv ct,
         length ct mod 16 <> 0 ->
         AES.decrypt (instance cb key iv) ct = Raise (Foreign ValueError))
  /\ (forall key iv ct,
         length ct mod 16 = 0 ->
         well_padded (cbc_decrypt (AES.cipher (instance cb key iv)) ct) = false ->
         AES.decrypt (instance cb key iv) ct = Raise (Foreign ValueError))
  /\ (forall self ct e,
         AES.decrypt self ct = Raise e ->
         e = Foreign ValueError /\ issubclass e CryptoException = false)
  /\ (forall msg pw e,
         RSAPrivate.load_pem rb msg pw = Raise e ->
         issubclass e CryptoException = false
         /\ exists f, e = Foreign f /\ load_pem_private_key rb msg pw = Raise f)
  /\ (forall msg e,
         RSAPublic.load_pem rb msg = Raise e ->
         issubclass e CryptoException = false
         /\ exists f, e = Foreign f /\ load_pem_public_key rb msg = Raise f)
  /\ (forall msg e,
         RSAPublic.load_ssh rb msg = Raise e ->
         issubclass e CryptoException = false
         /\ exists f, e = Foreign f /\ load_ssh_public_key rb msg = Raise f).
Proof.
  repeat apply conj.
  - intros key iv e H. destruct (sizes_dec key iv) as [[Hk Hiv]|Hno].
    + rewrite (init_accepts cb key iv Hk Hiv) in H. discriminate.
    + rewrite (init_rejects cb key iv Hno) in H. injection H as <-. auto.
  - intros key iv ct. apply decrypt_partial_block.
  - intros key iv ct. apply decrypt_malformed.
  - intros self ct e H. apply decrypt_raises in H. subst e. auto.
  - intros msg pw e. unfold RSAPrivate.load_pem.
    destruct (load_pem_private_key rb msg pw) as [k|f]; cbn; intros H;
      [discriminate|]. injection H as <-. split; [apply foreign_not_crypto|eauto].
  - intros msg e. unfold RSAPublic.load_pem.
    destruct (load_pem_public_key rb msg) as [k|f]; cbn; intros H;
      [discriminate|]. injection H as <-. split; [apply foreign_not_crypto|eauto].
  - intros msg e. unfold RSAPublic.load_ssh.
    destruct (load_ssh_public_key rb msg) as [k|f]; cbn; intros H;
      [discriminate|]. injection H as <-. split; [apply foreign_not_crypto|eauto].
Qed.

(** A one-byte ciphertext, and a full block that decrypts to bytes without
    padding, are accepted by the constructor's instance and make [decrypt]
    fail with [ValueError], which is not a [CryptoException]. *)
Lemma decrypt_failure_outside_taxonomy :
  exists self,
    AES.init FIPS197.backend Toy.key16 Toy.iv16 = Ok self
    /\ AES.decrypt self [x00] = Raise (Foreign ValueError)
    /\ AES.decrypt self (repeat x00 16) = Raise (Foreign ValueError)
    /\ issubclass (Foreign ValueError) CryptoException = false.
Proof. eexists. repeat split. Qed.

(** ** generate_key *)

Lemma token_bytes_ok (n : Z) (rng : entropy) :
  (0 <= n)%Z ->
  secrets.token_bytes n rng
  = (Ok (map rng (seq 0 (Z.to_nat n))), fun i => rng (Z.to_nat n + i)).
Proof.
  intros Hn. unfold secrets.token_bytes, os.urandom.
  destruct (n <? 0)%Z eqn:E; [apply Z.ltb_lt in E; lia | reflexivity].
Qed.

Lemma map_seq_offset {A} (f : nat -> A) (n s len : nat) :
  map (fun i => f (n + i)) (seq s len) = map f (seq (n + s) len).
Proof.
  revert s. induction len as [|len IH]; intros s; [reflexivity|].
  cbn [seq map]. rewrite IH, Nat.add_succ_r. reflexivity.
Qed.




Import hashes asy_padding serialization.

(** ** Integers and byte strings *)

Lemma byte_to_Z_range (b : byte) : (0 <= byte_to_Z b < 256)%Z.
Proof. unfold byte_to_Z. pose proof (Byte.to_nat_bounded b). lia. Qed.

Lemma byte_to_of_Z (z : Z) : (0 <= z < 256)%Z -> byte_to_Z (byte_of_Z z) = z.
Proof.
  intros Hz. unfold byte_to_Z, byte_of_Z.
  rewrite to_nat_byte_of_nat by lia. lia.
Qed.

Lemma byte_of_to_Z (b : byte) : byte_of_Z (byte_to_Z b) = b.
Proof.
  unfold byte_to_Z, byte_of_Z, byte_of_nat.
  rewrite Nat2Z.id, Byte.of_to_nat. reflexivity.
Qed.

Lemma to_bytes_le_length (len : nat) (x : Z) : length (to_bytes_le len x) = len.
Proof. revert x. induction len; intros x; simpl; auto. Qed.

Lemma from_bytes_le_range (b : bytes) :
  (0 <= from_bytes_le b < 256 ^ Z.of_nat (length b))%Z.
Proof.
  induction b as [|x b IH]; cbn [from_bytes_le length]; [simpl; lia|].
  rewrite Nat2Z.inj_succ, Z.pow_succ_r by lia.
  pose proof (byte_to_Z_range x). lia.
Qed.

Lemma from_to_bytes_le (len : nat) (x : Z) :
  (0 <= x < 256 ^ Z.of_nat len)%Z -> from_bytes_le (to_bytes_le len x) = x.
Proof.
  revert x. induction len as [|len IH]; intros x Hx.
  - simpl in *. lia.
  - cbn [to_bytes_le from_bytes_le].
    rewrite Nat2Z.inj_succ, Z.pow_succ_r in Hx by lia.
    rewrite byte_to_of_Z by lia. rewrite IH by lia. lia.
Qed.

Lemma to_from_bytes_le (b : bytes) :
  to_bytes_le (length b) (from_bytes_le b) = b.
Proof.
  induction b as [|x b IH]; [reflexivity|].
  cbn [to_bytes_le from_bytes_le length].
  pose proof (byte_to_Z_range x).
  replace ((byte_to_Z x + 256 * from_bytes_le b) mod 256)%Z with (byte_to_Z x)
    by lia.
  replace ((byte_to_Z x + 256 * from_bytes_le b) / 256)%Z with (from_bytes_le b)
    by lia.
  now rewrite byte_of_to_Z, IH.
Qed.

Lemma from_bytes_le_app (a b : bytes) :
  from_bytes_le (a ++ b)
  = (from_bytes_le a + 256 ^ Z.of_nat (length a) * from_bytes_le b)%Z.
Proof.
  induction a as [|x a IH]; cbn [from_bytes_le length app].
  - change (Z.of_nat 0) with 0%Z. rewrite Z.pow_0_r. lia.
  - rewrite IH, Nat2Z.inj_succ, Z.pow_succ_r by lia. ring.
Qed.

Lemma int_to_bytes_length (x : Z) (len : nat) : length (int_to_bytes x len) = len.
Proof. unfold int_to_bytes. now rewrite length_rev, to_bytes_le_length. Qed.

Lemma int_from_to_bytes (x : Z) (len : nat) :
  (0 <= x < 256 ^ Z.of_nat len)%Z -> int_from_bytes (int_to_bytes x len) = x.
Proof.
  intros Hx. unfold int_from_bytes, int_to_bytes.
  rewrite rev_involutive. now apply from_to_bytes_le.
Qed.

Lemma int_to_from_bytes (b : bytes) :
  int_to_bytes (int_from_bytes b) (length b) = b.
Proof.
  unfold int_from_bytes, int_to_bytes.
  rewrite <- (length_rev b), to_from_bytes_le. apply rev_involutive.
Qed.

Lemma int_from_bytes_range (b : bytes) :
  (0 <= int_from_bytes b < 256 ^ Z.of_nat (length b))%Z.
Proof.
  unfold int_from_bytes. rewrite <- (length_rev b). apply from_bytes_le_range.
Qed.

(** The first byte bounds the integer. *)
Lemma int_from_bytes_cons (x : byte) (b : bytes) :
  int_from_bytes (x :: b)
  = (byte_to_Z x * 256 ^ Z.of_nat (length b) + int_from_bytes b)%Z.
Proof.
  unfold int_from_bytes. cbn [rev].
  rewrite from_bytes_le_app, length_rev. cbn [from_bytes_le]. ring.
Qed.

(** ** RSA keys, OAEP and PSS *)

Lemma digest_size_pos (h : HashAlgorithm) : 0 < digest_size h.
Proof. destruct h; cbn; lia. Qed.

Lemma concat_map_length {A} (f : A -> bytes) (l : list A) (len : nat) :
  (forall x, length (f x) = len) ->
  length (concat (map f l)) = length l * len.
Proof.
  intros Hf. induction l as [|x l IH]; [reflexivity|].
  cbn [map concat length]. rewrite length_app, Hf, IH. lia.
Qed.

Lemma skip_zeros_repeat (count : nat) (msg : bytes) :
  rsa.skip_zeros (repeat x00 count ++ x01 :: msg) = x01 :: msg.
Proof. induction count as [|count IH]; [reflexivity | exact IH]. Qed.

Section KeyPair.

Variable key : rsa.RSAPrivateKey.
Hypothesis key_ok : key_pair key.

Lemma public_op_range (m : Z) : (0 <= rsa.public_op (rsa.public_key key) m < rsa.n (rsa.public_key key))%Z.
Proof.
  destruct key_ok as (Hn & _). unfold rsa.public_op. 
  rewrite Zpow_mod_correct by lia. apply Z.mod_pos_bound. lia.
Qed.

Lemma private_op_range (c : Z) : (0 <= rsa.private_op key c < rsa.n (rsa.public_key key))%Z.
Proof.
  destruct key_ok as (Hn & _). unfold rsa.private_op. 
  rewrite Zpow_mod_correct by lia. apply Z.mod_pos_bound. lia.
Qed.

Lemma private_public_op (m : Z) :
  (0 <= m < rsa.n (rsa.public_key key))%Z -> rsa.private_op key (rsa.public_op (rsa.public_key key) m) = m.
Proof.
  destruct key_ok as (Hn & He & Hd & Hinv).  intros Hm.
  unfold rsa.private_op, rsa.public_op. 
  rewrite !Zpow_mod_correct by lia.
  rewrite Z.mod_pow_l, <- Z.pow_mul_r by lia. now apply Hinv.
Qed.

Lemma public_private_op (m : Z) :
  (0 <= m < rsa.n (rsa.public_key key))%Z -> rsa.public_op (rsa.public_key key) (rsa.private_op key m) = m.
Proof.
  destruct key_ok as (Hn & He & Hd & Hinv).  intros Hm.
  unfold rsa.private_op, rsa.public_op. 
  rewrite !Zpow_mod_correct by lia.
  rewrite Z.mod_pow_l, <- Z.pow_mul_r, (Z.mul_comm (rsa.d key)) by lia.
  now apply Hinv.
Qed.

(** The modulus fills its byte length. *)
Lemma modulus_bits :
  (2 ^ Z.of_nat (rsa.key_size (rsa.public_key key) - 1) <= rsa.n (rsa.public_key key)
   < 2 ^ Z.of_nat (rsa.key_size (rsa.public_key key)))%Z.
Proof.
  destruct key_ok as (Hn & _).  unfold rsa.key_size.
  pose proof (Z.log2_spec (rsa.n (rsa.public_key key)) ltac:(lia)) as Hs.
  pose proof (Z.log2_nonneg (rsa.n (rsa.public_key key))) as Hl.
  replace (Z.of_nat (Z.to_nat (Z.log2 (rsa.n (rsa.public_key key))) + 1 - 1))
    with (Z.log2 (rsa.n (rsa.public_key key))) by lia.
  replace (Z.of_nat (Z.to_nat (Z.log2 (rsa.n (rsa.public_key key))) + 1))
    with (Z.succ (Z.log2 (rsa.n (rsa.public_key key)))) by lia.
  exact Hs.
Qed.

Lemma pow256 (x : nat) : (256 ^ Z.of_nat x = 2 ^ Z.of_nat (8 * x))%Z.
Proof.
  change 256%Z with (2 ^ 8)%Z. rewrite <- Z.pow_mul_r by lia.
  f_equal. lia.
Qed.

Lemma modulus_bytes :
  (256 ^ Z.of_nat (rsa.key_bytes (rsa.public_key key) - 1) <= rsa.n (rsa.public_key key)
   < 256 ^ Z.of_nat (rsa.key_bytes (rsa.public_key key)))%Z.
Proof.
  pose proof modulus_bits as [Hlo Hhi]. rewrite !pow256. unfold rsa.key_bytes.
  split.
  - eapply Z.le_trans; [|exact Hlo]. apply Z.pow_le_mono_r; lia.
  - eapply Z.lt_le_trans; [exact Hhi|]. apply Z.pow_le_mono_r; lia.
Qed.

End KeyPair.

(** A key made the usual way, from two distinct primes and exponents that
    are inverse modulo [p - 1] and [q - 1], is a well-formed pair. *)

Open Scope Z_scope.

Lemma pow_mod_prime (p m x : Z) :
  Z.prime p -> 0 < x -> (p - 1 | x - 1) -> (m ^ x) mod p = m mod p.
Proof.
  intros Hp Hx [t Ht].
  pose proof (Z.prime_ge_2 p Hp) as Hp2.
  assert (Ht0 : 0 <= t) by nia.
  replace x with (1 + (p - 1) * t) by lia.
  rewrite Z.pow_add_r, Z.pow_1_r, Z.pow_mul_r by nia.
  destruct (Z.eq_dec (m mod p) 0) as [Hz|Hnz].
  - rewrite Z.mul_mod, Hz by lia. rewrite Z.mul_0_l. apply Z.mod_0_l. lia.
  - rewrite Z.mul_mod by lia.
    rewrite <- (Z.mod_pow_l (m ^ (p - 1))).
    rewrite (ZmodInv.Z.fermat_nz p m Hp Hnz).
    rewrite Z.pow_1_l by lia. rewrite (Z.mod_1_l p) by lia.
    rewrite Z.mul_1_r. apply Z.mod_mod. lia.
Qed.

Lemma key_pair_of_primes (p q e d : Z) :
  Z.prime p -> Z.prime q -> p <> q ->
  0 < e -> 0 < d ->
  (p - 1 | e * d - 1) -> (q - 1 | e * d - 1) ->
  key_pair {| rsa.d := d; rsa.public_key := {| rsa.e := e; rsa.n := p * q |} |}.
Proof.
  intros Hp Hq Hne He Hd Hdp Hdq.
  pose proof (Z.prime_ge_2 p Hp) as Hp2.
  pose proof (Z.prime_ge_2 q Hq) as Hq2.
  unfold key_pair. cbn [rsa.public_key rsa.n rsa.e rsa.d].
  split; [nia|]. split; [lia|]. split; [lia|].
  intros m Hm.
  assert (Hed : 0 < e * d) by nia.
  assert (Dp : (p | m ^ (e * d) - m)).
  { apply Z.mod_divide; [lia|].
    rewrite Zminus_mod, (pow_mod_prime p m (e * d) Hp Hed Hdp), Z.sub_diag.
    apply Z.mod_0_l. lia. }
  assert (Dq : (q | m ^ (e * d) - m)).
  { apply Z.mod_divide; [lia|].
    rewrite Zminus_mod, (pow_mod_prime q m (e * d) Hq Hed Hdq), Z.sub_diag.
    apply Z.mod_0_l. lia. }
  assert (Hrel : Z.gcd p q = 1).
  { apply Z.coprime_prime_l; [exact Hp|].
    intros Hdiv. apply Hne. now apply Z.divide_prime_prime. }
  destruct Dq as [y Hy].
  assert (Dy : (p | y)).
  { apply Z.gauss with q; [|exact Hrel]. rewrite Z.mul_comm, <- Hy. exact Dp. }
  destruct Dy as [z Hz].
  replace (m ^ (e * d)) with (m + z * (p * q)) by (subst y; lia).
  rewrite Z_mod_plus_full. apply Z.mod_small. exact Hm.
Qed.

Close Scope Z_scope.

(** Primality of a small number, by trying every divisor. *)
Lemma small_prime (p : Z) :
  (1 < p)%Z ->
  forallb (fun i => negb (p mod Z.of_nat i =? 0)%Z) (seq 2 (Z.to_nat p - 2))
  = true ->
  Z.prime p.
Proof.
  intros Hp Hall. split; [exact Hp|].
  intros n Hn Hdiv.
  rewrite forallb_forall in Hall.
  specialize (Hall (Z.to_nat n) ltac:(apply in_seq; lia)).
  rewrite Z2Nat.id in Hall by lia.
  apply Z.mod_divide in Hdiv; [|lia].
  rewrite Hdiv in Hall. discriminate.
Qed.

(** The textbook key pair [p = 61], [q = 53], [e = 17], [d = 2753]. *)
Example textbook_key_pair :
  key_pair {| rsa.d := 2753;
              rsa.public_key := {| rsa.e := 17; rsa.n := 61 * 53 |} |}.
Proof.
  apply key_pair_of_primes; try lia.
  - apply small_prime; [lia | vm_compute; reflexivity].
  - apply small_prime; [lia | vm_compute; reflexivity].
  - exists 780%Z. reflexivity.
  - exists 900%Z. reflexivity.
Qed.

Section Digest.

Variable digest : HashAlgorithm -> bytes -> bytes.
Hypothesis digest_length : forall h data, length (digest h data) = digest_size h.

Lemma mgf1_length (h : HashAlgorithm) (seed : bytes) (mask_len : nat) :
  length (rsa.mgf1 digest h seed mask_len) = mask_len.
Proof.
  unfold rsa.mgf1. rewrite length_firstn.
  rewrite (concat_map_length _ _ (digest_size h)) by (intros; apply digest_length).
  rewrite length_seq. pose proof (digest_size_pos h). nia.
Qed.

Lemma oaep_decode_encode (mgf_hash h : HashAlgorithm)
      (label msg seed : bytes) (k : nat) :
  length seed = digest_size h ->
  length msg + 2 * digest_size h + 2 <= k ->
  rsa.oaep_decode digest mgf_hash h label
    (rsa.oaep_encode digest mgf_hash h label msg seed k) k = Some msg.
Proof.
  intros Hseed Hk. unfold rsa.oaep_encode, rsa.oaep_decode.
  set (hlen := digest_size h) in *.
  set (lhash := digest h label).
  set (ps := repeat x00 (k - length msg - 2 * hlen - 2)).
  set (db := lhash ++ ps ++ [x01] ++ msg).
  set (masked_db := xor_bytes db (rsa.mgf1 digest mgf_hash seed (k - hlen - 1))).
  set (masked_seed := xor_bytes seed (rsa.mgf1 digest mgf_hash masked_db hlen)).
  assert (Hlh : length lhash = hlen) by apply digest_length.
  assert (Hdb : length db = k - hlen - 1).
  { unfold db, ps. rewrite !length_app, repeat_length, Hlh. cbn [length]. lia. }
  assert (Hmdb : length masked_db = k - hlen - 1).
  { unfold masked_db. rewrite xor_bytes_length, Hdb, mgf1_length. lia. }
  assert (Hms : length masked_seed = hlen).
  { unfold masked_seed. rewrite xor_bytes_length, Hseed, mgf1_length. lia. }
  rewrite firstn_app, skipn_app, Hms, Nat.sub_diag.
  rewrite (@firstn_all2 _ hlen masked_seed), (@skipn_all2 _ hlen masked_seed)
    by lia.
  cbn [firstn skipn app]. rewrite app_nil_r.
  assert (Hs' : xor_bytes masked_seed (rsa.mgf1 digest mgf_hash masked_db hlen)
                = seed).
  { unfold masked_seed. apply xor_bytes_cancel. rewrite mgf1_length. lia. }
  rewrite !Hs'.
  assert (Hd' : xor_bytes masked_db (rsa.mgf1 digest mgf_hash seed (k - hlen - 1))
                = db).
  { unfold masked_db. apply xor_bytes_cancel. rewrite mgf1_length. lia. }
  rewrite !Hd'. unfold db.
  rewrite firstn_app, skipn_app, Hlh, Nat.sub_diag.
  rewrite (@firstn_all2 _ hlen lhash), (@skipn_all2 _ hlen lhash) by lia.
  cbn [firstn skipn]. rewrite app_nil_r. cbn [app].
  unfold ps. rewrite skip_zeros_repeat, bytes_eqb_refl. reflexivity.
Qed.

Lemma oaep_encode_length (mgf_hash h : HashAlgorithm)
      (label msg seed : bytes) (k : nat) :
  length seed = digest_size h ->
  length msg + 2 * digest_size h + 2 <= k ->
  length (rsa.oaep_encode digest mgf_hash h label msg seed k) = k.
Proof.
  intros Hseed Hk. unfold rsa.oaep_encode. cbn [length].
  rewrite length_app, !xor_bytes_length, !mgf1_length, !length_app,
    repeat_length, digest_length, Hseed.
  cbn [length]. lia.
Qed.

Lemma oaep_encode_head (mgf_hash h : HashAlgorithm)
      (label msg seed : bytes) (k : nat) :
  exists rest,
    rsa.oaep_encode digest mgf_hash h label msg seed k = x00 :: rest.
Proof. eexists. reflexivity. Qed.

End Digest.

Lemma urandom_length (size : nat) (rng : entropy) :
  exists data rng',
    os.urandom size rng = (Ok data, rng') /\ length data = size.
Proof.
  do 2 eexists. split; [reflexivity|]. now rewrite length_map, length_seq.
Qed.

Section Package.

Variable digest : HashAlgorithm -> bytes -> bytes.
Hypothesis digest_length : forall h data, length (digest h data) = digest_size h.

Variable key : rsa.RSAPrivateKey.
Hypothesis key_ok : key_pair key.

Lemma rsa_oaep_roundtrip (mgf_hash h : HashAlgorithm) (label : option bytes)
      (msg : bytes) (rng : entropy) :
  length msg + 2 * digest_size h + 2 <= rsa.key_bytes (rsa.public_key key) ->
  exists ct rng',
    rsa.encrypt digest (rsa.public_key key) msg (OAEP (MGF1 mgf_hash) h label) rng = (Ok ct, rng')
    /\ rsa.decrypt digest key ct (OAEP (MGF1 mgf_hash) h label) = Ok msg.
Proof.
  intros Hk. unfold rsa.encrypt, rsa.decrypt.
  set (k := rsa.key_bytes (rsa.public_key key)) in *.
  replace (k <? length msg + 2 * digest_size h + 2) with false
    by (symmetry; apply Nat.ltb_ge; lia).
  destruct (urandom_length (digest_size h) rng) as (seed & rng' & Hu & Hseed).
  unfold sbind, sret. rewrite Hu.
  set (em := rsa.oaep_encode digest mgf_hash h (rsa.label_bytes label) msg seed k).
  assert (Hlen : length em = k) by (apply oaep_encode_length; assumption).
  pose proof (modulus_bytes key key_ok) as [Hlo Hhi]. fold k in Hlo, Hhi.
  assert (Hem : (0 <= int_from_bytes em < rsa.n (rsa.public_key key))%Z).
  { destruct (oaep_encode_head digest mgf_hash h (rsa.label_bytes label) msg seed k)
      as (rest & Hrest).
    fold em in Hrest. rewrite Hrest in *. cbn [length] in Hlen.
    rewrite int_from_bytes_cons.
    pose proof (int_from_bytes_range rest) as Hr.
    replace (length rest) with (k - 1) in * by lia.
    change (byte_to_Z x00) with 0%Z. lia. }
  set (c := rsa.public_op (rsa.public_key key) (int_from_bytes em)).
  assert (Hc : (0 <= c < rsa.n (rsa.public_key key))%Z) by (apply public_op_range, key_ok).
  do 2 eexists. split; [reflexivity|].
  rewrite int_to_bytes_length, Nat.eqb_refl. cbn [negb].
  replace (k <? 2 * digest_size h + 2) with false
    by (symmetry; apply Nat.ltb_ge; lia).
  rewrite int_from_to_bytes by lia.
  replace (rsa.n (rsa.public_key key) <=? c)%Z with false by (symmetry; apply Z.leb_gt; lia).
  unfold c. rewrite private_public_op by assumption.
  rewrite <- Hlen at 1. rewrite int_to_from_bytes.
  unfold em. rewrite oaep_decode_encode by assumption. reflexivity.
Qed.

End Package.

(** ** Bit masks *)

Lemma and_xor_mask (m d k : byte) :
  and_byte m (xor_byte (and_byte m (xor_byte d k)) k) = and_byte m d.
Proof.
  byte_bits m. byte_bits d. byte_bits k.
  unfold and_byte, xor_byte. rewrite !Byte.to_bits_of_bits.
  repeat (f_equal; try btauto).
Qed.

Lemma and_byte_idem (m b : byte) : and_byte m (and_byte m b) = and_byte m b.
Proof.
  byte_bits m. byte_bits b.
  unfold and_byte. rewrite !Byte.to_bits_of_bits.
  repeat (f_equal; try btauto).
Qed.

Lemma leading_mask_bound (z : nat) (b : byte) :
  z <= 7 -> (byte_to_Z (and_byte (rsa.leading_mask z) b) < 2 ^ Z.of_nat (8 - z))%Z.
Proof.
  intros Hz.
  assert (H : forallb (fun z =>
              forallb (fun b =>
                (byte_to_Z (and_byte (rsa.leading_mask z) b)
                 <? 2 ^ Z.of_nat (8 - z))%Z) all_bytes) (seq 0 8) = true)
    by (vm_compute; reflexivity).
  rewrite forallb_forall in H.
  specialize (H z ltac:(apply in_seq; lia)).
  apply Z.ltb_lt. exact (for_all_bytes _ H b).
Qed.

Lemma clear_leading_bits_xor (z : nat) (db mask : bytes) :
  length db <= length mask ->
  rsa.clear_leading_bits z
    (xor_bytes (rsa.clear_leading_bits z (xor_bytes db mask)) mask)
  = rsa.clear_leading_bits z db.
Proof.
  intros Hl. destruct db as [|d0 db], mask as [|k0 mask];
    cbn [length] in Hl; try reflexivity; try lia.
  unfold xor_bytes. cbn [combine map fst snd rsa.clear_leading_bits].
  rewrite and_xor_mask. f_equal.
  apply xor_bytes_cancel. lia.
Qed.

Lemma clear_leading_bits_idem (z : nat) (l : bytes) :
  rsa.clear_leading_bits z (rsa.clear_leading_bits z l)
  = rsa.clear_leading_bits z l.
Proof.
  destruct l as [|b l]; [reflexivity|].
  cbn [rsa.clear_leading_bits]. now rewrite and_byte_idem.
Qed.

Lemma clear_leading_bits_length (z : nat) (l : bytes) :
  length (rsa.clear_leading_bits z l) = length l.
Proof. destruct l; reflexivity. Qed.

Lemma clear_leading_bits_db (z count : nat) (salt : bytes) :
  z <= 7 ->
  rsa.clear_leading_bits z (repeat x00 count ++ [x01] ++ salt)
  = repeat x00 count ++ [x01] ++ salt.
Proof.
  intros Hz.
  assert (H : forallb (fun z =>
              Byte.eqb (and_byte (rsa.leading_mask z) x00) x00
              && Byte.eqb (and_byte (rsa.leading_mask z) x01) x01) (seq 0 8) = true)
    by (vm_compute; reflexivity).
  rewrite forallb_forall in H.
  specialize (H z ltac:(apply in_seq; lia)).
  apply andb_true_iff in H. destruct H as [H0 H1].
  apply Byte.byte_dec_bl in H0, H1.
  destruct count as [|count]; cbn [repeat app rsa.clear_leading_bits];
    congruence.
Qed.

Section Pss.

Variable digest : HashAlgorithm -> bytes -> bytes.
Hypothesis digest_length : forall h data, length (digest h data) = digest_size h.

Lemma pss_encode_length (mgf_hash h : HashAlgorithm) (msg salt : bytes)
      (em_bits : nat) :
  digest_size h + length salt + 2 <= (em_bits + 7) / 8 ->
  length (rsa.pss_encode digest mgf_hash h msg salt em_bits) = (em_bits + 7) / 8.
Proof.
  intros Hl. unfold rsa.pss_encode.
  rewrite !length_app, clear_leading_bits_length, xor_bytes_length,
    (mgf1_length digest digest_length), !length_app, repeat_length, digest_length.
  cbn [length]. lia.
Qed.

Lemma pss_verify_encode (mgf_hash h : HashAlgorithm) (msg salt : bytes)
      (em_bits : nat) :
  digest_size h + length salt + 2 <= (em_bits + 7) / 8 ->
  rsa.pss_verify digest mgf_hash h msg
    (rsa.pss_encode digest mgf_hash h msg salt em_bits) em_bits (length salt)
  = true.
Proof.
  intros Hl.
  pose proof (pss_encode_length mgf_hash h msg salt em_bits Hl) as Hlen.
  unfold rsa.pss_verify. rewrite Hlen. unfold rsa.pss_encode.
  set (hlen := digest_size h) in *.
  set (em_len := (em_bits + 7) / 8) in *.
  set (slen := length salt) in *.
  set (z := 8 * em_len - em_bits).
  assert (Hz : z <= 7) by (subst z em_len; lia).
  set (mhash := digest h msg).
  set (hh := digest h (repeat x00 8 ++ mhash ++ salt)).
  set (ps := repeat x00 (em_len - slen - hlen - 2)).
  set (db := ps ++ [x01] ++ salt).
  set (mask := rsa.mgf1 digest mgf_hash hh (em_len - hlen - 1)).
  set (masked_db := rsa.clear_leading_bits z (xor_bytes db mask)).
  assert (Hhh : length hh = hlen) by apply digest_length.
  assert (Hmask : length mask = em_len - hlen - 1)
    by apply (mgf1_length digest digest_length).
  assert (Hdb : length db = em_len - hlen - 1).
  { unfold db, ps. rewrite !length_app, repeat_length. cbn [length]. lia. }
  assert (Hmdb : length masked_db = em_len - hlen - 1).
  { unfold masked_db.
    rewrite clear_leading_bits_length, xor_bytes_length. lia. }
  assert (Hfirst : firstn (em_len - hlen - 1) (masked_db ++ hh ++ [xbc])
                   = masked_db).
  { rewrite firstn_app, Hmdb, Nat.sub_diag, firstn_all2 by lia.
    cbn [firstn]. apply app_nil_r. }
  assert (Hhash : firstn hlen (skipn (em_len - hlen - 1)
                                 (masked_db ++ hh ++ [xbc])) = hh).
  { rewrite skipn_app, Hmdb, Nat.sub_diag, skipn_all2 by lia.
    cbn [skipn app]. rewrite firstn_app, Hhh, Nat.sub_diag, firstn_all2 by lia.
    cbn [firstn]. apply app_nil_r. }
  rewrite !Hfirst, !Hhash. fold mask.
  assert (Hrec : rsa.clear_leading_bits z (xor_bytes masked_db mask) = db).
  { unfold masked_db. rewrite clear_leading_bits_xor by lia.
    apply clear_leading_bits_db, Hz. }
  rewrite !Hrec.
  assert (Hsalt : skipn (em_len - hlen - slen - 1) db = salt).
  { unfold db. rewrite app_assoc, skipn_app.
    rewrite skipn_all2 by (unfold ps; rewrite length_app, repeat_length;
                           cbn [length]; lia).
    replace (em_len - hlen - slen - 1 - length (ps ++ [x01])) with 0
      by (unfold ps; rewrite length_app, repeat_length; cbn [length]; lia).
    reflexivity. }
  assert (Hps : firstn (em_len - hlen - slen - 1) db
                = repeat x00 (em_len - hlen - slen - 2) ++ [x01]).
  { unfold db. rewrite app_assoc, firstn_app.
    rewrite firstn_all2 by (unfold ps; rewrite length_app, repeat_length;
                            cbn [length]; lia).
    replace (em_len - hlen - slen - 1 - length (ps ++ [x01])) with 0
      by (unfold ps; rewrite length_app, repeat_length; cbn [length]; lia).
    cbn [firstn]. rewrite app_nil_r. unfold ps.
    replace (em_len - slen - hlen - 2) with (em_len - hlen - slen - 2) by lia.
    reflexivity. }
  rewrite Hsalt, Hps. fold mhash. fold hh.
  assert (Hidem : rsa.clear_leading_bits z masked_db = masked_db)
    by (unfold masked_db; apply clear_leading_bits_idem).
  rewrite Hidem, !bytes_eqb_refl.
  rewrite !app_assoc, last_last.
  replace (hlen + slen + 2 <=? em_len) with true
    by (symmetry; apply Nat.leb_le; lia).
  rewrite Nat.eqb_refl. reflexivity.
Qed.

Lemma pss_encode_bound (mgf_hash h : HashAlgorithm) (msg salt : bytes)
      (em_bits : nat) :
  digest_size h + length salt + 2 <= (em_bits + 7) / 8 ->
  (0 <= int_from_bytes (rsa.pss_encode digest mgf_hash h msg salt em_bits)
   < 2 ^ Z.of_nat em_bits)%Z.
Proof.
  intros Hl.
  pose proof (pss_encode_length mgf_hash h msg salt em_bits Hl) as Hlen.
  split; [apply int_from_bytes_range|].
  revert Hlen. unfold rsa.pss_encode.
  set (em_len := (em_bits + 7) / 8) in *.
  set (z := 8 * em_len - em_bits).
  assert (Hz : z <= 7) by (subst z em_len; lia).
  set (x := xor_bytes _ _).
  assert (Hx : length x = em_len - digest_size h - 1).
  { unfold x. rewrite xor_bytes_length, (mgf1_length digest digest_length),
      !length_app, repeat_length. cbn [length]. lia. }
  destruct x as [|b0 x]; cbn [length] in Hx; [lia|].
  cbn [rsa.clear_leading_bits app].
  set (rest := x ++ _). intros Hlen. cbn [length] in Hlen.
  rewrite int_from_bytes_cons.
  pose proof (leading_mask_bound z b0 Hz) as Hb.
  pose proof (byte_to_Z_range (and_byte (rsa.leading_mask z) b0)) as Hb0.
  pose proof (int_from_bytes_range rest) as Hr.
  replace (Z.of_nat em_bits) with (Z.of_nat (8 - z) + Z.of_nat (8 * length rest))%Z
    by (subst z; lia).
  rewrite Z.pow_add_r by lia. rewrite <- pow256.
  set (X := (256 ^ Z.of_nat (length rest))%Z) in *.
  set (P := (2 ^ Z.of_nat (8 - z))%Z) in *.
  nia.
Qed.

Variable key : rsa.RSAPrivateKey.
Hypothesis key_ok : key_pair key.

Lemma rsa_pss_roundtrip (mgf_hash h : HashAlgorithm) (s : SaltLength)
      (msg : bytes) (rng : entropy) :
  digest_size h + rsa.pss_salt_length (rsa.public_key key) h s + 2
  <= (rsa.key_size (rsa.public_key key) - 1 + 7) / 8 ->
  exists sig rng',
    rsa.sign digest key msg (PSS (MGF1 mgf_hash) s) h rng = (Ok sig, rng')
    /\ rsa.verify digest (rsa.public_key key) sig msg (PSS (MGF1 mgf_hash) s) h
       = Ok tt.
Proof.
  intros Hl. unfold rsa.sign, rsa.verify, rsa.pss_accepts.
  set (pub := rsa.public_key key) in *.
  set (em_bits := rsa.key_size pub - 1) in *.
  set (em_len := (em_bits + 7) / 8) in *.
  set (slen := rsa.pss_salt_length pub h s) in *.
  replace (em_len <? digest_size h + slen + 2) with false
    by (symmetry; apply Nat.ltb_ge; lia).
  destruct (urandom_length slen rng) as (salt & rng' & Hu & Hsalt).
  unfold sbind, sret. rewrite Hu.
  set (em := rsa.pss_encode digest mgf_hash h msg salt em_bits).
  assert (Hlen : length em = em_len)
    by (apply pss_encode_length; rewrite Hsalt; exact Hl).
  pose proof (modulus_bits key key_ok) as [Hlo Hhi].
  pose proof (modulus_bytes key key_ok) as [_ Hhi'].
  fold pub in Hlo, Hhi, Hhi'. fold em_bits in Hlo.
  assert (Hem : (0 <= int_from_bytes em < rsa.n pub)%Z).
  { pose proof (pss_encode_bound mgf_hash h msg salt em_bits
                  ltac:(rewrite Hsalt; exact Hl)). fold em in H. lia. }
  set (sg := rsa.private_op key (int_from_bytes em)).
  assert (Hs : (0 <= sg < rsa.n pub)%Z) by (apply private_op_range, key_ok).
  do 2 eexists. split; [reflexivity|].
  rewrite int_to_bytes_length, Nat.eqb_refl.
  rewrite int_from_to_bytes by lia.
  replace (sg <? rsa.n pub)%Z with true by (symmetry; apply Z.ltb_lt; lia).
  unfold sg, pub. rewrite public_private_op by assumption.
  pose proof (int_from_bytes_range em) as Hr. rewrite Hlen in Hr.
  replace (int_from_bytes em <? 256 ^ Z.of_nat em_len)%Z with true
    by (symmetry; apply Z.ltb_lt; lia).
  rewrite <- Hlen at 1. rewrite int_to_from_bytes.
  unfold em. rewrite <- Hsalt.
  rewrite pss_verify_encode by (rewrite Hsalt; exact Hl).
  reflexivity.
Qed.

(** Whatever the signature, [verify] with PSS returns or raises
    [InvalidSignature]. *)
Lemma rsa_verify_outcome (pub : rsa.RSAPublicKey) (mgf_hash h : HashAlgorithm)
      (s : SaltLength) (sig msg : bytes) :
  rsa.verify digest pub sig msg (PSS (MGF1 mgf_hash) s) h = Ok tt
  \/ rsa.verify digest pub sig msg (PSS (MGF1 mgf_hash) s) h
     = Raise InvalidSignature.
Proof. unfold rsa.verify. destruct (rsa.pss_accepts _ _ _ _ _ _ _); auto. Qed.

End Pss.

(** ** classes RSAPrivate and RSAPublic *)

Section RSATheorems.

Variable backend : RSABackend.


(** The backend's hash functions return digests of their size. *)
Hypothesis digest_length :
  forall h data, length (digest backend h data) = digest_size h.

(** C2.  Under a well-formed 2048-bit key pair, every message of at most
    190 bytes (the OAEP bound [256 - 2*32 - 2]) is encrypted by
    [RSAPublic.encrypt], and [RSAPrivate.decrypt] with the matching private
    key returns it; both sides use OAEP with SHA-256, MGF1 over SHA-256 and
    no label. *)
Theorem rsa_decrypt_encrypt (k : rsa.RSAPrivateKey) (msg : bytes)
        (rng : entropy) :
  key_pair k ->
  rsa.key_size (rsa.public_key k) = 2048 ->
  length msg <= 190 ->
  exists ct rng',
    RSAPublic.encrypt backend (public_of k) msg rng = (Ok ct, rng')
    /\ RSAPrivate.decrypt backend (private_of k) ct = Ok msg.
Proof.
  intros Hk Hbits Hlen.
  destruct (rsa_oaep_roundtrip (digest backend) digest_length k Hk
              SHA256 SHA256 None msg rng) as (ct & rng' & Henc & Hdec).
  { unfold rsa.key_bytes. rewrite Hbits. cbn [digest_size].
    change ((2048 + 7) / 8) with 256. lia. }
  exists ct, rng'. unfold RSAPublic.encrypt, RSAPrivate.decrypt, spropagate.
  cbn [public_of private_of RSAPublic.key RSAPrivate.key].
  rewrite Henc, Hdec. split; reflexivity.
Qed.


End RSATheorems.

(** C9 rests on the package's PEM codec for PKCS8, for the key at hand:
    serialization returns; loading what was written, with the password it
    was written under, gives the key back; loading it with another password
    is a [ValueError]. *)
Section PemTheorems.

Variable backend : RSABackend.
Variable k : rsa.RSAPrivateKey.

Hypothesis private_bytes_returns :
  forall a rng,
    password_of a <> Some [] ->
    exists pem rng',
      private_bytes backend k Encoding.PEM PrivateFormat.PKCS8 a rng
      = (Ok pem, rng').

Hypothesis load_private_bytes :
  forall a rng pem rng',
    private_bytes backend k Encoding.PEM PrivateFormat.PKCS8 a rng
    = (Ok pem, rng') ->
    load_pem_private_key backend pem (password_of a) = Ok k.

Hypothesis load_wrong_password :
  forall pw pw' rng pem rng',
    private_bytes backend k Encoding.PEM PrivateFormat.PKCS8
      (BestAvailableEncryption pw) rng = (Ok pem, rng') ->
    pw' <> pw ->
    load_pem_private_key backend pem (Some pw') = Raise ValueError.

(** What [format_pem] hands to [private_bytes]. *)
Lemma format_pem_private_bytes (self : RSAPrivate.t)
      (pw : option bytes) (rng : entropy) :
  pw <> Some [] ->
  exists a,
    password_of a = pw
    /\ RSAPrivate.format_pem backend self pw rng
       = spropagate
           (private_bytes backend (RSAPrivate.key self) Encoding.PEM
              PrivateFormat.PKCS8 a) rng.
Proof.
  intros Hpw. unfold RSAPrivate.format_pem, sbind, slift.
  destruct pw as [[|b pw]|]; [now elim Hpw| |].
  - exists (BestAvailableEncryption (b :: pw)). split; reflexivity.
  - exists NoEncryption. split; reflexivity.
Qed.


End PemTheorems.

(** With the empty password there is nothing to load: [format_pem] raises
    before the key is touched, whatever the backend. *)
Lemma format_pem_empty_password (backend : RSABackend) (self : RSAPrivate.t)
      (rng : entropy) :
  RSAPrivate.format_pem backend self (Some []) rng
  = (Raise (Foreign ValueError), rng).
Proof. reflexivity. Qed.

(** ** The toy RSA backend meets the assumptions *)

Lemma toy_digest_length (h : HashAlgorithm) (data : bytes) :
  length (digest Toy.rsa_backend h data) = digest_size h.
Proof. apply repeat_length. Qed.

Lemma key2048_pair : key_pair Toy.key2048.
Proof.
  unfold key_pair, Toy.key2048. cbn [rsa.public_key rsa.n rsa.e rsa.d].
  pose proof (Z.pow_pos_nonneg 2 2047) as Hpos.
  split; [lia|]. split; [lia|]. split; [lia|].
  intros m Hm. rewrite Z.mul_1_r, Z.pow_1_r. apply Z.mod_small. exact Hm.
Qed.

Lemma key2048_size : rsa.key_size (rsa.public_key Toy.key2048) = 2048.
Proof. vm_compute. reflexivity. Qed.

Lemma numbers_length (k : rsa.RSAPrivateKey) : length (Toy.numbers k) = 768.
Proof.
  unfold Toy.numbers. now rewrite !length_app, !int_to_bytes_length.
Qed.

Lemma parse_numbers (k : rsa.RSAPrivateKey) :
  fits k -> Toy.parse (Toy.numbers k) = k.
Proof.
  intros (Hn & He & Hd). destruct k as [d [e n]].
  cbn [rsa.public_key rsa.n rsa.e rsa.d] in *.
  unfold Toy.parse, Toy.parse_public, Toy.numbers.
  cbn [rsa.public_key rsa.n rsa.e rsa.d].
  pose proof (int_to_bytes_length n 256) as Ln.
  pose proof (int_to_bytes_length e 256) as Le.
  pose proof (int_to_bytes_length d 256) as Ld.
  assert (H1 : firstn 256 (int_to_bytes n 256 ++ int_to_bytes e 256
                             ++ int_to_bytes d 256) = int_to_bytes n 256).
  { rewrite firstn_app, Ln, Nat.sub_diag, firstn_all2 by lia.
    cbn [firstn]. apply app_nil_r. }
  assert (H2 : skipn 256 (int_to_bytes n 256 ++ int_to_bytes e 256
                            ++ int_to_bytes d 256)
               = int_to_bytes e 256 ++ int_to_bytes d 256).
  { rewrite skipn_app, Ln, Nat.sub_diag, skipn_all2 by lia. reflexivity. }
  assert (H3 : skipn 512 (int_to_bytes n 256 ++ int_to_bytes e 256
                            ++ int_to_bytes d 256)
               = int_to_bytes d 256).
  { rewrite app_assoc, skipn_app, skipn_all2 by (rewrite length_app; lia).
    rewrite length_app, Ln, Le. reflexivity. }
  rewrite H1, H2, H3.
  rewrite (@firstn_all2 _ 256 (int_to_bytes d 256)) by lia.
  rewrite firstn_app, Le, Nat.sub_diag.
  rewrite (@firstn_all2 _ 256 (int_to_bytes e 256)) by lia.
  rewrite firstn_O, app_nil_r.
  rewrite !int_from_to_bytes by assumption. reflexivity.
Qed.

Lemma key2048_fits : fits Toy.key2048.
Proof.
  unfold fits, Toy.key2048. cbn [rsa.public_key rsa.n rsa.e rsa.d].
  change (256 ^ 256)%Z with (2 ^ 2047 * 2)%Z.
  pose proof (Z.pow_pos_nonneg 2 2047). lia.
Qed.

Lemma toy_private_bytes_returns (k : rsa.RSAPrivateKey)
      (a : KeySerializationEncryption) (rng : entropy) :
  password_of a <> Some [] ->
  exists pem rng',
    private_bytes Toy.rsa_backend k Encoding.PEM PrivateFormat.PKCS8 a rng
    = (Ok pem, rng').
Proof. intros _. destruct a; do 2 eexists; reflexivity. Qed.

Lemma toy_load_private_bytes (k : rsa.RSAPrivateKey)
      (a : KeySerializationEncryption) (rng : entropy) (pem : bytes)
      (rng' : entropy) :
  fits k ->
  private_bytes Toy.rsa_backend k Encoding.PEM PrivateFormat.PKCS8 a rng
  = (Ok pem, rng') ->
  load_pem_private_key Toy.rsa_backend pem (password_of a) = Ok k.
Proof.
  intros Hfit.
  cbn [private_bytes load_pem_private_key Toy.rsa_backend].
  unfold Toy.toy_private_bytes.
  pose proof (numbers_length k) as Hlen.
  pose proof (parse_numbers k Hfit) as Hparse.
  remember (Toy.numbers k) as body eqn:Hbody. clear Hbody.
  destruct a as [|pw]; unfold sbind, sret, os.urandom; intros H;
    injection H as <- _; cbn [password_of Toy.toy_load_private].
  - now rewrite Hlen, Nat.eqb_refl, Hparse.
  - change (map rng (seq 0 1) ++ body ++ pw) with (rng 0 :: body ++ pw).
    change (skipn 769 (rng 0 :: body ++ pw)) with (skipn 768 (body ++ pw)).
    change (skipn 1 (rng 0 :: body ++ pw)) with (body ++ pw).
    change (length (rng 0 :: body ++ pw)) with (S (length (body ++ pw))).
    rewrite length_app, Hlen.
    rewrite skipn_app, Hlen, Nat.sub_diag, (@skipn_all2 _ 768 body) by lia.
    rewrite firstn_app, Hlen, Nat.sub_diag, (@firstn_all2 _ 768 body) by lia.
    rewrite firstn_O, app_nil_r. cbn [skipn app].
    rewrite bytes_eqb_refl, Hparse, andb_true_r.
    replace (769 <=? S (768 + length pw)) with true
      by (symmetry; apply Nat.leb_le; lia).
    reflexivity.
Qed.

Lemma toy_load_wrong_password (k : rsa.RSAPrivateKey)
      (pw pw' : bytes) (rng : entropy) (pem : bytes) (rng' : entropy) :
  private_bytes Toy.rsa_backend k Encoding.PEM PrivateFormat.PKCS8
    (BestAvailableEncryption pw) rng = (Ok pem, rng') ->
  pw' <> pw ->
  load_pem_private_key Toy.rsa_backend pem (Some pw') = Raise ValueError.
Proof.
  cbn [private_bytes load_pem_private_key Toy.rsa_backend].
  unfold Toy.toy_private_bytes.
  pose proof (numbers_length k) as Hlen.
  remember (Toy.numbers k) as body eqn:Hbody. clear Hbody.
  unfold sbind, sret, os.urandom. intros H Hne. injection H as <- _.
  cbn [Toy.toy_load_private].
  change (map rng (seq 0 1) ++ body ++ pw) with (rng 0 :: body ++ pw).
  change (skipn 769 (rng 0 :: body ++ pw)) with (skipn 768 (body ++ pw)).
  rewrite skipn_app, Hlen, Nat.sub_diag, (@skipn_all2 _ 768 body) by lia.
  cbn [skipn app].
  rewrite bytes_eqb_neq by congruence.
  rewrite andb_false_r. reflexivity.
Qed.

Lemma rsa_decrypt_encrypt_witness :
  exists ct rng',
    RSAPublic.encrypt Toy.rsa_backend (public_of Toy.key2048) [x61; x62]
      Toy.counter = (Ok ct, rng')
    /\ RSAPrivate.decrypt Toy.rsa_backend (private_of Toy.key2048) ct
       = Ok [x61; x62].
Proof.
  apply (rsa_decrypt_encrypt Toy.rsa_backend toy_digest_length
           Toy.key2048 [x61; x62] Toy.counter key2048_pair key2048_size).
  cbn [length]. lia.
Defined.




(** * Further properties

    More about the three classes: how [AES.decrypt] relates to [AES.encrypt]
    in the other direction, how CBC chains, what a call leaves on the object
    store, the bounds and failures of the RSA methods, their use of
    randomness, and [RSAPrivate.generate_key]. *)

Lemma ok_inj {E A} (a b : A) : @Ok E A a = Ok b -> a = b.
Proof. congruence. Qed.

(** ** The AES block cipher, the other way round

    The cipher of FIPS 197 also undoes its inverse cipher. *)

Lemma sbox_inv_sbox (a : byte) : FIPS197.sbox (FIPS197.inv_sbox a) = a.
Proof.
  apply Byte.byte_dec_bl.
  apply (for_all_bytes (fun a => Byte.eqb (FIPS197.sbox (FIPS197.inv_sbox a)) a)).
  vm_compute. reflexivity.
Qed.

Lemma sub_bytes_inv_sub_bytes (s : bytes) :
  FIPS197.sub_bytes (FIPS197.inv_sub_bytes s) = s.
Proof.
  unfold FIPS197.inv_sub_bytes, FIPS197.sub_bytes.
  rewrite map_map. rewrite <- (map_id s) at 2.
  apply map_ext. exact sbox_inv_sbox.
Qed.

Ltac as_block H :=
  apply length_16 in H;
  destruct H as (?a & ?a & ?a & ?a & ?a & ?a & ?a & ?a & ?a & ?a & ?a & ?a
                 & ?a & ?a & ?a & ?a & ->).

Lemma shift_rows_inv_shift_rows (s : bytes) :
  length s = 16 -> FIPS197.shift_rows (FIPS197.inv_shift_rows s) = s.
Proof. intros H. as_block H. reflexivity. Qed.

Lemma mix_column_inv_mix_column (a b c d : byte) :
  match FIPS197.inv_mix_column a b c d with
  | [a'; b'; c'; d'] => FIPS197.mix_column a' b' c' d'
  | _ => []
  end = [a; b; c; d].
Proof.
  byte_bits a. byte_bits b. byte_bits c. byte_bits d.
  unfold FIPS197.mix_column, FIPS197.inv_mix_column, FIPS197.xtime, xor_byte.
  cbv beta iota zeta.
  repeat rewrite !Byte.to_bits_of_bits; cbv beta iota zeta.
  repeat (f_equal; try btauto).
Qed.

Lemma inv_mix_columns_length (s : bytes) :
  length s = 16 -> length (FIPS197.inv_mix_columns s) = 16.
Proof. intros H. as_block H. reflexivity. Qed.

Lemma mix_columns_inv_mix_columns (s : bytes) :
  length s = 16 -> FIPS197.mix_columns (FIPS197.inv_mix_columns s) = s.
Proof.
  intros H. apply length_16 in H.
  destruct H as (a0 & a1 & a2 & a3 & a4 & a5 & a6 & a7 & a8 & a9 & a10 & a11
                 & a12 & a13 & a14 & a15 & ->).
  pose proof (mix_column_inv_mix_column a0 a1 a2 a3) as H0.
  pose proof (mix_column_inv_mix_column a4 a5 a6 a7) as H1.
  pose proof (mix_column_inv_mix_column a8 a9 a10 a11) as H2.
  pose proof (mix_column_inv_mix_column a12 a13 a14 a15) as H3.
  cbn [FIPS197.inv_mix_columns].
  unfold FIPS197.inv_mix_column in *.
  cbn [app FIPS197.mix_columns].
  rewrite H0, H1, H2, H3. reflexivity.
Qed.

Lemma inv_round_length (k s : bytes) :
  length k = 16 -> length s = 16 -> length (FIPS197.inv_round k s) = 16.
Proof.
  intros Hk Hs. unfold FIPS197.inv_round, FIPS197.inv_sub_bytes.
  rewrite length_map. reflexivity.
Qed.

Lemma inv_final_round_length (k s : bytes) :
  length k = 16 -> length s = 16 -> length (FIPS197.inv_final_round k s) = 16.
Proof.
  intros Hk Hs. unfold FIPS197.inv_final_round, FIPS197.inv_sub_bytes.
  rewrite length_map. reflexivity.
Qed.

Lemma round_inv_round (k s : bytes) :
  length k = 16 -> length s = 16 ->
  FIPS197.round k (FIPS197.inv_round k s) = s.
Proof.
  intros Hk Hs. unfold FIPS197.inv_round, FIPS197.round.
  rewrite sub_bytes_inv_sub_bytes.
  rewrite shift_rows_inv_shift_rows
    by (apply inv_mix_columns_length, add_round_key_length; assumption).
  rewrite mix_columns_inv_mix_columns by (apply add_round_key_length; assumption).
  now apply add_round_key_twice.
Qed.

Lemma final_round_inv_final_round (k s : bytes) :
  length k = 16 -> length s = 16 ->
  FIPS197.final_round k (FIPS197.inv_final_round k s) = s.
Proof.
  intros Hk Hs. unfold FIPS197.inv_final_round, FIPS197.final_round.
  rewrite sub_bytes_inv_sub_bytes.
  rewrite shift_rows_inv_shift_rows by (apply add_round_key_length; assumption).
  now apply add_round_key_twice.
Qed.

Lemma inv_rounds_length (ks : list bytes) :
  Forall (fun k => length k = 16) ks ->
  forall s, length s = 16 -> length (FIPS197.inv_rounds ks s) = 16.
Proof.
  induction ks as [|k ks IH]; intros Hks s Hs; [exact Hs|].
  inversion Hks as [|? ? Hk Hks']; subst.
  cbn [FIPS197.inv_rounds]. destruct ks as [|k' ks].
  - now apply inv_final_round_length.
  - apply inv_round_length; [exact Hk | now apply IH].
Qed.

Lemma rounds_inv_rounds (ks : list bytes) :
  Forall (fun k => length k = 16) ks ->
  forall s, length s = 16 -> FIPS197.rounds ks (FIPS197.inv_rounds ks s) = s.
Proof.
  induction ks as [|k ks IH]; intros Hks s Hs; [reflexivity|].
  inversion Hks as [|? ? Hk Hks']; subst.
  cbn [FIPS197.rounds FIPS197.inv_rounds]. destruct ks as [|k' ks].
  - now apply final_round_inv_final_round.
  - rewrite round_inv_round by (try apply inv_rounds_length; assumption).
    now apply IH.
Qed.

Lemma inv_cipher_length (key block : bytes) :
  length block = 16 -> length (FIPS197.inv_cipher key block) = 16.
Proof.
  intros Hb. unfold FIPS197.inv_cipher.
  pose proof (round_keys_length key) as Hks.
  destruct (FIPS197.round_keys key) as [|k0 ks]; [exact Hb|].
  inversion Hks; subst.
  apply add_round_key_length; [assumption|]. now apply inv_rounds_length.
Qed.

Lemma cipher_inv_cipher (key block : bytes) :
  length block = 16 ->
  FIPS197.cipher key (FIPS197.inv_cipher key block) = block.
Proof.
  intros Hb. unfold FIPS197.cipher, FIPS197.inv_cipher.
  pose proof (round_keys_length key) as Hks.
  destruct (FIPS197.round_keys key) as [|k0 ks]; [reflexivity|].
  inversion Hks; subst.
  rewrite add_round_key_twice by (try apply inv_rounds_length; assumption).
  now apply rounds_inv_rounds.
Qed.

(** ** CBC and the unpadder, read backwards *)

Section CBCInverse.

Variable c : ciphers.Cipher.

Let E := aes_encrypt_block (ciphers.backend c) (ciphers.key (ciphers.algorithm c)).
Let D := aes_decrypt_block (ciphers.backend c) (ciphers.key (ciphers.algorithm c)).

Hypothesis D_length : forall blk, length blk = 16 -> length (D blk) = 16.

Lemma cbc_blocks_decrypt_length (n : nat) :
  forall prev data,
    length prev = 16 -> length data = n * 16 ->
    length (snd (ciphers.cbc_blocks c false n prev data)) = n * 16.
Proof.
  induction n as [|n IH]; intros prev data Hp Hd; [reflexivity|].
  cbn [ciphers.cbc_blocks ciphers.cbc_block]. fold D.
  assert (Hb : length (firstn 16 data) = 16) by (rewrite length_firstn; lia).
  specialize (IH (firstn 16 data) (skipn 16 data) Hb).
  destruct (ciphers.cbc_blocks c false n _ (skipn 16 data)) as [f outs].
  cbn [snd] in *. rewrite length_app, xor_bytes_length, D_length, IH, Hp.
  - lia.
  - rewrite length_skipn. lia.
  - exact Hb.
Qed.

Hypothesis E_D : forall blk, length blk = 16 -> E (D blk) = blk.

Lemma cbc_blocks_encrypt_decrypt (n : nat) :
  forall prev data,
    length prev = 16 -> length data = n * 16 ->
    snd (ciphers.cbc_blocks c true n prev
           (snd (ciphers.cbc_blocks c false n prev data))) = data.
Proof.
  induction n as [|n IH]; intros prev data Hp Hd.
  - simpl. destruct data; [reflexivity | discriminate].
  - cbn [ciphers.cbc_blocks ciphers.cbc_block]. fold D.
    set (blk := firstn 16 data).
    assert (Hb : length blk = 16) by (subst blk; rewrite length_firstn; lia).
    assert (Hr : length (skipn 16 data) = n * 16)
      by (rewrite length_skipn; lia).
    assert (Ho : length (xor_bytes (D blk) prev) = 16)
      by (rewrite xor_bytes_length, D_length; lia).
    specialize (IH blk (skipn 16 data) Hb Hr).
    destruct (ciphers.cbc_blocks c false n blk (skipn 16 data)) as [f outs].
    cbn [fst snd] in *.
    cbn [ciphers.cbc_blocks ciphers.cbc_block]. fold E.
    rewrite firstn_app, skipn_app, Ho, Nat.sub_diag.
    rewrite firstn_all2, skipn_all2 by lia.
    cbn [firstn skipn app]. rewrite app_nil_r.
    rewrite xor_bytes_cancel by (rewrite D_length; lia).
    rewrite E_D by assumption.
    destruct (ciphers.cbc_blocks c true n blk outs) as [f' ins].
    cbn [fst snd] in *. subst ins.
    apply firstn_skipn.
Qed.

Hypothesis iv_length :
  length (ciphers.initialization_vector (ciphers.mode c)) = 16.

Lemma cbc_decrypt_length (data : bytes) :
  length data mod 16 = 0 -> length (cbc_decrypt c data) = length data.
Proof.
  intros Hm. unfold cbc_decrypt.
  rewrite cbc_blocks_decrypt_length; [lia | assumption | lia].
Qed.

Lemma cbc_encrypt_decrypt (data : bytes) :
  length data mod 16 = 0 -> cbc_encrypt c (cbc_decrypt c data) = data.
Proof.
  intros Hm. unfold cbc_encrypt.
  rewrite cbc_decrypt_length by assumption.
  apply cbc_blocks_encrypt_decrypt; [assumption | lia].
Qed.

End CBCInverse.

Lemma forallb_eqb_repeat (x : byte) (l : bytes) :
  forallb (Byte.eqb x) l = true -> l = repeat x (length l).
Proof.
  induction l as [|y l IH]; cbn [forallb length repeat]; [reflexivity|].
  intros H. apply andb_prop in H. destruct H as [Hy Hl].
  apply Byte.byte_dec_bl in Hy. subst y. now rewrite <- IH.
Qed.

Lemma byte_of_to_nat (b : byte) : byte_of_nat (Byte.to_nat b) = b.
Proof. unfold byte_of_nat. now rewrite Byte.of_to_nat. Qed.

(** What the unpadder accepts is a padded message: when [update] followed
    by [finalize] returns on a whole number of blocks, the input is the
    PKCS7 padding of what they return. *)
Lemma unpadder_accepts (p : padding.PKCS7) (plaintext rest : bytes) :
  padding.block_size p = 128 ->
  length plaintext mod 16 = 0 ->
  padding.unpadder_finalize
    (fst (padding.unpadder_update (padding.unpadder p) plaintext)) = Ok rest ->
  plaintext
  = pkcs7_pad (snd (padding.unpadder_update (padding.unpadder p) plaintext) ++ rest).
Proof.
  intros p_bits Hm.
  unfold padding.unpadder_update, padding.unpadder_finalize, padding.unpadder.
  cbn [padding.buffer padding.ctx_block_size app fst snd]. rewrite p_bits.
  change (128 / 8) with 16. rewrite Nat.max_0_r.
  set (k := (length plaintext / 16 - 1) * 16).
  set (buf := skipn k plaintext).
  destruct (length buf =? 16) eqn:Hlen; cbn [negb]; [|discriminate].
  apply Nat.eqb_eq in Hlen.
  unfold padding.check_pkcs7_padding.
  set (pad := last buf x00). set (n := Byte.to_nat pad).
  destruct (0 <? n) eqn:H0; cbn [andb negb]; [|discriminate].
  destruct (n <=? 16) eqn:H16; cbn [andb negb]; [|discriminate].
  destruct (forallb (Byte.eqb pad) (skipn (16 - n) buf)) eqn:Hall;
    cbn [negb]; [|discriminate].
  intros H. injection H as <-.
  apply Nat.ltb_lt in H0. apply Nat.leb_le in H16.
  apply forallb_eqb_repeat in Hall.
  rewrite length_skipn, Hlen in Hall.
  replace (16 - (16 - n)) with n in Hall by lia.
  assert (Hk : length (firstn k plaintext) = k).
  { rewrite length_firstn. subst buf. rewrite length_skipn in Hlen. lia. }
  unfold pkcs7_pad.
  rewrite length_app, Hk, length_firstn, Hlen.
  replace (Nat.min (16 - n) 16) with (16 - n) by lia.
  replace (16 - (k + (16 - n)) mod 16) with n
    by (subst k; rewrite Nat.add_comm, Nat.Div0.mod_add, Nat.mod_small; lia).
  rewrite <- (firstn_skipn k plaintext) at 1. fold buf.
  rewrite <- app_assoc. f_equal.
  rewrite <- (firstn_skipn (16 - n) buf) at 1. f_equal.
  rewrite Hall. subst n. now rewrite byte_of_to_nat.
Qed.

(** ** [AES.decrypt], read backwards *)

Lemma fips197_inverse_block_length (k blk : bytes) :
  In (length k) AES.KEY_SIZES -> length blk = 16 ->
  length (aes_decrypt_block FIPS197.backend k blk) = 16.
Proof. intros _. apply inv_cipher_length. Qed.

Lemma fips197_block_inverse_r (k blk : bytes) :
  In (length k) AES.KEY_SIZES -> length blk = 16 ->
  aes_encrypt_block FIPS197.backend k (aes_decrypt_block FIPS197.backend k blk)
  = blk.
Proof. intros _. apply cipher_inv_cipher. Qed.

Section AESInverse.

Variable backend : CipherBackend.

(** The backend's AES decryption maps a 16-byte block to a 16-byte block. *)
Hypothesis decrypt_block_length :
  forall k blk,
    In (length k) AES.KEY_SIZES -> length blk = 16 ->
    length (aes_decrypt_block backend k blk) = 16.

(** What [decrypt] returns is the CBC decryption with its padding taken off. *)
Lemma decrypt_returns_inv (key iv ct msg : bytes) :
  In (length key) AES.KEY_SIZES -> length iv = 16 ->
  AES.decrypt (instance backend key iv) ct = Ok msg ->
  length ct mod 16 = 0
  /\ cbc_decrypt (AES.cipher (instance backend key iv)) ct = pkcs7_pad msg.
Proof.
  intros Hk Hiv H.
  destruct (Nat.eq_dec (length ct mod 16) 0) as [Hm|Hm].
  2:{ rewrite decrypt_partial_block in H by assumption. discriminate. }
  split; [exact Hm|].
  rewrite decrypt_instance in H by assumption.
  set (pt := cbc_decrypt (AES.cipher (instance backend key iv)) ct) in *.
  assert (Hpt : length pt mod 16 = 0).
  { subst pt. rewrite cbc_decrypt_length; try assumption.
    intros blk. now apply decrypt_block_length. }
  pose proof (@unpadder_accepts (AES.padding (instance backend key iv)) pt) as Hu.
  destruct (padding.unpadder_update _ pt) as [u head]. cbn [fst snd] in Hu.
  destruct (padding.unpadder_finalize u) as [rest|e]; [|discriminate].
  cbn [propagate bind] in H. injection H as <-.
  now apply Hu.
Qed.

(** X1.  Whatever [decrypt] returns is shorter than the ciphertext by the
    padding, 1 to 16 bytes, and the ciphertext is a whole number of blocks:
    [len(ct) = len(m) + (16 - len(m) % 16)].  So a ciphertext of fewer than
    16 bytes, the empty one included, always makes [decrypt] raise the
    package's [ValueError]. *)
Theorem aes_decrypt_length (key iv : bytes) (self : AES.t) (ct : bytes) :
  AES.init backend key iv = Ok self ->
  (forall msg,
      AES.decrypt self ct = Ok msg ->
      length ct = length msg + (16 - length msg mod 16)
      /\ length ct mod 16 = 0
      /\ length msg < length ct <= length msg + 16)
  /\ (length ct < 16 -> AES.decrypt self ct = Raise (Foreign ValueError)).
Proof.
  intros Hinit. apply init_inv in Hinit. destruct Hinit as (Hk & Hiv & ->).
  assert (Hlen : forall msg,
             AES.decrypt (instance backend key iv) ct = Ok msg ->
             length ct = length msg + (16 - length msg mod 16)).
  { intros msg H. apply decrypt_returns_inv in H; try assumption.
    destruct H as [Hm H]. apply (f_equal (@length byte)) in H.
    rewrite pkcs7_pad_length, cbc_decrypt_length in H; try assumption.
    intros blk. now apply decrypt_block_length. }
  split.
  - intros msg H. apply Hlen in H. lia.
  - intros Hshort.
    destruct (AES.decrypt (instance backend key iv) ct) as [msg|e] eqn:H.
    + specialize (Hlen msg eq_refl). lia.
    + apply decrypt_raises in H. now subst e.
Qed.

Hypothesis encrypt_block_length :
  forall k blk,
    In (length k) AES.KEY_SIZES -> length blk = 16 ->
    length (aes_encrypt_block backend k blk) = 16.

Hypothesis decrypt_encrypt_block :
  forall k blk,
    In (length k) AES.KEY_SIZES -> length blk = 16 ->
    aes_decrypt_block backend k (aes_encrypt_block backend k blk) = blk.

(** The backend's AES encryption undoes its decryption of a block. *)
Hypothesis encrypt_decrypt_block :
  forall k blk,
    In (length k) AES.KEY_SIZES -> length blk = 16 ->
    aes_encrypt_block backend k (aes_decrypt_block backend k blk) = blk.

Lemma decrypt_encrypt_instance (key iv msg : bytes) :
  In (length key) AES.KEY_SIZES -> length iv = 16 ->
  AES.decrypt (instance backend key iv)
    (cbc_encrypt (AES.cipher (instance backend key iv)) (pkcs7_pad msg))
  = Ok msg.
Proof.
  intros Hk Hiv.
  assert (Hm : length (pkcs7_pad msg) mod 16 = 0)
    by (rewrite pkcs7_pad_blocks; apply Nat.Div0.mod_mul).
  assert (He : forall blk, length blk = 16 ->
                 length (aes_encrypt_block backend key blk) = 16)
    by (intros blk; now apply encrypt_block_length).
  rewrite decrypt_instance by (rewrite cbc_encrypt_length; assumption).
  rewrite cbc_decrypt_encrypt; try assumption.
  - pose proof (@unpadder_run (AES.padding (instance backend key iv))
                  eq_refl msg) as Hu.
    destruct (padding.unpadder_update _ _) as [u head].
    destruct Hu as (rest & -> & <-). reflexivity.
  - intros blk. now apply decrypt_encrypt_block.
Qed.

(** X2.  [decrypt] accepts exactly what [encrypt] produces: on an instance,
    [decrypt(ct)] returns [m] if and only if [encrypt(m)] returns [ct].  So
    the two methods are inverse bijections between the messages and the
    ciphertexts [decrypt] accepts, and every other byte string makes
    [decrypt] raise. *)
Theorem aes_decrypt_iff_encrypt (key iv : bytes) (self : AES.t)
        (ct msg : bytes) :
  AES.init backend key iv = Ok self ->
  (AES.decrypt self ct = Ok msg <-> AES.encrypt self msg = Ok ct).
Proof.
  intros Hinit. apply init_inv in Hinit. destruct Hinit as (Hk & Hiv & ->).
  rewrite encrypt_instance. split.
  - intros H. apply decrypt_returns_inv in H; try assumption.
    destruct H as [Hm H]. rewrite <- H. f_equal.
    apply cbc_encrypt_decrypt; try assumption.
    + intros blk. now apply decrypt_block_length.
    + intros blk. now apply encrypt_decrypt_block.
  - intros H. injection H as <-. now apply decrypt_encrypt_instance.
Qed.

End AESInverse.

Lemma aes_decrypt_length_witness :
  (forall msg,
      AES.decrypt (instance FIPS197.backend Toy.key16 Toy.iv16) [x00; x01]
      = Ok msg ->
      length [x00; x01] = length msg + (16 - length msg mod 16)
      /\ length [x00; x01] mod 16 = 0
      /\ length msg < length [x00; x01] <= length msg + 16)
  /\ (length [x00; x01] < 16 ->
      AES.decrypt (instance FIPS197.backend Toy.key16 Toy.iv16) [x00; x01]
      = Raise (Foreign ValueError)).
Proof.
  apply (aes_decrypt_length FIPS197.backend fips197_inverse_block_length
           Toy.key16 Toy.iv16).
  reflexivity.
Defined.

Lemma aes_decrypt_iff_encrypt_witness :
  AES.decrypt (instance FIPS197.backend Toy.key16 Toy.iv16)
    [xa2; x86; x2d; x6d; x14; x6d; x97; x1e; x89; x77; x6c; x2a; xbb; x5c;
     x78; x65]
  = Ok [x61; x62; x63]
  <-> AES.encrypt (instance FIPS197.backend Toy.key16 Toy.iv16)
        [x61; x62; x63]
      = Ok [xa2; x86; x2d; x6d; x14; x6d; x97; x1e; x89; x77; x6c; x2a; xbb;
            x5c; x78; x65].
Proof.
  apply (aes_decrypt_iff_encrypt FIPS197.backend
           fips197_inverse_block_length fips197_block_length
           fips197_block_inverse fips197_block_inverse_r
           Toy.key16 Toy.iv16).
  reflexivity.
Defined.

(** ** CBC chaining *)

Lemma cbc_blocks_cipher (c c' : ciphers.Cipher) (enc : bool) (n : nat) :
  ciphers.backend c = ciphers.backend c' ->
  ciphers.key (ciphers.algorithm c) = ciphers.key (ciphers.algorithm c') ->
  forall prev data,
    ciphers.cbc_blocks c enc n prev data = ciphers.cbc_blocks c' enc n prev data.
Proof.
  intros Hb Hk. induction n as [|n IH]; intros prev data; [reflexivity|].
  cbn [ciphers.cbc_blocks]. unfold ciphers.cbc_block. rewrite Hb, Hk.
  destruct enc; cbv zeta; rewrite IH; reflexivity.
Qed.

Lemma cbc_blocks_app (c : ciphers.Cipher) (enc : bool) (n1 n2 : nat) :
  forall prev d1 d2,
    length d1 = n1 * 16 ->
    ciphers.cbc_blocks c enc (n1 + n2) prev (d1 ++ d2)
    = let (f1, o1) := ciphers.cbc_blocks c enc n1 prev d1 in
      let (f2, o2) := ciphers.cbc_blocks c enc n2 f1 d2 in
      (f2, o1 ++ o2).
Proof.
  induction n1 as [|n1 IH]; intros prev d1 d2 Hd.
  - destruct d1; [|discriminate]. cbn [ciphers.cbc_blocks Nat.add app].
    now destruct (ciphers.cbc_blocks c enc n2 prev d2).
  - change (S n1 + n2) with (S (n1 + n2)). cbn [ciphers.cbc_blocks].
    rewrite firstn_app, skipn_app.
    replace (16 - length d1) with 0 by lia.
    rewrite firstn_O, skipn_O, app_nil_r.
    destruct (ciphers.cbc_block c enc prev (firstn 16 d1)) as [out next].
    rewrite IH by (rewrite length_skipn; lia).
    destruct (ciphers.cbc_blocks c enc n1 next (skipn 16 d1)) as [f1 o1].
    destruct (ciphers.cbc_blocks c enc n2 f1 d2) as [f2 o2].
    now rewrite app_assoc.
Qed.

Lemma pkcs7_pad_app (m1 m2 : bytes) :
  length m1 mod 16 = 0 -> pkcs7_pad (m1 ++ m2) = m1 ++ pkcs7_pad m2.
Proof.
  intros Hm. unfold pkcs7_pad. rewrite length_app, <- app_assoc.
  replace ((length m1 + length m2) mod 16) with (length m2 mod 16) by lia.
  reflexivity.
Qed.

Section Chaining.

Variable c : ciphers.Cipher.

Let E := aes_encrypt_block (ciphers.backend c) (ciphers.key (ciphers.algorithm c)).

Hypothesis E_length : forall blk, length blk = 16 -> length (E blk) = 16.

(** After at least one block, the chaining value of an encrypting context
    is the last block it returned. *)
Lemma cbc_blocks_encrypt_chain (n : nat) :
  forall prev data,
    length prev = 16 -> length data = S n * 16 ->
    fst (ciphers.cbc_blocks c true (S n) prev data)
    = skipn (n * 16) (snd (ciphers.cbc_blocks c true (S n) prev data)).
Proof.
  induction n as [|n IH]; intros prev data Hp Hd.
  - cbn [ciphers.cbc_blocks ciphers.cbc_block fst snd Nat.mul skipn].
    now rewrite app_nil_r.
  - remember (S n) as k eqn:Hk.
    cbn [ciphers.cbc_blocks ciphers.cbc_block]. fold E.
    set (out := E (xor_bytes (firstn 16 data) prev)).
    assert (Ho : length out = 16).
    { apply E_length. rewrite xor_bytes_length, length_firstn. lia. }
    subst k.
    specialize (IH out (skipn 16 data) Ho).
    destruct (ciphers.cbc_blocks c true (S n) out (skipn 16 data)) as [f outs].
    cbn [fst snd] in *. rewrite IH by (rewrite length_skipn; lia).
    rewrite skipn_app, Ho.
    replace (S n * 16 - 16) with (n * 16) by lia.
    rewrite (@skipn_all2 _ (S n * 16) out) by lia. reflexivity.
Qed.

End Chaining.

Lemma xor_byte_comm (a b : byte) : xor_byte a b = xor_byte b a.
Proof.
  unfold xor_byte.
  destruct (Byte.to_bits a) as (a0 & a1 & a2 & a3 & a4 & a5 & a6 & a7).
  destruct (Byte.to_bits b) as (b0 & b1 & b2 & b3 & b4 & b5 & b6 & b7).
  now rewrite (xorb_comm a0), (xorb_comm a1), (xorb_comm a2), (xorb_comm a3),
    (xorb_comm a4), (xorb_comm a5), (xorb_comm a6), (xorb_comm a7).
Qed.

Lemma xor_bytes_comm (a b : bytes) : xor_bytes a b = xor_bytes b a.
Proof.
  unfold xor_bytes. revert b.
  induction a as [|x a IH]; intros [|y b]; cbn [combine map fst snd];
    try reflexivity.
  now rewrite xor_byte_comm, IH.
Qed.

Lemma xor_bytes_inj (a b b' : bytes) :
  length b = length a -> length b' = length a ->
  xor_bytes a b = xor_bytes a b' -> b = b'.
Proof.
  intros Hb Hb' H.
  rewrite <- (@xor_bytes_cancel b a), <- (@xor_bytes_cancel b' a) by lia.
  now rewrite (xor_bytes_comm b), (xor_bytes_comm b'), H.
Qed.

Section AESChaining.

Variable backend : CipherBackend.

Hypothesis encrypt_block_length :
  forall k blk,
    In (length k) AES.KEY_SIZES -> length blk = 16 ->
    length (aes_encrypt_block backend k blk) = 16.

Lemma cbc_encrypt_app (key iv d1 d2 : bytes) :
  In (length key) AES.KEY_SIZES -> length iv = 16 ->
  length d1 mod 16 = 0 -> 0 < length d1 -> length d2 mod 16 = 0 ->
  let c := AES.cipher (instance backend key iv) in
  cbc_encrypt c (d1 ++ d2)
  = cbc_encrypt c d1
    ++ cbc_encrypt
         (AES.cipher
            (instance backend key (skipn (length d1 - 16) (cbc_encrypt c d1))))
         d2.
Proof.
  intros Hk Hiv H1 Hpos H2 c. unfold cbc_encrypt.
  rewrite length_app.
  replace ((length d1 + length d2) / 16) with (length d1 / 16 + length d2 / 16)
    by lia.
  rewrite cbc_blocks_app by lia.
  destruct (length d1 / 16) as [|n] eqn:Hn; [lia|].
  assert (Hch := @cbc_blocks_encrypt_chain c
                   (fun blk => encrypt_block_length key blk Hk) n
                   (ciphers.initialization_vector (ciphers.mode c)) d1 Hiv).
  destruct (ciphers.cbc_blocks c true (S n) _ d1) as [f1 o1].
  cbn [fst snd] in *. rewrite Hch by lia.
  replace (length d1 - 16) with (n * 16) by lia.
  cbn [instance AES.cipher ciphers.mode ciphers.initialization_vector].
  rewrite (@cbc_blocks_cipher c
             (AES.cipher (instance backend key (skipn (n * 16) o1))) true
             (length d2 / 16) eq_refl eq_refl).
  cbn [instance AES.cipher].
  now destruct (ciphers.cbc_blocks _ true (length d2 / 16) _ d2).
Qed.

(** X3.  CBC chaining shows in the output.  When [m1] is a positive whole
    number of blocks, [encrypt(m1 + m2)] is the first [len(m1)] bytes of
    [encrypt(m1)] followed by what an instance with the same key, and the
    last of those blocks as IV, returns for [m2].  In particular two
    messages with a common block-aligned prefix have ciphertexts with a
    common prefix of that length. *)
Theorem aes_encrypt_chaining (key iv : bytes) (self : AES.t)
        (m1 m2 ct1 : bytes) :
  AES.init backend key iv = Ok self ->
  length m1 mod 16 = 0 -> 0 < length m1 ->
  AES.encrypt self m1 = Ok ct1 ->
  exists next c2,
    AES.init backend key (firstn 16 (skipn (length m1 - 16) ct1)) = Ok next
    /\ AES.encrypt next m2 = Ok c2
    /\ AES.encrypt self (m1 ++ m2) = Ok (firstn (length m1) ct1 ++ c2).
Proof.
  intros Hinit Hm Hpos Hct.
  apply init_inv in Hinit. destruct Hinit as (Hk & Hiv & ->).
  set (c := AES.cipher (instance backend key iv)).
  assert (Hpad : forall m, length (pkcs7_pad m) mod 16 = 0)
    by (intros m; rewrite pkcs7_pad_blocks; apply Nat.Div0.mod_mul).
  assert (Hc1 : length (cbc_encrypt c m1) = length m1).
  { apply cbc_encrypt_length; try assumption.
    intros blk. now apply encrypt_block_length. }
  assert (Happ : forall m,
             AES.encrypt (instance backend key iv) (m1 ++ m)
             = Ok (cbc_encrypt c m1
                   ++ cbc_encrypt
                        (AES.cipher
                           (instance backend key
                              (skipn (length m1 - 16) (cbc_encrypt c m1))))
                        (pkcs7_pad m))).
  { intros m. rewrite encrypt_instance, pkcs7_pad_app by assumption.
    pose proof (@cbc_encrypt_app key iv m1 (pkcs7_pad m) Hk Hiv Hm Hpos (Hpad m))
      as H.
    cbv zeta in H. now rewrite H. }
  rewrite <- (app_nil_r m1) in Hct at 1. rewrite Happ in Hct.
  apply ok_inj in Hct. subst ct1.
  set (iv' := skipn (length m1 - 16) (cbc_encrypt c m1)).
  set (tail := cbc_encrypt _ (pkcs7_pad [])).
  assert (Hiv' : length iv' = 16) by (subst iv'; rewrite length_skipn; lia).
  assert (H1 : firstn (length m1) (cbc_encrypt c m1 ++ tail) = cbc_encrypt c m1).
  { rewrite firstn_app, Hc1, Nat.sub_diag, firstn_O, app_nil_r.
    apply firstn_all2. lia. }
  assert (H2 : firstn 16 (skipn (length m1 - 16) (cbc_encrypt c m1 ++ tail))
               = iv').
  { rewrite skipn_app, Hc1. fold iv'.
    replace (length m1 - 16 - length m1) with 0 by lia.
    rewrite skipn_O, firstn_app, Hiv', Nat.sub_diag, firstn_O, app_nil_r.
    apply firstn_all2. lia. }
  rewrite H1, H2.
  exists (instance backend key iv'). eexists.
  split; [now apply init_accepts|].
  split; [apply encrypt_instance|].
  apply Happ.
Qed.

Hypothesis decrypt_encrypt_block :
  forall k blk,
    In (length k) AES.KEY_SIZES -> length blk = 16 ->
    aes_decrypt_block backend k (aes_encrypt_block backend k blk) = blk.

Lemma cbc_encrypt_first (key iv data : bytes) :
  In (length key) AES.KEY_SIZES -> length iv = 16 ->
  length data mod 16 = 0 -> 0 < length data ->
  firstn 16 (cbc_encrypt (AES.cipher (instance backend key iv)) data)
  = aes_encrypt_block backend key (xor_bytes (firstn 16 data) iv).
Proof.
  intros Hk Hiv Hm Hpos. unfold cbc_encrypt.
  destruct (length data / 16) as [|n] eqn:Hn; [lia|].
  cbn [ciphers.cbc_blocks ciphers.cbc_block instance AES.cipher
       ciphers.backend ciphers.key ciphers.algorithm ciphers.mode
       ciphers.initialization_vector].
  destruct (ciphers.cbc_blocks _ true n _ _) as [f outs]. cbn [snd].
  rewrite firstn_app, encrypt_block_length; try assumption.
  - rewrite Nat.sub_diag, firstn_O, app_nil_r. apply firstn_all2.
    rewrite encrypt_block_length; [lia | assumption |].
    rewrite xor_bytes_length, length_firstn. lia.
  - rewrite xor_bytes_length, length_firstn. lia.
Qed.

(** X4.  Two instances with the same key and different IVs never return
    the same ciphertext for a message: the first blocks already differ. *)
Theorem aes_iv_separates (key iv iv' : bytes) (a b : AES.t)
        (msg ca cb : bytes) :
  AES.init backend key iv = Ok a ->
  AES.init backend key iv' = Ok b ->
  iv <> iv' ->
  AES.encrypt a msg = Ok ca ->
  AES.encrypt b msg = Ok cb ->
  firstn 16 ca <> firstn 16 cb.
Proof.
  intros Ha Hb Hne Hca Hcb Heq.
  apply init_inv in Ha. destruct Ha as (Hk & Hiv & ->).
  apply init_inv in Hb. destruct Hb as (_ & Hiv' & ->).
  rewrite encrypt_instance in Hca, Hcb.
  apply ok_inj in Hca, Hcb. subst ca cb.
  assert (Hm : length (pkcs7_pad msg) mod 16 = 0)
    by (rewrite pkcs7_pad_blocks; apply Nat.Div0.mod_mul).
  assert (Hpos : 0 < length (pkcs7_pad msg)) by (rewrite pkcs7_pad_length; lia).
  rewrite !cbc_encrypt_first in Heq by assumption.
  assert (Hf : length (firstn 16 (pkcs7_pad msg)) = 16)
    by (rewrite length_firstn; lia).
  apply (f_equal (aes_decrypt_block backend key)) in Heq.
  rewrite !decrypt_encrypt_block in Heq
    by (try assumption; rewrite xor_bytes_length; lia).
  apply xor_bytes_inj in Heq; [auto | lia | lia].
Qed.

Lemma cbc_decrypt_other_iv (key iv iv' data : bytes) :
  In (length key) AES.KEY_SIZES -> length iv = 16 -> length iv' = 16 ->
  length data mod 16 = 0 -> 0 < length data ->
  cbc_decrypt (AES.cipher (instance backend key iv'))
    (cbc_encrypt (AES.cipher (instance backend key iv)) data)
  = xor_bytes (xor_bytes (firstn 16 data) iv) iv' ++ skipn 16 data.
Proof.
  intros Hk Hiv Hiv' Hm Hpos.
  set (c := AES.cipher (instance backend key iv)).
  set (c' := AES.cipher (instance backend key iv')).
  assert (He : forall blk, length blk = 16 ->
                 length (aes_encrypt_block (ciphers.backend c)
                           (ciphers.key (ciphers.algorithm c)) blk) = 16)
    by (intros blk; now apply encrypt_block_length).
  assert (Hd : forall blk, length blk = 16 ->
                 aes_decrypt_block (ciphers.backend c)
                   (ciphers.key (ciphers.algorithm c))
                   (aes_encrypt_block (ciphers.backend c)
                      (ciphers.key (ciphers.algorithm c)) blk) = blk)
    by (intros blk; now apply decrypt_encrypt_block).
  unfold cbc_decrypt.
  rewrite (@cbc_encrypt_length c He Hiv data Hm).
  unfold cbc_encrypt.
  destruct (length data / 16) as [|n] eqn:Hn; [lia|].
  cbn [ciphers.cbc_blocks ciphers.cbc_block].
  set (blk := firstn 16 data).
  assert (Hb : length blk = 16) by (subst blk; rewrite length_firstn; lia).
  set (out := aes_encrypt_block (ciphers.backend c)
                (ciphers.key (ciphers.algorithm c))
                (xor_bytes blk (ciphers.initialization_vector (ciphers.mode c)))).
  assert (Hx : length (xor_bytes blk iv) = 16)
    by (rewrite xor_bytes_length; lia).
  assert (Ho : length out = 16) by (apply He, Hx).
  assert (Hr : length (skipn 16 data) = n * 16)
    by (rewrite length_skipn; lia).
  pose proof (@cbc_blocks_decrypt_encrypt c He Hd n out (skipn 16 data) Ho Hr)
    as Hrt.
  destruct (ciphers.cbc_blocks c true n out (skipn 16 data)) as [f outs].
  cbn [fst snd] in *.
  rewrite firstn_app, skipn_app, Ho, Nat.sub_diag.
  rewrite firstn_all2, skipn_all2 by lia.
  rewrite firstn_O, skipn_O, app_nil_r. cbn [app].
  rewrite (@cbc_blocks_cipher c' c false n eq_refl eq_refl).
  destruct (ciphers.cbc_blocks c false n out outs) as [f' ins].
  cbn [fst snd] in *. subst ins.
  subst out. cbn [c c' instance AES.cipher ciphers.backend ciphers.key
                  ciphers.algorithm ciphers.mode ciphers.initialization_vector].
  rewrite decrypt_encrypt_block by assumption.
  reflexivity.
Qed.

(** X5.  [decrypt] does not notice a wrong IV.  For a message of at least
    16 bytes encrypted by an instance with IV [iv], an instance with the
    same key and IV [iv'] returns, without raising, the message with
    [iv xor iv'] added to its first 16 bytes and the rest intact. *)
Theorem aes_decrypt_other_iv (key iv iv' : bytes) (a b : AES.t)
        (msg ct : bytes) :
  AES.init backend key iv = Ok a ->
  AES.init backend key iv' = Ok b ->
  16 <= length msg ->
  AES.encrypt a msg = Ok ct ->
  AES.decrypt b ct
  = Ok (xor_bytes (xor_bytes (firstn 16 msg) iv) iv' ++ skipn 16 msg).
Proof.
  intros Ha Hb Hlen Hct.
  apply init_inv in Ha. destruct Ha as (Hk & Hiv & ->).
  apply init_inv in Hb. destruct Hb as (_ & Hiv' & ->).
  rewrite encrypt_instance in Hct. apply ok_inj in Hct. subst ct.
  assert (Hm : length (pkcs7_pad msg) mod 16 = 0)
    by (rewrite pkcs7_pad_blocks; apply Nat.Div0.mod_mul).
  assert (Hpos : 0 < length (pkcs7_pad msg)) by (rewrite pkcs7_pad_length; lia).
  rewrite decrypt_instance.
  2:{ rewrite cbc_encrypt_length; try assumption.
      intros blk. now apply encrypt_block_length. }
  rewrite cbc_decrypt_other_iv by assumption.
  assert (Hfirst : firstn 16 (pkcs7_pad msg) = firstn 16 msg).
  { unfold pkcs7_pad. rewrite firstn_app.
    replace (16 - length msg) with 0 by lia.
    now rewrite firstn_O, app_nil_r. }
  assert (Hrest : skipn 16 (pkcs7_pad msg) = pkcs7_pad (skipn 16 msg)).
  { rewrite <- (firstn_skipn 16 msg) at 1.
    rewrite pkcs7_pad_app by (rewrite length_firstn; lia).
    rewrite skipn_app, length_firstn.
    replace (16 - Nat.min 16 (length msg)) with 0 by lia.
    rewrite skipn_O, skipn_all2 by (rewrite length_firstn; lia).
    reflexivity. }
  rewrite Hfirst, Hrest.
  set (x := xor_bytes (xor_bytes (firstn 16 msg) iv) iv').
  assert (Hx : length x = 16).
  { subst x. rewrite !xor_bytes_length, length_firstn. lia. }
  rewrite <- pkcs7_pad_app by lia.
  pose proof (@unpadder_run (AES.padding (instance backend key iv'))
                eq_refl (x ++ skipn 16 msg)) as Hu.
  destruct (padding.unpadder_update _ _) as [u head].
  destruct Hu as (rest & -> & <-). reflexivity.
Qed.

End AESChaining.

Lemma aes_encrypt_chaining_witness :
  exists next c2,
    AES.init FIPS197.backend Toy.key16
      (firstn 16
         (skipn (length Toy.key16 - 16)
            [xb9; x7a; x52; x21; xfe; xec; x48; x56; x1e; x2a; x12; x17; x61;
             x01; xad; x2f; x69; xba; x50; xb0; xa4; x17; x8b; x74; xff; xbd;
             xf7; xbe; x3c; x10; xfa; x10]))
    = Ok next
    /\ AES.encrypt next [x61] = Ok c2
    /\ AES.encrypt (instance FIPS197.backend Toy.key16 Toy.iv16)
         (Toy.key16 ++ [x61])
       = Ok (firstn (length Toy.key16)
               [xb9; x7a; x52; x21; xfe; xec; x48; x56; x1e; x2a; x12; x17;
                x61; x01; xad; x2f; x69; xba; x50; xb0; xa4; x17; x8b; x74;
                xff; xbd; xf7; xbe; x3c; x10; xfa; x10]
             ++ c2).
Proof.
  apply (aes_encrypt_chaining FIPS197.backend fips197_block_length
           Toy.key16 Toy.iv16).
  - reflexivity.
  - reflexivity.
  - vm_compute. lia.
  - vm_compute. reflexivity.
Defined.

Lemma aes_iv_separates_witness :
  Toy.iv16 <> Toy.key16
  /\ firstn 16
       [xa2; x86; x2d; x6d; x14; x6d; x97; x1e; x89; x77; x6c; x2a; xbb; x5c;
        x78; x65]
     <> firstn 16
          [x05; xc3; x29; x11; xc9; xc0; x84; x72; xf9; x5f; x50; x72; x07;
           xb5; xfb; xb8].
Proof.
  assert (H : Toy.iv16 <> Toy.key16) by (vm_compute; discriminate).
  split; [exact H|].
  apply (aes_iv_separates FIPS197.backend fips197_block_length
           fips197_block_inverse Toy.key16 Toy.iv16 Toy.key16
           (instance FIPS197.backend Toy.key16 Toy.iv16)
           (instance FIPS197.backend Toy.key16 Toy.key16)
           [x61; x62; x63]).
  - reflexivity.
  - reflexivity.
  - exact H.
  - vm_compute. reflexivity.
  - vm_compute. reflexivity.
Defined.

Lemma aes_decrypt_other_iv_witness :
  AES.decrypt (instance FIPS197.backend Toy.key16 Toy.key16)
    [xb9; x7a; x52; x21; xfe; xec; x48; x56; x1e; x2a; x12; x17; x61; x01;
     xad; x2f; xb9; x31; x0e; xf8; x63; x4b; xbd; x10; x47; xa8; x09; x83;
     xea; x5c; x77; xd2]
  = Ok (xor_bytes (xor_bytes (firstn 16 (Toy.key16 ++ [x61])) Toy.iv16)
          Toy.key16
        ++ skipn 16 (Toy.key16 ++ [x61])).
Proof.
  apply (aes_decrypt_other_iv FIPS197.backend fips197_block_length
           fips197_block_inverse Toy.key16 Toy.iv16 Toy.key16
           (instance FIPS197.backend Toy.key16 Toy.iv16)).
  - reflexivity.
  - reflexivity.
  - vm_compute. lia.
  - vm_compute. reflexivity.
Defined.

(** ** A replaced ciphertext block *)

Section AESTampering.

Variable backend : CipherBackend.

Hypothesis encrypt_block_length :
  forall k blk,
    In (length k) AES.KEY_SIZES -> length blk = 16 ->
    length (aes_encrypt_block backend k blk) = 16.

Hypothesis decrypt_block_length :
  forall k blk,
    In (length k) AES.KEY_SIZES -> length blk = 16 ->
    length (aes_decrypt_block backend k blk) = 16.

Hypothesis decrypt_encrypt_block :
  forall k blk,
    In (length k) AES.KEY_SIZES -> length blk = 16 ->
    aes_decrypt_block backend k (aes_encrypt_block backend k blk) = blk.

Lemma cbc_decrypt_cons (key iv blk rest : bytes) :
  length blk = 16 -> length rest mod 16 = 0 ->
  cbc_decrypt (AES.cipher (instance backend key iv)) (blk ++ rest)
  = xor_bytes (aes_decrypt_block backend key blk) iv
    ++ cbc_decrypt (AES.cipher (instance backend key blk)) rest.
Proof.
  intros Hb Hr. unfold cbc_decrypt. rewrite length_app, Hb.
  replace ((16 + length rest) / 16) with (1 + length rest / 16) by lia.
  rewrite cbc_blocks_app by lia.
  cbn [ciphers.cbc_blocks ciphers.cbc_block instance AES.cipher
       ciphers.backend ciphers.key ciphers.algorithm ciphers.mode
       ciphers.initialization_vector].
  rewrite firstn_all2, app_nil_r by lia.
  rewrite (@cbc_blocks_cipher
             (AES.cipher (instance backend key iv))
             (AES.cipher (instance backend key blk)) false
             (length rest / 16) eq_refl eq_refl).
  cbn [instance AES.cipher].
  now destruct (ciphers.cbc_blocks _ false (length rest / 16) blk rest).
Qed.

(** X15.  [decrypt] does not notice a replaced ciphertext block either.
    For a message of at least 32 bytes with ciphertext [ct], putting any
    16-byte block [blk] in place of the first block of [ct] makes [decrypt]
    return, without raising, a message whose first 16 bytes are the block
    decryption of [blk] added to the IV, whose next 16 bytes are those of the
    message with [old block xor blk] added, and whose rest is intact. *)
Theorem aes_decrypt_replaced_block (key iv : bytes) (self : AES.t)
        (msg ct blk : bytes) :
  AES.init backend key iv = Ok self ->
  32 <= length msg ->
  AES.encrypt self msg = Ok ct ->
  length blk = 16 ->
  AES.decrypt self (blk ++ skipn 16 ct)
  = Ok (xor_bytes (aes_decrypt_block backend key blk) iv
        ++ xor_bytes (xor_bytes (firstn 16 (skipn 16 msg)) (firstn 16 ct)) blk
        ++ skipn 32 msg).
Proof.
  intros Hinit Hlen Hct Hblk.
  apply init_inv in Hinit. destruct Hinit as (Hk & Hiv & ->).
  rewrite encrypt_instance in Hct. apply ok_inj in Hct. subst ct.
  set (c := AES.cipher (instance backend key iv)).
  set (p := pkcs7_pad msg).
  assert (Hp : length p = (length msg / 16 + 1) * 16) by apply pkcs7_pad_blocks.
  assert (He : forall b, length b = 16 ->
                 length (aes_encrypt_block backend key b) = 16)
    by (intros b; now apply encrypt_block_length).
  set (c0 := cbc_encrypt c (firstn 16 p)).
  assert (Hc0 : length c0 = 16).
  { subst c0 c. rewrite cbc_encrypt_length; try assumption;
      rewrite length_firstn; lia. }
  assert (Hsplit : cbc_encrypt c p
                   = c0 ++ cbc_encrypt (AES.cipher (instance backend key c0))
                             (skipn 16 p)).
  { rewrite <- (firstn_skipn 16 p) at 1.
    pose proof (@cbc_encrypt_app backend encrypt_block_length key iv
                  (firstn 16 p) (skipn 16 p) Hk Hiv) as H.
    cbv zeta in H. fold c c0 in H.
    rewrite H; try (rewrite length_firstn; lia);
      try (rewrite length_skipn; lia).
    rewrite length_firstn.
    replace (Nat.min 16 (length p) - 16) with 0 by lia.
    now rewrite skipn_O. }
  rewrite Hsplit.
  assert (H1 : firstn 16 (c0 ++ cbc_encrypt (AES.cipher (instance backend key c0))
                                  (skipn 16 p)) = c0).
  { rewrite firstn_app, Hc0, Nat.sub_diag, firstn_O, app_nil_r.
    apply firstn_all2. lia. }
  assert (H2 : skipn 16 (c0 ++ cbc_encrypt (AES.cipher (instance backend key c0))
                                 (skipn 16 p))
               = cbc_encrypt (AES.cipher (instance backend key c0)) (skipn 16 p)).
  { rewrite skipn_app, Hc0, Nat.sub_diag, skipn_O, skipn_all2 by lia.
    reflexivity. }
  rewrite H1, H2.
  assert (Hq : length (skipn 16 p) mod 16 = 0) by (rewrite length_skipn; lia).
  assert (Hqpos : 0 < length (skipn 16 p)) by (rewrite length_skipn; lia).
  assert (Ht : length (cbc_encrypt (AES.cipher (instance backend key c0))
                         (skipn 16 p)) = length (skipn 16 p)).
  { apply cbc_encrypt_length; assumption. }
  rewrite decrypt_instance by (rewrite length_app, Ht, Hblk; lia).
  rewrite cbc_decrypt_cons by (try assumption; rewrite Ht; assumption).
  rewrite (@cbc_decrypt_other_iv backend encrypt_block_length
             decrypt_encrypt_block key c0 blk (skipn 16 p) Hk Hc0 Hblk Hq Hqpos).
  assert (Hfirst : firstn 16 (skipn 16 p) = firstn 16 (skipn 16 msg)).
  { subst p. unfold pkcs7_pad. rewrite skipn_app, firstn_app, length_skipn.
    replace (16 - length msg) with 0 by lia.
    replace (16 - (length msg - 16)) with 0 by lia.
    now rewrite skipn_O, firstn_O, app_nil_r. }
  assert (Hrest : skipn 16 (skipn 16 p) = pkcs7_pad (skipn 32 msg)).
  { rewrite skipn_skipn. change (16 + 16) with 32. subst p.
    rewrite <- (firstn_skipn 32 msg) at 1.
    rewrite pkcs7_pad_app by (rewrite length_firstn; lia).
    rewrite skipn_app, length_firstn.
    replace (32 - Nat.min 32 (length msg)) with 0 by lia.
    rewrite skipn_O, skipn_all2 by (rewrite length_firstn; lia).
    reflexivity. }
  rewrite Hfirst, Hrest.
  set (x0 := xor_bytes (aes_decrypt_block backend key blk) iv).
  set (x1 := xor_bytes (xor_bytes (firstn 16 (skipn 16 msg)) c0) blk).
  assert (Hx0 : length x0 = 16).
  { subst x0. rewrite xor_bytes_length, decrypt_block_length by assumption.
    lia. }
  assert (Hx1 : length x1 = 16).
  { subst x1. rewrite !xor_bytes_length, length_firstn, length_skipn. lia. }
  rewrite <- pkcs7_pad_app by lia.
  rewrite <- pkcs7_pad_app by lia.
  pose proof (@unpadder_run (AES.padding (instance backend key iv))
                eq_refl (x0 ++ x1 ++ skipn 32 msg)) as Hu.
  destruct (padding.unpadder_update _ _) as [u head].
  destruct Hu as (rest & -> & <-). reflexivity.
Qed.

End AESTampering.

Lemma aes_decrypt_replaced_block_witness :
  AES.decrypt (instance FIPS197.backend Toy.key16 Toy.iv16)
    (Toy.key16
     ++ skipn 16
         [xb9; x7a; x52; x21; xfe; xec; x48; x56; x1e; x2a; x12; x17; x61;
          x01; xad; x2f; xa1; x3b; x55; xd7; xf7; xfc; x05; x07; xa3; x5d;
          xea; x2b; xa7; x10; x49; x79; x81; x6f; xaf; x67; xa6; xca; xb8;
          x59; xde; xa8; xe5; xae; x5d; x27; xb3; xa2])
  = Ok (xor_bytes (aes_decrypt_block FIPS197.backend Toy.key16 Toy.key16)
          Toy.iv16
        ++ xor_bytes
             (xor_bytes (firstn 16 (skipn 16 (Toy.key16 ++ Toy.iv16)))
                (firstn 16
                   [xb9; x7a; x52; x21; xfe; xec; x48; x56; x1e; x2a; x12; x17; x61;
          x01; xad; x2f; xa1; x3b; x55; xd7; xf7; xfc; x05; x07; xa3; x5d;
          xea; x2b; xa7; x10; x49; x79; x81; x6f; xaf; x67; xa6; xca; xb8;
          x59; xde; xa8; xe5; xae; x5d; x27; xb3; xa2]))
             Toy.key16
        ++ skipn 32 (Toy.key16 ++ Toy.iv16)).
Proof.
  apply (aes_decrypt_replaced_block FIPS197.backend fips197_block_length
           fips197_inverse_block_length fips197_block_inverse
           Toy.key16 Toy.iv16).
  - reflexivity.
  - vm_compute. lia.
  - vm_compute. reflexivity.
  - reflexivity.
Defined.

(** ** What a call leaves on the store *)

Lemma load_state (r : Heap.ref) (h : Heap.heap) : snd (Heap.load r h) = h.
Proof. unfold Heap.load. now destruct (nth_error h r). Qed.

Lemma heap_same (h : Heap.heap) : exists l, h = h ++ l /\ length l <= 2.
Proof. exists []. rewrite app_nil_r. cbn. auto. Qed.

Ltac load_at r h :=
  let o := fresh "o" in
  let e := fresh "e" in
  let h0 := fresh "h" in
  let H := fresh "H" in
  pose proof (load_state r h) as H;
  destruct (Heap.load r h) as [[o|e] h0];
  cbn [snd] in H; subst h0; cbv beta iota;
  [destruct o; cbv beta iota|].

Ltac grown := cbn [snd]; eexists; split; [reflexivity | cbn; lia].

Ltac new_step := first [rewrite load_new | rewrite store_new]; cbv beta iota.

(** X6.  On the object store, [encrypt] and [decrypt] never change or
    remove an object that was there before the call, whatever [self] refers
    to and whether the call returns or raises: the store afterwards is the
    store before plus at most the two contexts of the call. *)
Theorem heap_calls_only_allocate (self : Heap.ref) (msg : bytes)
        (h : Heap.heap) :
  (exists l, snd (Heap.encrypt self msg h) = h ++ l /\ length l <= 2)
  /\ (exists l, snd (Heap.decrypt self msg h) = h ++ l /\ length l <= 2).
Proof.
  split.
  - unfold Heap.encrypt, Heap.encryptor, Heap.padder, Heap.padder_update,
      Heap.padder_finalize, Heap.update, Heap.finalize, Heap.alloc,
      Heap.type_error, sbind, sret, slift.
    load_at self h; try apply heap_same.
    load_at cipher h; try apply heap_same.
    load_at padding (h ++ [Heap.OCipherContext (ciphers.encryptor c)]);
      try grown.
    do 3 new_step.
    rewrite <- app_assoc. cbn [app].
    do 3 new_step.
    destruct (propagate (ciphers.finalize _)); grown.
  - unfold Heap.decrypt, Heap.decryptor, Heap.unpadder, Heap.unpadder_update,
      Heap.unpadder_finalize, Heap.update, Heap.finalize, Heap.alloc,
      Heap.type_error, sbind, sret, slift.
    load_at self h; try apply heap_same.
    load_at cipher h; try apply heap_same.
    load_at padding (h ++ [Heap.OCipherContext (ciphers.decryptor c)]);
      try grown.
    rewrite <- app_assoc. cbn [app].
    do 3 new_step.
    destruct (propagate (ciphers.finalize _)) as [tail|e]; [|grown].
    rewrite !length_app. cbn [length].
    match goal with
    | |- context [h ++ [?x'; ?y]] =>
        change (h ++ [x'; y]) with (h ++ [x'] ++ [y]);
        rewrite app_assoc;
        replace (length h + 1) with (length (h ++ [x']))
          by (rewrite length_app; reflexivity)
    end.
    do 3 new_step.
    rewrite <- app_assoc. cbn [app].
    destruct (propagate (padding.unpadder_finalize _)); grown.
Qed.

(** ** AES.generate_key with a negative size *)



(** ** Bounds of the RSA operations *)

Lemma skip_zeros_length (l : bytes) : length (rsa.skip_zeros l) <= length l.
Proof.
  induction l as [|b l IH]; [reflexivity|].
  destruct b; cbn [rsa.skip_zeros length]; lia.
Qed.

Lemma oaep_decode_bound (digest : HashAlgorithm -> bytes -> bytes)
      (mgf_hash h : HashAlgorithm) (label em msg : bytes) (k : nat) :
  rsa.oaep_decode digest mgf_hash h label em k = Some msg ->
  length msg + 2 * digest_size h + 2 <= length em.
Proof.
  unfold rsa.oaep_decode. destruct em as [|y rest]; [discriminate|].
  set (hlen := digest_size h).
  set (masked_db := skipn hlen rest).
  set (db := xor_bytes masked_db _).
  assert (Hdb : length (skipn hlen db) <= length rest - hlen - hlen).
  { rewrite length_skipn. unfold db, masked_db.
    rewrite xor_bytes_length, length_skipn. lia. }
  pose proof (skip_zeros_length (skipn hlen db)) as Hz.
  destruct (rsa.skip_zeros (skipn hlen db)) as [|b m]; [discriminate|].
  destruct b; try discriminate.
  destruct (_ && _); [|discriminate].
  intros H. injection H as <-. cbn [length] in *. lia.
Qed.

Section RSABounds.

Variable backend : RSABackend.

(** X8.  [RSAPublic.encrypt] returns exactly for messages of at most
    [k - 66] bytes, [k] the byte length of the modulus (190 bytes under a
    2048-bit key), and the ciphertext then has exactly [k] bytes; a longer
    message makes it raise the package's [ValueError]. *)
Theorem rsa_encrypt_bound (self : RSAPublic.t) (msg : bytes) (rng : entropy) :
  (length msg + 66 <= rsa.key_bytes (RSAPublic.key self) ->
   exists ct rng',
     RSAPublic.encrypt backend self msg rng = (Ok ct, rng')
     /\ length ct = rsa.key_bytes (RSAPublic.key self))
  /\ (rsa.key_bytes (RSAPublic.key self) < length msg + 66 ->
      fst (RSAPublic.encrypt backend self msg rng)
      = Raise (Foreign ValueError)).
Proof.
  unfold RSAPublic.encrypt, spropagate, rsa.encrypt. cbn [digest_size].
  split; intros H.
  - replace (_ <? _) with false by (symmetry; apply Nat.ltb_ge; lia).
    do 2 eexists. split; [reflexivity|]. apply int_to_bytes_length.
  - replace (_ <? _) with true by (symmetry; apply Nat.ltb_lt; lia).
    reflexivity.
Qed.

(** X9.  [RSAPrivate.decrypt] raises the package's [ValueError] for a
    ciphertext whose length is not the byte length of the modulus or whose
    value is not below the modulus; [ValueError], which is not a
    [CryptoException], is all it ever raises; and a message it returns has
    at most [k - 66] bytes. *)
Theorem rsa_decrypt_failures (self : RSAPrivate.t) (ct : bytes) :
  let pub := rsa.public_key (RSAPrivate.key self) in
  (length ct <> rsa.key_bytes pub ->
   RSAPrivate.decrypt backend self ct = Raise (Foreign ValueError))
  /\ ((rsa.n pub <= int_from_bytes ct)%Z ->
      RSAPrivate.decrypt backend self ct = Raise (Foreign ValueError))
  /\ (forall e,
         RSAPrivate.decrypt backend self ct = Raise e ->
         e = Foreign ValueError /\ issubclass e CryptoException = false)
  /\ (forall msg,
         RSAPrivate.decrypt backend self ct = Ok msg ->
         length ct = rsa.key_bytes pub
         /\ (int_from_bytes ct < rsa.n pub)%Z
         /\ length msg + 66 <= rsa.key_bytes pub).
Proof.
  intros pub. unfold RSAPrivate.decrypt, rsa.decrypt. fold pub.
  cbn [digest_size].
  assert (Hraise :
            (length ct <> rsa.key_bytes pub ->
             @Raise exc bytes (Foreign ValueError) = Raise (Foreign ValueError))
            /\ ((rsa.n pub <= int_from_bytes ct)%Z ->
                @Raise exc bytes (Foreign ValueError) = Raise (Foreign ValueError))
            /\ (forall e,
                   @Raise exc bytes (Foreign ValueError) = Raise e ->
                   e = Foreign ValueError /\ issubclass e CryptoException = false)
            /\ (forall msg,
                   @Raise exc bytes (Foreign ValueError) = Ok msg ->
                   length ct = rsa.key_bytes pub
                   /\ (int_from_bytes ct < rsa.n pub)%Z
                   /\ length msg + 66 <= rsa.key_bytes pub)).
  { split; [reflexivity|]. split; [reflexivity|]. split.
    - intros e H. injection H as <-. auto.
    - discriminate. }
  destruct (length ct =? rsa.key_bytes pub) eqn:Hlen; cbn [negb];
    [|exact Hraise].
  apply Nat.eqb_eq in Hlen.
  destruct (rsa.key_bytes pub <? 2 * 32 + 2) eqn:Hk; [exact Hraise|].
  destruct (rsa.n pub <=? int_from_bytes ct)%Z eqn:Hn; [exact Hraise|].
  apply Z.leb_gt in Hn.
  destruct (rsa.oaep_decode _ _ _ _ _ _) as [m|] eqn:Hd; [|exact Hraise].
  apply oaep_decode_bound in Hd. rewrite int_to_bytes_length in Hd.
  cbn [digest_size propagate] in *.
  split; [intros H; contradiction|]. split; [intros H; lia|].
  split; [discriminate|].
  intros msg H. injection H as <-. lia.
Qed.

(** X10.  Under a key of at least 512 bits [RSAPrivate.sign] returns for
    every message, of any length, and the signature has exactly as many
    bytes as the modulus (256 under a 2048-bit key). *)
Theorem rsa_sign_length (self : RSAPrivate.t) (msg : bytes) (rng : entropy) :
  512 <= rsa.key_size (rsa.public_key (RSAPrivate.key self)) ->
  exists s rng',
    RSAPrivate.sign backend self msg rng = (Ok s, rng')
    /\ length s = rsa.key_bytes (rsa.public_key (RSAPrivate.key self)).
Proof.
  intros Hbits. unfold RSAPrivate.sign, spropagate, rsa.sign.
  cbn [rsa.pss_salt_length digest_size].
  set (pub := rsa.public_key (RSAPrivate.key self)) in *.
  replace ((rsa.key_size pub - 1 + 7) / 8) with ((rsa.key_size pub + 6) / 8)
    by (f_equal; lia).
  replace (_ <? _) with false by (symmetry; apply Nat.ltb_ge; lia).
  do 2 eexists. split; [reflexivity|]. apply int_to_bytes_length.
Qed.


End RSABounds.

Lemma rsa_sign_length_witness :
  exists s rng',
    RSAPrivate.sign Toy.rsa_backend (private_of Toy.key2048) [x61; x62]
      Toy.counter = (Ok s, rng')
    /\ length s = rsa.key_bytes (rsa.public_key (RSAPrivate.key (private_of Toy.key2048))).
Proof.
  apply (rsa_sign_length Toy.rsa_backend (private_of Toy.key2048) [x61; x62]
           Toy.counter).
  cbn [private_of RSAPrivate.key]. rewrite key2048_size. lia.
Defined.


(** ** RSAPrivate.generate_key *)

Section GenerateKey.

Variable backend : RSABackend.
Variable k : rsa.RSAPrivateKey.
Variables rng rng1 : entropy.

(** The package's generator returns the key [k]. *)
Hypothesis generated :
  generate_private_key backend 65537 2048 rng = (Ok k, rng1).

(** The package's PEM codecs, for [k]: serialization returns, and loading
    what was written gives the key back. *)
Hypothesis private_bytes_returns :
  forall a r,
    password_of a <> Some [] ->
    exists pem r',
      private_bytes backend k Encoding.PEM PrivateFormat.PKCS8 a r
      = (Ok pem, r').

Hypothesis load_private_bytes :
  forall a r pem r',
    private_bytes backend k Encoding.PEM PrivateFormat.PKCS8 a r
    = (Ok pem, r') ->
    load_pem_private_key backend pem (password_of a) = Ok k.

Hypothesis public_bytes_returns :
  exists pem,
    public_bytes backend (rsa.public_key k) Encoding.PEM
      PublicFormat.SubjectPublicKeyInfo = Ok pem.

Hypothesis load_public_bytes :
  forall pem,
    public_bytes backend (rsa.public_key k) Encoding.PEM
      PublicFormat.SubjectPublicKeyInfo = Ok pem ->
    load_pem_public_key backend pem = Ok (rsa.public_key k).


End GenerateKey.

Lemma toy_load_public_bytes (k : rsa.RSAPrivateKey) (pem : bytes) :
  fits k ->
  public_bytes generating_backend (rsa.public_key k) Encoding.PEM
    PublicFormat.SubjectPublicKeyInfo = Ok pem ->
  load_pem_public_key generating_backend pem = Ok (rsa.public_key k).
Proof.
  intros (Hn & He & _).
  change (public_bytes generating_backend (rsa.public_key k) Encoding.PEM
            PublicFormat.SubjectPublicKeyInfo)
    with (@Ok foreign_exc bytes
            (int_to_bytes (rsa.n (rsa.public_key k)) 256
             ++ int_to_bytes (rsa.e (rsa.public_key k)) 256)).
  change (load_pem_public_key generating_backend pem)
    with (Toy.toy_load_public pem).
  intros H. apply ok_inj in H. subst pem.
  unfold Toy.toy_load_public, Toy.parse_public.
  pose proof (int_to_bytes_length (rsa.n (rsa.public_key k)) 256) as Ln.
  pose proof (int_to_bytes_length (rsa.e (rsa.public_key k)) 256) as Le.
  pose proof (int_from_to_bytes (rsa.n (rsa.public_key k)) 256 Hn) as Rn.
  pose proof (int_from_to_bytes (rsa.e (rsa.public_key k)) 256 He) as Re.
  remember (int_to_bytes (rsa.n (rsa.public_key k)) 256) as bn eqn:Hbn.
  remember (int_to_bytes (rsa.e (rsa.public_key k)) 256) as be eqn:Hbe.
  clear Hbn Hbe.
  rewrite length_app, Ln, Le.
  change (256 + 256 =? 512) with true. cbv iota.
  assert (H1 : firstn 256 (bn ++ be) = bn).
  { rewrite firstn_app, Ln, Nat.sub_diag, firstn_O, app_nil_r.
    apply firstn_all2. lia. }
  assert (H2 : skipn 256 (bn ++ be) = be).
  { rewrite skipn_app, Ln, Nat.sub_diag, skipn_O, skipn_all2 by lia.
    reflexivity. }
  rewrite H1, H2, (@firstn_all2 _ 256 be) by lia.
  rewrite Rn, Re. now destruct (rsa.public_key k).
Qed.


(** ** The random draws show in the output *)

Section Recover.

Variable digest : HashAlgorithm -> bytes -> bytes.
Hypothesis digest_length : forall h data, length (digest h data) = digest_size h.

(** The seed of an OAEP encoding can be read back from it. *)
Lemma oaep_encode_seed (mgf_hash h : HashAlgorithm)
      (label msg seed : bytes) (k : nat) :
  length seed = digest_size h ->
  length msg + 2 * digest_size h + 2 <= k ->
  let rest := tl (rsa.oaep_encode digest mgf_hash h label msg seed k) in
  xor_bytes (firstn (digest_size h) rest)
    (rsa.mgf1 digest mgf_hash (skipn (digest_size h) rest) (digest_size h))
  = seed.
Proof.
  intros Hseed Hk. unfold rsa.oaep_encode. cbn [tl].
  set (hlen := digest_size h) in *.
  set (db := digest h label ++ _).
  set (masked_db := xor_bytes db (rsa.mgf1 digest mgf_hash seed (k - hlen - 1))).
  set (masked_seed := xor_bytes seed (rsa.mgf1 digest mgf_hash masked_db hlen)).
  assert (Hms : length masked_seed = hlen).
  { unfold masked_seed.
    rewrite xor_bytes_length, Hseed, (mgf1_length digest digest_length). lia. }
  rewrite firstn_app, skipn_app, Hms, Nat.sub_diag.
  rewrite (@firstn_all2 _ hlen masked_seed), (@skipn_all2 _ hlen masked_seed)
    by lia.
  rewrite firstn_O, skipn_O, app_nil_r. cbn [app].
  unfold masked_seed. apply xor_bytes_cancel.
  rewrite (mgf1_length digest digest_length). lia.
Qed.

(** So can the salt of a PSS encoding. *)
Lemma pss_encode_salt (mgf_hash h : HashAlgorithm) (msg salt : bytes)
      (em_bits : nat) :
  digest_size h + length salt + 2 <= (em_bits + 7) / 8 ->
  let em := rsa.pss_encode digest mgf_hash h msg salt em_bits in
  let em_len := (em_bits + 7) / 8 in
  let hlen := digest_size h in
  skipn (em_len - hlen - length salt - 1)
    (rsa.clear_leading_bits (8 * em_len - em_bits)
       (xor_bytes (firstn (em_len - hlen - 1) em)
          (rsa.mgf1 digest mgf_hash
             (firstn hlen (skipn (em_len - hlen - 1) em))
             (em_len - hlen - 1))))
  = salt.
Proof.
  intros Hl. cbv zeta. unfold rsa.pss_encode.
  set (hlen := digest_size h) in *.
  set (em_len := (em_bits + 7) / 8) in *.
  set (slen := length salt) in *.
  set (z := 8 * em_len - em_bits).
  assert (Hz : z <= 7) by (subst z em_len; lia).
  set (hh := digest h (repeat x00 8 ++ digest h msg ++ salt)).
  set (ps := repeat x00 (em_len - slen - hlen - 2)).
  set (db := ps ++ [x01] ++ salt).
  set (mask := rsa.mgf1 digest mgf_hash hh (em_len - hlen - 1)).
  set (masked_db := rsa.clear_leading_bits z (xor_bytes db mask)).
  assert (Hhh : length hh = hlen) by apply digest_length.
  assert (Hmask : length mask = em_len - hlen - 1)
    by apply (mgf1_length digest digest_length).
  assert (Hdb : length db = em_len - hlen - 1).
  { unfold db, ps. rewrite !length_app, repeat_length. cbn [length]. lia. }
  assert (Hmdb : length masked_db = em_len - hlen - 1).
  { unfold masked_db.
    rewrite clear_leading_bits_length, xor_bytes_length. lia. }
  assert (Hfirst : firstn (em_len - hlen - 1) (masked_db ++ hh ++ [xbc])
                   = masked_db).
  { rewrite firstn_app, Hmdb, Nat.sub_diag, firstn_all2 by lia.
    cbn [firstn]. apply app_nil_r. }
  assert (Hhash : firstn hlen (skipn (em_len - hlen - 1)
                                 (masked_db ++ hh ++ [xbc])) = hh).
  { rewrite skipn_app, Hmdb, Nat.sub_diag, skipn_all2 by lia.
    cbn [skipn app]. rewrite firstn_app, Hhh, Nat.sub_diag, firstn_all2 by lia.
    cbn [firstn]. apply app_nil_r. }
  rewrite Hfirst, Hhash. fold mask.
  assert (Hrec : rsa.clear_leading_bits z (xor_bytes masked_db mask) = db).
  { unfold masked_db. rewrite clear_leading_bits_xor by lia.
    apply clear_leading_bits_db, Hz. }
  rewrite Hrec. unfold db. rewrite app_assoc, skipn_app.
  rewrite skipn_all2 by (unfold ps; rewrite length_app, repeat_length;
                         cbn [length]; lia).
  replace (em_len - hlen - slen - 1 - length (ps ++ [x01])) with 0
    by (unfold ps; rewrite length_app, repeat_length; cbn [length]; lia).
  reflexivity.
Qed.

End Recover.

Lemma int_from_bytes_inj (a b : bytes) :
  length a = length b -> int_from_bytes a = int_from_bytes b -> a = b.
Proof.
  intros Hl H. rewrite <- (int_to_from_bytes a), <- (int_to_from_bytes b).
  now rewrite H, Hl.
Qed.

Section Randomized.

Variable backend : RSABackend.

Hypothesis digest_length :
  forall h data, length (digest backend h data) = digest_size h.

Variable k : rsa.RSAPrivateKey.
Hypothesis key_ok : key_pair k.

(** X13.  [RSAPublic.encrypt] is randomized: under a well-formed key, two
    calls on one message whose 32-byte OAEP seeds differ never return the
    same ciphertext. *)
Theorem rsa_encrypt_randomized (msg : bytes) (rng1 rng2 : entropy) :
  length msg + 66 <= rsa.key_bytes (rsa.public_key k) ->
  map rng1 (seq 0 32) <> map rng2 (seq 0 32) ->
  fst (RSAPublic.encrypt backend (public_of k) msg rng1)
  <> fst (RSAPublic.encrypt backend (public_of k) msg rng2).
Proof.
  intros Hlen Hne. unfold RSAPublic.encrypt, spropagate, rsa.encrypt.
  cbn [public_of RSAPublic.key digest_size rsa.label_bytes].
  set (pub := rsa.public_key k) in *.
  set (kb := rsa.key_bytes pub) in *.
  replace (kb <? length msg + 2 * 32 + 2) with false
    by (symmetry; apply Nat.ltb_ge; lia).
  unfold sbind, sret, os.urandom. cbn [fst propagate].
  set (s1 := map rng1 (seq 0 32)) in *. set (s2 := map rng2 (seq 0 32)) in *.
  assert (Hs1 : length s1 = digest_size SHA256)
    by (subst s1; now rewrite length_map, length_seq).
  assert (Hs2 : length s2 = digest_size SHA256)
    by (subst s2; now rewrite length_map, length_seq).
  assert (Hk : length msg + 2 * digest_size SHA256 + 2 <= kb)
    by (cbn [digest_size]; lia).
  set (em1 := rsa.oaep_encode (digest backend) SHA256 SHA256 [] msg s1 kb).
  set (em2 := rsa.oaep_encode (digest backend) SHA256 SHA256 [] msg s2 kb).
  pose proof (oaep_encode_length (digest backend) digest_length
                SHA256 SHA256 [] msg s1 kb Hs1 Hk) as L1.
  pose proof (oaep_encode_length (digest backend) digest_length
                SHA256 SHA256 [] msg s2 kb Hs2 Hk) as L2.
  fold em1 in L1. fold em2 in L2.
  pose proof (modulus_bytes k key_ok) as [Hlo Hhi]. fold pub kb in Hlo, Hhi.
  assert (Hrange : forall em, length em = kb -> (exists r, em = x00 :: r) ->
                     (0 <= int_from_bytes em < rsa.n pub)%Z).
  { intros em L (r & ->). cbn [length] in L. rewrite int_from_bytes_cons.
    pose proof (int_from_bytes_range r) as Hr.
    replace (length r) with (kb - 1) in * by lia.
    change (byte_to_Z x00) with 0%Z. lia. }
  pose proof (Hrange em1 L1 (oaep_encode_head _ _ _ _ _ _ _)) as R1.
  pose proof (Hrange em2 L2 (oaep_encode_head _ _ _ _ _ _ _)) as R2.
  intros H. apply ok_inj in H.
  apply (f_equal int_from_bytes) in H.
  pose proof (public_op_range k key_ok (int_from_bytes em1)) as P1.
  pose proof (public_op_range k key_ok (int_from_bytes em2)) as P2.
  fold pub in P1, P2.
  rewrite !int_from_to_bytes in H by lia.
  apply (f_equal (rsa.private_op k)) in H.
  unfold pub in H. rewrite !private_public_op in H by assumption.
  apply int_from_bytes_inj in H; [|congruence].
  apply Hne.
  rewrite <- (oaep_encode_seed (digest backend) digest_length
                SHA256 SHA256 [] msg s1 kb Hs1 Hk).
  rewrite <- (oaep_encode_seed (digest backend) digest_length
                SHA256 SHA256 [] msg s2 kb Hs2 Hk).
  cbv zeta. fold em1 em2. now rewrite H.
Qed.

(** X14.  [RSAPrivate.sign] is randomized: under a well-formed key of at
    least 512 bits, two calls on one message whose PSS salts (of the maximal
    length, [(bits + 6) / 8 - 34] bytes) differ never return the same
    signature. *)
Theorem rsa_sign_randomized (msg : bytes) (rng1 rng2 : entropy) :
  512 <= rsa.key_size (rsa.public_key k) ->
  map rng1 (seq 0 ((rsa.key_size (rsa.public_key k) + 6) / 8 - 34))
  <> map rng2 (seq 0 ((rsa.key_size (rsa.public_key k) + 6) / 8 - 34)) ->
  fst (RSAPrivate.sign backend (private_of k) msg rng1)
  <> fst (RSAPrivate.sign backend (private_of k) msg rng2).
Proof.
  intros Hbits Hne. unfold RSAPrivate.sign, spropagate, rsa.sign.
  cbn [private_of RSAPrivate.key rsa.pss_salt_length digest_size].
  set (pub := rsa.public_key k) in *.
  set (em_bits := rsa.key_size pub - 1).
  replace ((rsa.key_size pub + 6) / 8) with ((em_bits + 7) / 8) in Hne
    by (subst em_bits; f_equal; lia).
  set (em_len := (em_bits + 7) / 8) in *.
  replace (em_len - 32 - 2) with (em_len - 34) by lia.
  set (slen := em_len - 34) in *.
  replace (em_len <? 32 + slen + 2) with false
    by (symmetry; apply Nat.ltb_ge; subst slen em_len em_bits; lia).
  unfold sbind, sret, os.urandom. cbn [fst propagate].
  set (s1 := map rng1 (seq 0 slen)) in *. set (s2 := map rng2 (seq 0 slen)) in *.
  assert (Hs1 : length s1 = slen)
    by (subst s1; now rewrite length_map, length_seq).
  assert (Hs2 : length s2 = slen)
    by (subst s2; now rewrite length_map, length_seq).
  assert (Hl : forall s : bytes, length s = slen ->
                 digest_size SHA256 + length s + 2 <= (em_bits + 7) / 8).
  { intros s ->. cbn [digest_size]. subst slen em_len em_bits. lia. }
  set (em1 := rsa.pss_encode (digest backend) SHA256 SHA256 msg s1 em_bits).
  set (em2 := rsa.pss_encode (digest backend) SHA256 SHA256 msg s2 em_bits).
  pose proof (pss_encode_length (digest backend) digest_length
                SHA256 SHA256 msg s1 em_bits (Hl s1 Hs1)) as L1.
  pose proof (pss_encode_length (digest backend) digest_length
                SHA256 SHA256 msg s2 em_bits (Hl s2 Hs2)) as L2.
  pose proof (pss_encode_bound (digest backend) digest_length
                SHA256 SHA256 msg s1 em_bits (Hl s1 Hs1)) as B1.
  pose proof (pss_encode_bound (digest backend) digest_length
                SHA256 SHA256 msg s2 em_bits (Hl s2 Hs2)) as B2.
  fold em1 in L1, B1. fold em2 in L2, B2.
  pose proof (modulus_bits k key_ok) as [Hlo _].
  pose proof (modulus_bytes k key_ok) as [_ Hhi].
  fold pub in Hlo, Hhi. fold em_bits in Hlo.
  intros H. apply ok_inj in H.
  apply (f_equal int_from_bytes) in H.
  pose proof (private_op_range k key_ok (int_from_bytes em1)) as P1.
  pose proof (private_op_range k key_ok (int_from_bytes em2)) as P2.
  fold pub in P1, P2.
  rewrite !int_from_to_bytes in H by lia.
  apply (f_equal (rsa.public_op pub)) in H.
  assert (R1 : (0 <= int_from_bytes em1 < rsa.n (rsa.public_key k))%Z)
    by (fold pub; lia).
  assert (R2 : (0 <= int_from_bytes em2 < rsa.n (rsa.public_key k))%Z)
    by (fold pub; lia).
  unfold pub in H. rewrite !public_private_op in H by assumption.
  apply int_from_bytes_inj in H; [|congruence].
  apply Hne.
  rewrite <- (pss_encode_salt (digest backend) digest_length
                SHA256 SHA256 msg s1 em_bits (Hl s1 Hs1)).
  rewrite <- (pss_encode_salt (digest backend) digest_length
                SHA256 SHA256 msg s2 em_bits (Hl s2 Hs2)).
  cbv zeta. fold em1 em2. now rewrite H, Hs1, Hs2.
Qed.

End Randomized.

Lemma rsa_encrypt_randomized_witness :
  map Toy.counter (seq 0 32) <> map (fun _ => x00) (seq 0 32)
  /\ fst (RSAPublic.encrypt Toy.rsa_backend (public_of Toy.key2048) [x61]
            Toy.counter)
     <> fst (RSAPublic.encrypt Toy.rsa_backend (public_of Toy.key2048) [x61]
               (fun _ => x00)).
Proof.
  assert (H : map Toy.counter (seq 0 32) <> map (fun _ => x00) (seq 0 32))
    by (vm_compute; discriminate).
  split; [exact H|].
  apply (rsa_encrypt_randomized Toy.rsa_backend toy_digest_length
           Toy.key2048 key2048_pair [x61] Toy.counter (fun _ => x00)).
  - unfold rsa.key_bytes. rewrite key2048_size. vm_compute. lia.
  - exact H.
Defined.

Lemma rsa_sign_randomized_witness :
  map Toy.counter (seq 0 222) <> map (fun _ => x00) (seq 0 222)
  /\ fst (RSAPrivate.sign Toy.rsa_backend (private_of Toy.key2048) [x61]
            Toy.counter)
     <> fst (RSAPrivate.sign Toy.rsa_backend (private_of Toy.key2048) [x61]
               (fun _ => x00)).
Proof.
  assert (H : map Toy.counter (seq 0 222) <> map (fun _ => x00) (seq 0 222))
    by (vm_compute; discriminate).
  split; [exact H|].
  apply (rsa_sign_randomized Toy.rsa_backend toy_digest_length
           Toy.key2048 key2048_pair [x61] Toy.counter (fun _ => x00)).
  - rewrite key2048_size. lia.
  - rewrite key2048_size. exact H.
Defined.
